(** * Classic Caps: the data-access layer and the name-matching service

    A shallow embedding of the storage service ([StorageService]), the
    football API service ([FootballAPIService]), the name-matching
    service ([NameMatchingService]), the line grouping of
    [FormationDisplay] and the game state the game page keeps, followed by
    the properties the specification states about them (C1 to C10) and by
    further properties of the same code (X1 to X30). *)

From Stdlib Require Import ZArith NArith Lia Bool Ascii String DecimalString DecimalN.
From Stdlib Require Import Sorted.
From stdpp Require Import gmap strings list.
From Equations Require Import Equations.

Local Open Scope Z_scope.

(** ** JavaScript values used by the services *)

Module JS.

(** A JavaScript number as the grid arithmetic uses it: an integer, or NaN.
    Integers are exact (the lineups handled stay far below 2^53). *)
Inductive number := Num (z : Z) | NaN.

#[global] Instance number_eq_dec : EqDecision number.
Proof. solve_decision. Defined.

Definition add (a b : number) : number :=
  match a, b with Num x, Num y => Num (x + y) | _, _ => NaN end.

Definition sub (a b : number) : number :=
  match a, b with Num x, Num y => Num (x - y) | _, _ => NaN end.

(** [a < b]: false as soon as one side is NaN. *)
Definition lt (a b : number) : bool :=
  match a, b with Num x, Num y => x <? y | _, _ => false end.

(** [a === b] on numbers: NaN equals nothing. *)
Definition strict_eq (a b : number) : bool :=
  match a, b with Num x, Num y => x =? y | _, _ => false end.

(** [Number(s)] on the numerals the API sends: the empty string is 0 and a
    run of decimal digits, with an optional minus sign, is its value. The
    other numeric syntaxes (surrounding blanks, a plus sign, fractions,
    exponents, radix prefixes, Infinity) do not occur in grid and formation
    strings; they are outside this model and read as NaN, like any other
    text. *)
Definition Number (s : string) : number :=
  if String.eqb s "-" then NaN
  else match NilEmpty.int_of_string s with
       | Some d => Num (Z.of_int d)
       | None => NaN
       end.

(** [String(n)] for a natural number: its decimal numeral. *)
Definition toString (n : N) : string := NilZero.string_of_uint (N.to_uint n).

(** [String(z)] for an integer. *)
Definition toStringZ (z : Z) : string := NilZero.string_of_int (Z.to_int z).

(** [s.split(sep)] for a one-character separator: never empty, with one
    more piece than there are separators. *)
Fixpoint split (sep : ascii) (s : string) : list string :=
  match s with
  | EmptyString => [EmptyString]
  | String c s' =>
      if Ascii.eqb c sep then EmptyString :: split sep s'
      else match split sep s' with
           | h :: t => String c h :: t
           | [] => [String c EmptyString]
           end
  end.

(** [parts.join(sep)]. *)
Fixpoint join (sep : string) (parts : list string) : string :=
  match parts with
  | [] => EmptyString
  | [p] => p
  | p :: rest => p +:+ sep +:+ join sep rest
  end.

(** Reading an array element in a numeric context: a missing element is
    [undefined], which the comparisons and subtractions below treat as NaN. *)
Definition at_index (xs : list number) (i : nat) : number :=
  default NaN (xs !! i).

End JS.

(** ** Grid positions ([FootballAPIService.convertGridToPosition]) *)

Module Grid.
Import JS.

(** The loop
    [for (let i = 0; i < row - 2 && i < formationParts.length; i++)
       position += formationParts[i]]
    entered with the lines from index [i] on still to visit. *)
Fixpoint add_previous_rows (rest : list number) (i : Z) (row position : number)
  : number :=
  match rest with
  | [] => position
  | line :: rest' =>
      if lt (Num i) (sub row (Num 2))
      then add_previous_rows rest' (i + 1) row (add position line)
      else position
  end.

Definition convertGridToPosition (grid formation : string) : number :=
  let cells := map Number (split ":" grid) in
  let row := at_index cells 0 in
  let col := at_index cells 1 in
  if strict_eq row (Num 1) then Num 0
  else
    let formationParts := map Number (split "-" formation) in
    let position := add_previous_rows formationParts 0 row (Num 1) in
    add position (sub col (Num 1)).

(** The grid string ["r:c"] and the formation string ["a-b-c"]. *)
Definition gridString (r c : N) : string :=
  toString r +:+ ":" +:+ toString c.

Definition formationString (lines : list N) : string :=
  join "-" (map toString lines).

(** The specification's reading: row 2 is the first (defensive) line of the
    formation, row 3 the second, and so on; a player in row [r] comes after
    the lines of rows 2 .. r-1. *)
Definition line_size (lines : list N) (row : nat) : Z :=
  Z.of_N (nth (row - 2) lines 0%N).

Definition lines_before (lines : list N) (r : N) : Z :=
  foldr Z.add 0 (map (line_size lines) (seq 2 (N.to_nat r - 2))).

End Grid.

(** ** The persistent cache ([StorageService]) *)

Module Storage.

Section Cache.
Context {D : Type}.

(** [CacheEntry<T>] of the types file. *)
Record CacheEntry := mkEntry { data : D; timestamp : Z; ttl : Z }.

(** What a localStorage slot holds: the JSON text of a cache entry (kept
    here as the entry it parses to), or some other text, on which
    [JSON.parse] throws. *)
Inductive Item :=
| EntryJSON (e : CacheEntry)
| Text (s : string).

Inductive StorageError := QuotaExceededError | OtherStorageError.

(** The browser's localStorage: [usable] is false when the object is missing
    or access is denied (every access throws); [room] tells whether a
    content fits the quota; [items] is the content. *)
Record LocalStorage := mkLS {
  usable : bool;
  room : gmap string Item -> bool;
  items : gmap string Item
}.

Definition with_items (ls : LocalStorage) (m : gmap string Item) : LocalStorage :=
  {| usable := usable ls; room := room ls; items := m |}.

Definition setItem (k : string) (v : Item) (ls : LocalStorage)
  : StorageError + LocalStorage :=
  if usable ls then
    if room ls (<[k := v]> (items ls))
    then inr (with_items ls (<[k := v]> (items ls)))
    else inl QuotaExceededError
  else inl OtherStorageError.

Definition removeItem (k : string) (ls : LocalStorage)
  : StorageError + LocalStorage :=
  if usable ls then inr (with_items ls (delete k (items ls)))
  else inl OtherStorageError.

Definition getItem (k : string) (ls : LocalStorage)
  : StorageError + option Item :=
  if usable ls then inr (items ls !! k) else inl OtherStorageError.

Definition CACHE_PREFIX : string := "classic-caps-api-cache-".
Definition testKey : string := "__storage_test__".

Definition cacheKey (key : string) : string := CACHE_PREFIX +:+ key.

(** [isAvailable]: writes and removes a probe; any throw means "no". *)
Definition isAvailable (ls : LocalStorage) : bool * LocalStorage :=
  match setItem testKey (Text "test") ls with
  | inl _ => (false, ls)
  | inr ls1 =>
      match removeItem testKey ls1 with
      | inl _ => (false, ls1)
      | inr ls2 => (true, ls2)
      end
  end.

(** [age >= ttl] for an entry read at [now]. *)
Definition expired (now : Z) (e : CacheEntry) : bool :=
  ttl e <=? now - timestamp e.

(** [clearExpiredCache]: among the slots whose key has the cache prefix,
    drop the expired entries and the texts that do not parse. *)
Definition stale (now : Z) (k : string) (v : Item) : bool :=
  String.prefix CACHE_PREFIX k &&
  match v with
  | EntryJSON e => expired now e
  | Text "" => false
  | Text _ => true
  end.

Definition clearExpiredCache (now : Z) (ls : LocalStorage) : LocalStorage :=
  let '(ok, ls1) := isAvailable ls in
  if ok then
    with_items ls1 (filter (fun kv => stale now kv.1 kv.2 = false) (items ls1))
  else ls1.

(** [saveCacheEntry(key, data, ttl)] at clock reading [now]: best effort,
    with one more attempt after clearing expired entries when the quota is
    exceeded; nothing is ever thrown to the caller. *)
Definition saveCacheEntry (key : string) (d : D) (t : Z) (now : Z)
    (ls : LocalStorage) : LocalStorage :=
  let '(ok, ls1) := isAvailable ls in
  if ok then
    let cacheEntry := {| data := d; timestamp := now; ttl := t |} in
    match setItem (cacheKey key) (EntryJSON cacheEntry) ls1 with
    | inr ls2 => ls2
    | inl QuotaExceededError =>
        let ls2 := clearExpiredCache now ls1 in
        match setItem (cacheKey key) (EntryJSON cacheEntry) ls2 with
        | inr ls3 => ls3
        | inl _ => ls2
        end
    | inl OtherStorageError => ls1
    end
  else ls1.

(** [getCacheEntry<T>(key)] at clock reading [now]: [None] is [null]. *)
Definition getCacheEntry (key : string) (now : Z) (ls : LocalStorage)
  : option D * LocalStorage :=
  let '(ok, ls1) := isAvailable ls in
  if ok then
    match getItem (cacheKey key) ls1 with
    | inl _ => (None, ls1)
    | inr None => (None, ls1)
    | inr (Some (Text _)) => (None, ls1)
    | inr (Some (EntryJSON parsed)) =>
        if expired now parsed then
          match removeItem (cacheKey key) ls1 with
          | inr ls2 => (None, ls2)
          | inl _ => (None, ls1)
          end
        else (Some (data parsed), ls1)
    end
  else (None, ls1).

(** The slot of the saved game, outside the cache prefix. *)
Definition GAME_STATE_KEY : string := "classic-caps-game-state".

(** [clearAllCache]: drop every slot whose key has the cache prefix. *)
Definition clearAllCache (ls : LocalStorage) : LocalStorage :=
  let '(ok, ls1) := isAvailable ls in
  if ok then
    with_items ls1
      (filter (fun kv => String.prefix CACHE_PREFIX kv.1 = false) (items ls1))
  else ls1.

End Cache.

Arguments CacheEntry : clear implicits.
Arguments Item : clear implicits.
Arguments LocalStorage : clear implicits.

End Storage.

(** ** Asynchronous computations

    An [async] function body is a tree of the steps it takes: synchronous
    accesses to the browser environment, and the points where it is
    suspended ([await] of a network call, of a timer, or of a promise that
    settles in a later microtask). *)

Module Async.

(** What a [throw] carries. *)
Inductive Exn :=
| APIError (statusCode : Z) (message : string) (retryable : bool)
| PlainError (message : string)   (* [new Error(message)] *)
| FetchTypeError                  (* a TypeError whose message mentions fetch *)
| Unexpected.                     (* any other thrown value *)

#[global] Instance Exn_eq_dec : EqDecision Exn.
Proof. solve_decision. Defined.

Definition is_APIError (e : Exn) : bool :=
  match e with APIError _ _ _ => true | _ => false end.

Section Computations.
Context {Env : Type} {Reply : Type}.

Inductive Async (A : Type) : Type :=
| Return (a : A)
| Throw (e : Exn)
| Sync {B : Type} (f : Env -> B * Env) (k : B -> Async A)
| Tick (k : unit -> Async A)
| Fetch (url : string) (k : Reply + Exn -> Async A)
| Sleep (ms : Z) (k : unit -> Async A).

Arguments Return {A}.
Arguments Throw {A}.
Arguments Sync {A B}.
Arguments Tick {A}.
Arguments Fetch {A}.
Arguments Sleep {A}.

Fixpoint bind {A B} (m : Async A) (g : A -> Async B) : Async B :=
  match m with
  | Return a => g a
  | Throw e => Throw e
  | Sync f k => Sync f (fun b => bind (k b) g)
  | Tick k => Tick (fun u => bind (k u) g)
  | Fetch url k => Fetch url (fun r => bind (k r) g)
  | Sleep ms k => Sleep ms (fun u => bind (k u) g)
  end.

(** [try { m } catch (error) { h error }]. *)
Fixpoint try_catch {A} (m : Async A) (h : Exn -> Async A) : Async A :=
  match m with
  | Return a => Return a
  | Throw e => h e
  | Sync f k => Sync f (fun b => try_catch (k b) h)
  | Tick k => Tick (fun u => try_catch (k u) h)
  | Fetch url k => Fetch url (fun r => try_catch (k r) h)
  | Sleep ms k => Sleep ms (fun u => try_catch (k u) h)
  end.

(** [try { m } finally { fin }]. *)
Fixpoint try_finally {A} (m : Async A) (fin : Async unit) : Async A :=
  match m with
  | Return a => bind fin (fun _ => Return a)
  | Throw e => bind fin (fun _ => Throw e)
  | Sync f k => Sync f (fun b => try_finally (k b) fin)
  | Tick k => Tick (fun u => try_finally (k u) fin)
  | Fetch url k => Fetch url (fun r => try_finally (k r) fin)
  | Sleep ms k => Sleep ms (fun u => try_finally (k u) fin)
  end.

(** [await m] for the promise of an async call [m]: the caller resumes in a
    later microtask, whether the promise is fulfilled or rejected. *)
Fixpoint await {A} (m : Async A) : Async A :=
  match m with
  | Return a => Tick (fun _ => Return a)
  | Throw e => Tick (fun _ => Throw e)
  | Sync f k => Sync f (fun b => await (k b))
  | Tick k => Tick (fun u => await (k u))
  | Fetch url k => Fetch url (fun r => await (k r))
  | Sleep ms k => Sleep ms (fun u => await (k u))
  end.

(** Reading and updating the environment in place. *)
Definition read {B} (f : Env -> B) : Async B :=
  Sync (fun env => (f env, env)) Return.

Definition update (f : Env -> Env) : Async unit :=
  Sync (fun env => (tt, f env)) Return.

End Computations.

Arguments Async : clear implicits.
Arguments Return {Env Reply A}.
Arguments Throw {Env Reply A}.
Arguments Sync {Env Reply A B}.
Arguments Tick {Env Reply A}.
Arguments Fetch {Env Reply A}.
Arguments Sleep {Env Reply A}.

#[global] Instance Async_bind {Env Reply} : MBind (Async Env Reply) :=
  fun A B g m => bind m g.
#[global] Instance Async_ret {Env Reply} : MRet (Async Env Reply) :=
  fun A a => Return a.

End Async.

(** ** The football API service ([FootballAPIService]) *)

Module API.
Import JS Storage Async.

(** *** External and internal records (the fields the service reads) *)

Record SeasonInfo := {
  si_year : N; si_start : string; si_end : string;
  si_lineups : bool                (* coverage.fixtures.lineups *)
}.

Record LeagueResponse := {
  lr_id : N; lr_name : string; lr_type : string; lr_logo : string;
  lr_country : string;             (* country.name *)
  lr_flag : string;                (* country.flag *)
  lr_seasons : list SeasonInfo
}.

Record League := {
  league_id : N; league_name : string; league_type : string;
  league_logo : string; league_country : string; league_countryFlag : string
}.

Record Season := {
  season_year : N; season_leagueId : N; season_leagueName : string;
  season_start : string; season_end : string; season_hasLineups : bool
}.

Record TeamResponse := {
  tr_id : N; tr_name : string; tr_logo : string; tr_code : string;
  tr_venue : option string         (* venue?.name *)
}.

Record Team := {
  team_id : N; team_name : string; team_logo : string; team_code : string;
  team_venue : option string
}.

Record Side := { side_id : N; side_name : string; side_logo : string }.

Record FixtureResponse := {
  fr_id : N; fr_date : string; fr_venue : string;
  fr_status : string;              (* fixture.status.short *)
  fr_home : Side; fr_away : Side;
  fr_goals_home : N; fr_goals_away : N;
  fr_league : string               (* league.name *)
}.

Record Fixture := {
  fixture_id : N; fixture_date : string;
  fixture_homeTeam : Side; fixture_awayTeam : Side;
  fixture_score : string; fixture_competition : string;
  fixture_venue : string; fixture_status : string
}.

Record PlayerInfo := {
  pi_id : N; pi_name : string; pi_number : N; pi_pos : string; pi_grid : string
}.

Record LineupResponse := {
  lu_team_id : N; lu_team_name : string; lu_formation : string;
  lu_startXI : list PlayerInfo
}.

Record Player := {
  player_id : N; player_name : string; player_number : N;
  player_position : string; player_gridPosition : JS.number
}.

Record Lineup := {
  lineup_fixtureId : N; lineup_teamId : N; lineup_teamName : string;
  lineup_formation : string; lineup_startXI : list Player
}.

(** What the cache holds and the operations return. *)
Inductive Payload :=
| Leagues (l : list League)
| Seasons (l : list Season)
| Teams (l : list Team)
| Fixtures (l : list Fixture)
| TheLineup (l : Lineup).

(** *** The browser environment and the HTTP exchange *)

Definition Promise := nat.

Record Env := {
  now : Z;                                (* Date.now() *)
  navigator : option bool;                (* navigator.onLine, if any *)
  localStorage : LocalStorage Payload;
  pendingRequests : gmap string Promise
}.

Definition with_storage (ls : LocalStorage Payload) (env : Env) : Env :=
  {| now := now env; navigator := navigator env; localStorage := ls;
     pendingRequests := pendingRequests env |}.

Definition with_pending (m : gmap string Promise) (env : Env) : Env :=
  {| now := now env; navigator := navigator env;
     localStorage := localStorage env; pendingRequests := m |}.

(** [APIResponse<T>]: the error list and the response array. *)
Record APIResponse (T : Type) := {
  errors : list string;
  response : list T
}.
Arguments errors {T}.
Arguments response {T}.

(** A [Response]: [json] is [None] when [response.json()] rejects. *)
Record Response (T : Type) := {
  status : Z;
  statusText : string;
  retryAfter : option string;             (* headers.get('Retry-After') *)
  json : option (APIResponse T)
}.
Arguments status {T}.
Arguments statusText {T}.
Arguments retryAfter {T}.
Arguments json {T}.

Definition ok {T} (r : Response T) : bool :=
  (200 <=? status r) && (status r <=? 299).

Abbreviation Task T A := (Async Env (Response T) A).

Definition storageService_getCacheEntry {T} (key : string)
  : Task T (option Payload) :=
  Sync (fun env =>
          let '(r, ls) := getCacheEntry key (now env) (localStorage env) in
          (r, with_storage ls env)) Return.

Definition storageService_saveCacheEntry {T} (key : string) (d : Payload)
    (ttl : Z) : Task T unit :=
  update (fun env =>
            with_storage (saveCacheEntry key d ttl (now env) (localStorage env)) env).

(** *** Configuration *)

Record FootballAPIService := { baseURL : string; apiKey : string }.

Definition CACHE_TTL_30_DAYS : Z := 30 * 24 * 60 * 60 * 1000.
Definition CACHE_TTL_INDEFINITE : Z := 365 * 24 * 60 * 60 * 1000.
Definition MAX_RETRIES : nat := 3.
Definition INITIAL_RETRY_DELAY : Z := 1000.

(** *** Retry pipeline *)

Definition isOffline (env : Env) : bool :=
  match navigator env with
  | Some onLine => negb onLine
  | None => false
  end.

Definition is_space (a : ascii) : bool :=
  let n := nat_of_ascii a in ((9 <=? n)%nat && (n <=? 13)%nat) || (n =? 32)%nat.

Definition digit_value (a : ascii) : option Z :=
  let n := nat_of_ascii a in
  if (48 <=? n)%nat && (n <=? 57)%nat then Some (Z.of_nat (n - 48)) else None.

Fixpoint skip_spaces (s : string) : string :=
  match s with
  | String a s' => if is_space a then skip_spaces s' else s
  | EmptyString => s
  end.

Fixpoint leading_digits (s : string) (acc : option Z) : option Z :=
  match s with
  | String a s' =>
      match digit_value a with
      | Some d => leading_digits s' (Some (10 * default 0 acc + d))
      | None => acc
      end
  | EmptyString => acc
  end.

(** [parseInt(s, 10)]: leading blanks, an optional sign, then the longest
    run of digits; NaN when there is none. *)
Definition parseInt10 (s : string) : JS.number :=
  let magnitude (neg : bool) (digits : string) :=
    match leading_digits digits None with
    | Some v => Num (if neg then - v else v)
    | None => NaN
    end in
  match skip_spaces s with
  | String "-" s' => magnitude true s'
  | String "+" s' => magnitude false s'
  | s' => magnitude false s'
  end.

Definition backoff (retryCount : nat) : Z :=
  INITIAL_RETRY_DELAY * 2 ^ Z.of_nat retryCount.

Definition handleRateLimit {T} (response : Response T) (retryCount : nat) : Z :=
  match retryAfter response with
  | Some header =>
      if String.eqb header "" then backoff retryCount
      else match parseInt10 header with
           | Num retryAfterSeconds => retryAfterSeconds * 1000
           | NaN => backoff retryCount
           end
  | None => backoff retryCount
  end.

Definition handleAPIError {T A} (statusCode : Z) (statusText : string) : Task T A :=
  let unavailable :=
    "The football API is temporarily unavailable. Please try again in a moment." in
  let '(message, retryable) :=
    if statusCode =? 400 then
      ("Invalid request. Please check your selection and try again.", false)
    else if statusCode =? 401 then
      ("API authentication failed. Please check your API key configuration.", false)
    else if statusCode =? 403 then
      ("Access forbidden. Your API key may not have permission for this resource.", false)
    else if statusCode =? 404 then
      ("The requested data was not found. This fixture may not have lineup data available.", false)
    else if statusCode =? 429 then
      ("Rate limit exceeded. Please wait a moment and try again.", true)
    else if (statusCode =? 500) || (statusCode =? 502) || (statusCode =? 503)
            || (statusCode =? 504) then
      (unavailable, true)
    else
      ("API request failed: " +:+ toStringZ statusCode +:+ " " +:+ statusText,
       500 <=? statusCode)
  in Throw (APIError statusCode message retryable).

(** [fetchAPI<T>(endpoint, retryCount)]. Every request is a GET with the
    same two API headers, so a request is identified by its URL. The
    recursive call stands inside the [try] block as in the source; the
    handler passes an [APIError] on unchanged. *)
Equations? fetchAPI {T} (this : FootballAPIService) (endpoint : string)
    (retryCount : nat) : Task T (list T) by wf (MAX_RETRIES - retryCount)%nat Peano.lt :=
fetchAPI this endpoint retryCount :=
  let url := baseURL this +:+ endpoint in
  offline ← read isOffline;
  if (offline : bool) then
    Throw (APIError 0
      "You appear to be offline. Please check your internet connection and try again."
      true)
  else
    try_catch
      (Fetch url (fun settled =>
         match settled with
         | inr thrown => Throw thrown
         | inl res =>
             if status res =? 429 then
               match decide (retryCount < MAX_RETRIES)%nat with
               | left _ =>
                   Sleep (handleRateLimit res retryCount) (fun _ =>
                     fetchAPI this endpoint (retryCount + 1)%nat)
               | right _ =>
                   handleAPIError (status res) (statusText res)
               end
             else if negb (ok res) then
               if 500 <=? status res then
                 match decide (retryCount < MAX_RETRIES)%nat with
                 | left _ =>
                     Sleep (backoff retryCount) (fun _ =>
                       fetchAPI this endpoint (retryCount + 1)%nat)
                 | right _ =>
                     handleAPIError (status res) (statusText res)
                 end
               else handleAPIError (status res) (statusText res)
             else
               Tick (fun _ =>
                 match json res with
                 | None => Throw Unexpected
                 | Some data =>
                     if (0 <? length (errors data))%nat then
                       Throw (APIError 400
                         "The API returned an error. Please try again." false)
                     else Return (response data)
                 end)
         end))
      (fun error =>
         match error with
         | APIError _ _ _ => Throw error
         | FetchTypeError =>
             Throw (APIError 0
               "Network error. Please check your internet connection and try again."
               true)
         | _ =>
             Throw (APIError 0 "An unexpected error occurred. Please try again." true)
         end).
Proof. all: unfold MAX_RETRIES in *; lia. Qed.

(** *** The five operations *)

(** [array.sort(compare)]: the stable order of a consistent comparator; a
    NaN result counts as "equal". *)
Fixpoint insert_sorted {A} (compare : A -> A -> JS.number) (x : A)
    (sorted : list A) : list A :=
  match sorted with
  | [] => [x]
  | y :: rest =>
      if JS.lt (Num 0) (compare y x) then x :: y :: rest
      else y :: insert_sorted compare x rest
  end.

Definition sort {A} (compare : A -> A -> JS.number) (l : list A) : list A :=
  foldl (fun sorted x => insert_sorted compare x sorted) [] l.

Definition toLeague (item : LeagueResponse) : League :=
  {| league_id := lr_id item; league_name := lr_name item;
     league_type := lr_type item; league_logo := lr_logo item;
     league_country := lr_country item; league_countryFlag := lr_flag item |}.

(** The body of the promise [getLeagues] creates and registers as pending. *)
Definition getLeagues_request (this : FootballAPIService)
  : Task LeagueResponse Payload :=
  let cacheKey := "leagues" in
  try_finally
    (response ← await (fetchAPI this "/leagues" 0);
     let leagues := map toLeague response in
     storageService_saveCacheEntry cacheKey (Leagues leagues) CACHE_TTL_30_DAYS;;
     Return (Leagues leagues))
    (update (fun env => with_pending (delete cacheKey (pendingRequests env)) env)).

Definition getLeagueSeasons (this : FootballAPIService) (leagueId : N)
  : Task LeagueResponse Payload :=
  let cacheKey := "seasons-" +:+ toString leagueId in
  cached ← storageService_getCacheEntry cacheKey;
  match cached with
  | Some hit => Return hit
  | None =>
      response ← await (fetchAPI this ("/leagues?id=" +:+ toString leagueId) 0);
      match response with
      | [] => Return (Seasons [])
      | leagueData :: _ =>
          let seasons :=
            sort (fun a b => Num (Z.of_N (season_year b) - Z.of_N (season_year a)))
              (map (fun season =>
                      {| season_year := si_year season;
                         season_leagueId := lr_id leagueData;
                         season_leagueName := lr_name leagueData;
                         season_start := si_start season;
                         season_end := si_end season;
                         season_hasLineups := si_lineups season |})
                 (filter (fun season => si_lineups season = true)
                    (lr_seasons leagueData))) in
          storageService_saveCacheEntry cacheKey (Seasons seasons) CACHE_TTL_30_DAYS;;
          Return (Seasons seasons)
      end
  end.

Definition getTeamsByLeagueSeason (this : FootballAPIService) (leagueId season : N)
  : Task TeamResponse Payload :=
  let cacheKey := "teams-" +:+ toString leagueId +:+ "-" +:+ toString season in
  cached ← storageService_getCacheEntry cacheKey;
  match cached with
  | Some hit => Return hit
  | None =>
      response ← await (fetchAPI this
        ("/teams?league=" +:+ toString leagueId +:+ "&season=" +:+ toString season) 0);
      let teams :=
        map (fun item =>
               {| team_id := tr_id item; team_name := tr_name item;
                  team_logo := tr_logo item; team_code := tr_code item;
                  team_venue := tr_venue item |}) response in
      storageService_saveCacheEntry cacheKey (Teams teams) CACHE_TTL_30_DAYS;;
      Return (Teams teams)
  end.

(** [getTime] is [new Date(date).getTime()], NaN for a date that does not
    parse. *)
Definition getFixtures (getTime : string -> JS.number)
    (this : FootballAPIService) (teamId season : N)
  : Task FixtureResponse Payload :=
  let cacheKey := "fixtures-" +:+ toString teamId +:+ "-" +:+ toString season in
  cached ← storageService_getCacheEntry cacheKey;
  match cached with
  | Some hit => Return hit
  | None =>
      response ← await (fetchAPI this
        ("/fixtures?team=" +:+ toString teamId +:+ "&season=" +:+ toString season) 0);
      let fixtures :=
        sort (fun a b => JS.sub (getTime (fixture_date a)) (getTime (fixture_date b)))
          (map (fun item =>
                  {| fixture_id := fr_id item; fixture_date := fr_date item;
                     fixture_homeTeam := fr_home item;
                     fixture_awayTeam := fr_away item;
                     fixture_score := toString (fr_goals_home item) +:+ "-"
                                      +:+ toString (fr_goals_away item);
                     fixture_competition := fr_league item;
                     fixture_venue := fr_venue item;
                     fixture_status := fr_status item |})
             (filter (fun item => fr_status item = "FT") response)) in
      storageService_saveCacheEntry cacheKey (Fixtures fixtures) CACHE_TTL_30_DAYS;;
      Return (Fixtures fixtures)
  end.

Definition lineupKey (fixtureId teamId : N) : string :=
  "lineup-" +:+ toString fixtureId +:+ "-" +:+ toString teamId.

Definition getLineup (this : FootballAPIService) (fixtureId teamId : N)
  : Task LineupResponse Payload :=
  let cacheKey := lineupKey fixtureId teamId in
  cached ← storageService_getCacheEntry cacheKey;
  match cached with
  | Some hit => Return hit
  | None =>
      response ← await (fetchAPI this
        ("/fixtures/lineups?fixture=" +:+ toString fixtureId) 0);
      match List.find (fun item => (lu_team_id item =? teamId)%N) response with
      | None =>
          Throw (PlainError ("Lineup not found for team " +:+ toString teamId
                             +:+ " in fixture " +:+ toString fixtureId))
      | Some teamLineup =>
          let lineup :=
            {| lineup_fixtureId := fixtureId;
               lineup_teamId := lu_team_id teamLineup;
               lineup_teamName := lu_team_name teamLineup;
               lineup_formation := lu_formation teamLineup;
               lineup_startXI :=
                 map (fun player =>
                        {| player_id := pi_id player;
                           player_name := pi_name player;
                           player_number := pi_number player;
                           player_position := pi_pos player;
                           player_gridPosition :=
                             Grid.convertGridToPosition (pi_grid player)
                               (lu_formation teamLineup) |})
                   (lu_startXI teamLineup) |} in
          if negb (length (lineup_startXI lineup) =? 11)%nat then
            Throw (PlainError ("Invalid lineup: expected 11 players, got "
                               +:+ toString (N.of_nat (length (lineup_startXI lineup)))))
          else
            storageService_saveCacheEntry cacheKey (TheLineup lineup)
              CACHE_TTL_INDEFINITE;;
            Return (TheLineup lineup)
      end
  end.

(** *** Running one request in isolation

    The network side of a run: for each request in turn, how it settles,
    how long that takes, and what [navigator.onLine] says afterwards. *)
Record Exchange (T : Type) := {
  reply : Response T + Exn;
  elapsed : Z;
  navigatorAfter : option bool
}.
Arguments reply {T}.
Arguments elapsed {T}.
Arguments navigatorAfter {T}.

Inductive Event := Requested (url : string) | Slept (ms : Z).

Inductive Outcome (A : Type) :=
| Fulfilled (a : A)
| Rejected (e : Exn)
| Waiting.                        (* still suspended: no reply left *)
Arguments Fulfilled {A}.
Arguments Rejected {A}.
Arguments Waiting {A}.

Record Result (T A : Type) := {
  outcome : Outcome A;
  final : Env;
  trace : list Event;
  unused : list (Exchange T)      (* the replies not consumed *)
}.
Arguments outcome {T A}.
Arguments final {T A}.
Arguments trace {T A}.
Arguments unused {T A}.

Definition later (dt : Z) (nav : option bool) (env : Env) : Env :=
  {| now := now env + Z.max dt 0; navigator := nav;
     localStorage := localStorage env; pendingRequests := pendingRequests env |}.

Fixpoint run {T A} (m : Task T A) (net : list (Exchange T)) (env : Env)
    (seen : list Event) : Result T A :=
  match m with
  | Return a =>
      {| outcome := Fulfilled a; final := env; trace := seen; unused := net |}
  | Throw e =>
      {| outcome := Rejected e; final := env; trace := seen; unused := net |}
  | Sync f k => let '(b, env') := f env in run (k b) net env' seen
  | Tick k => run (k tt) net env seen
  | Fetch url k =>
      match net with
      | [] => {| outcome := Waiting; final := env;
                 trace := seen ++ [Requested url]; unused := [] |}
      | x :: net' =>
          run (k (reply x)) net' (later (elapsed x) (navigatorAfter x) env)
            (seen ++ [Requested url])
      end
  | Sleep ms k =>
      run (k tt) net (later ms (navigator env) env) (seen ++ [Slept ms])
  end.

End API.

(** ** Concurrent callers

    The event loop: calls made by the interface start tasks, which run
    synchronously up to their first suspension; replies, timers and
    microtasks resume them one at a time. *)

Module Scheduler.
Import JS Storage Async API.

Section Runtime.
Context {T : Type}.

Inductive Suspended :=
| AwaitingReply (url : string) (k : Response T + Exn -> Task T Payload)
| AwaitingTimer (ms : Z) (k : unit -> Task T Payload)
| AwaitingMicrotask (k : unit -> Task T Payload).

Record Runtime := {
  env : Env;
  suspended : gmap Promise Suspended;      (* promises still in flight *)
  settled : gmap Promise (Exn + Payload);  (* rejected or fulfilled *)
  network : list (Promise * string);       (* requests sent, oldest first *)
  nextPromise : Promise
}.

(** Run a task up to its first suspension or to its end. *)
Fixpoint advance (m : Task T Payload) (e : Env)
  : Env * (Suspended + (Exn + Payload)) :=
  match m with
  | Return a => (e, inr (inr a))
  | Throw x => (e, inr (inl x))
  | Sync f k => let '(b, e') := f e in advance (k b) e'
  | Tick k => (e, inl (AwaitingMicrotask k))
  | Fetch url k => (e, inl (AwaitingReply url k))
  | Sleep ms k => (e, inl (AwaitingTimer ms k))
  end.

(** Record where task [p] stands after [advance]; a task that stops at a
    [fetch] has sent its request. *)
Definition record (p : Promise) (st : Env * (Suspended + (Exn + Payload)))
    (rt : Runtime) : Runtime :=
  match st.2 with
  | inl s =>
      {| env := st.1; suspended := <[p := s]> (suspended rt);
         settled := settled rt;
         network := match s with
                    | AwaitingReply url _ => network rt ++ [(p, url)]
                    | _ => network rt
                    end;
         nextPromise := nextPromise rt |}
  | inr result =>
      {| env := st.1; suspended := delete p (suspended rt);
         settled := <[p := result]> (settled rt);
         network := network rt; nextPromise := nextPromise rt |}
  end.

(** Calling an async function: a new promise, and the body run up to its
    first [await]. *)
Definition call (m : Task T Payload) (rt : Runtime) : Promise * Runtime :=
  let p := nextPromise rt in
  (p, record p (advance m (env rt))
        {| env := env rt; suspended := suspended rt; settled := settled rt;
           network := network rt; nextPromise := S p |}).

(** What the event loop delivers. *)
Inductive Input :=
| Reply (p : Promise) (r : Response T + Exn)   (* the fetch of [p] settles *)
| TimerFires (p : Promise)
| Microtask (p : Promise)
| Connectivity (nav : option bool)
| Elapse (dt : Z).

Definition resume (p : Promise) (m : Task T Payload) (rt : Runtime) : Runtime :=
  record p (advance m (env rt)) rt.

Definition step (i : Input) (rt : Runtime) : Runtime :=
  match i with
  | Reply p r =>
      match suspended rt !! p with
      | Some (AwaitingReply _ k) => resume p (k r) rt
      | _ => rt
      end
  | TimerFires p =>
      match suspended rt !! p with
      | Some (AwaitingTimer _ k) => resume p (k tt) rt
      | _ => rt
      end
  | Microtask p =>
      match suspended rt !! p with
      | Some (AwaitingMicrotask k) => resume p (k tt) rt
      | _ => rt
      end
  | Connectivity nav =>
      {| env := later 0 nav (env rt); suspended := suspended rt;
         settled := settled rt; network := network rt;
         nextPromise := nextPromise rt |}
  | Elapse dt =>
      {| env := later dt (navigator (env rt)) (env rt);
         suspended := suspended rt; settled := settled rt;
         network := network rt; nextPromise := nextPromise rt |}
  end.

Definition set_env (f : Env -> Env) (rt : Runtime) : Runtime :=
  {| env := f (env rt); suspended := suspended rt; settled := settled rt;
     network := network rt; nextPromise := nextPromise rt |}.

End Runtime.

Arguments Runtime : clear implicits.
Arguments Suspended : clear implicits.
Arguments Input : clear implicits.

(** [getLeagues()]: it has no [await] of its own, so it runs to its [return]
    at once. The caller gets the cached value, or follows the promise
    returned: the pending one, or the one just created and registered. *)
Definition getLeagues (this : FootballAPIService) (rt : Runtime LeagueResponse)
  : (Payload + Promise) * Runtime LeagueResponse :=
  let cacheKey := "leagues" in
  let '(cached, ls) :=
    getCacheEntry cacheKey (now (env rt)) (localStorage (env rt)) in
  let rt := set_env (with_storage ls) rt in
  match cached with
  | Some hit => (inl hit, rt)
  | None =>
      match pendingRequests (env rt) !! cacheKey with
      | Some pending => (inr pending, rt)
      | None =>
          let '(requestPromise, rt) := call (getLeagues_request this) rt in
          (inr requestPromise,
           set_env (fun e => with_pending
                               (<[cacheKey := requestPromise]> (pendingRequests e)) e)
             rt)
      end
  end.

(** A browser with an empty, working storage, online, nothing in flight. *)
Definition idle {T} : Runtime T :=
  {| env := {| now := 0; navigator := Some true;
               localStorage := {| usable := true; room := fun _ => true;
                                  items := ∅ |};
               pendingRequests := ∅ |};
     suspended := ∅; settled := ∅; network := []; nextPromise := 0%nat |}.

End Scheduler.

(** ** Strings of the name-matching service

    A JavaScript string is its sequence of UTF-16 code units. *)

Module Text.

Abbreviation jsstring := (list N).

(** The code units of an ASCII literal. *)
Definition str (s : string) : jsstring :=
  map N_of_ascii (list_ascii_of_string s).

(** WhiteSpace and LineTerminator code units: what [trim] removes and what
    [\s] matches. *)
Definition isWhiteSpace (c : N) : bool :=
  ((9 <=? c) && (c <=? 13) || (c =? 32) || (c =? 160) || (c =? 5760)
   || (8192 <=? c) && (c <=? 8202) || (c =? 8232) || (c =? 8233)
   || (c =? 8239) || (c =? 8287) || (c =? 12288) || (c =? 65279))%N.

Fixpoint trimStart (s : jsstring) : jsstring :=
  match s with
  | c :: s' => if isWhiteSpace c then trimStart s' else s
  | [] => []
  end.

Definition trimEnd (s : jsstring) : jsstring := rev (trimStart (rev s)).

Definition trim (s : jsstring) : jsstring := trimEnd (trimStart s).

(** [s.split(/\s+/)]: the pieces between maximal runs of white space;
    [current] is the piece being read (reversed), [inSpace] tells whether
    the previous unit was white space. *)
Fixpoint splitSpaces_from (s : jsstring) (current : jsstring) (inSpace : bool)
  : list jsstring :=
  match s with
  | [] => [rev current]
  | c :: s' =>
      if isWhiteSpace c then
        if inSpace then splitSpaces_from s' current true
        else rev current :: splitSpaces_from s' [] true
      else splitSpaces_from s' (c :: current) false
  end.

Definition splitSpaces (s : jsstring) : list jsstring :=
  splitSpaces_from s [] false.

(** [parts.join(' ')]. *)
Fixpoint joinSpace (parts : list jsstring) : jsstring :=
  match parts with
  | [] => []
  | [p] => p
  | p :: rest => p ++ 32%N :: joinSpace rest
  end.

(** [parts.slice(-k)]: the last [k] elements, all of them if fewer. *)
Definition lastN {A} (k : nat) (parts : list A) : list A :=
  drop (length parts - k) parts.

(** [parts[i]] for an index within bounds (every use below is guarded). *)
Definition at_ (parts : list jsstring) (i : nat) : jsstring :=
  nth i parts [].

End Text.

(** ** The name-matching service ([NameMatchingService]) *)

Module NameMatching.
Import Text.

(** A [Map<string, string>] in insertion order. *)
Abbreviation Memo := (list (jsstring * jsstring)).

Fixpoint memo_get (key : jsstring) (m : Memo) : option jsstring :=
  match m with
  | [] => None
  | (k, v) :: rest => if decide (k = key) then Some v else memo_get key rest
  end.

(** The size cap: [if (cache.size > 1000)], drop the first key, unless that
    key is the empty string (which [if (firstKey)] takes for "no key"). *)
Definition capped (m : Memo) : Memo :=
  if (1000 <? length m)%nat then
    match m with
    | (firstKey, _) :: rest =>
        match firstKey with [] => m | _ => rest end
    | [] => m
    end
  else m.

Record Service := {
  normalizeCache : Memo;
  hintCache : Memo
}.

Definition newService : Service := {| normalizeCache := []; hintCache := [] |}.

(** The character class of the regular expression in [normalize]: the
    Combining Diacritical Marks block, U+0300 to U+036F. *)
Definition isDiacritic (c : N) : bool := ((768 <=? c) && (c <=? 879))%N.

Definition removeDiacritics (s : jsstring) : jsstring :=
  List.filter (fun c => negb (isDiacritic c)) s.

Definition prefixes : list jsstring :=
  map str ["de"; "van"; "von"; "del"; "della"; "di"; "da"; "le"; "la"; "el";
           "al"; "dos"; "das"; "mac"; "mc"].

Definition includes (l : list jsstring) (x : jsstring) : bool :=
  bool_decide (x ∈ l).

Definition hintChar (char : N) : N :=
  if (char =? 45)%N then 45%N           (* '-' *)
  else if (char =? 39)%N then 39%N      (* ''' *)
  else if (char =? 46)%N then 46%N      (* '.' *)
  else 95%N.                            (* '_' *)

Section Host.
(** The host's Unicode functions: [String.prototype.normalize('NFD')] and
    [String.prototype.toLowerCase]. *)
Variable nfd : jsstring -> jsstring.
Variable toLowerCase : jsstring -> jsstring.

(** The value [normalize] computes on a cache miss. *)
Definition normalized (name : jsstring) : jsstring :=
  trim (toLowerCase (removeDiacritics (nfd name))).

Definition normalize (name : jsstring) (this : Service) : jsstring * Service :=
  match memo_get name (normalizeCache this) with
  | Some hit => (hit, this)
  | None =>
      let normalized := normalized name in
      (normalized,
       {| normalizeCache := capped (normalizeCache this ++ [(name, normalized)]);
          hintCache := hintCache this |})
  end.

Definition getLastName (name : jsstring) : jsstring :=
  let nameParts := splitSpaces (trim name) in
  if (length nameParts =? 1)%nat then at_ nameParts 0
  else
    let secondToLast := toLowerCase (at_ nameParts (length nameParts - 2)) in
    if (2 <=? length nameParts)%nat && includes prefixes secondToLast then
      joinSpace (lastN 2 nameParts)
    else
      let thirdToLast := toLowerCase (at_ nameParts (length nameParts - 3)) in
      if (3 <=? length nameParts)%nat
         && (includes prefixes thirdToLast
             && (includes prefixes secondToLast
                 || bool_decide (secondToLast = str "der")
                 || bool_decide (secondToLast = str "den")))
      then joinSpace (lastN 3 nameParts)
      else at_ nameParts (length nameParts - 1).

Definition isMatch (guess actualName : jsstring) (this : Service)
  : bool * Service :=
  let '(normalizedGuess, this) := normalize guess this in
  let lastName := getLastName actualName in
  let '(normalizedLastName, this) := normalize lastName this in
  if bool_decide (normalizedGuess = normalizedLastName) then (true, this)
  else
    let lastNameParts := splitSpaces lastName in
    if (1 <? length lastNameParts)%nat then
      let finalPart := at_ lastNameParts (length lastNameParts - 1) in
      let '(normalizedFinal, this) := normalize finalPart this in
      if bool_decide (normalizedGuess = normalizedFinal) then (true, this)
      else (false, this)
    else (false, this).

(** The value [generateLetterHint] computes on a cache miss. *)
Definition hint (name : jsstring) : jsstring :=
  map hintChar (getLastName name).

Definition generateLetterHint (name : jsstring) (this : Service)
  : jsstring * Service :=
  match memo_get name (hintCache this) with
  | Some cached => (cached, this)
  | None =>
      let hint := hint name in
      (hint,
       {| normalizeCache := normalizeCache this;
          hintCache := capped (hintCache this ++ [(name, hint)]) |})
  end.

End Host.

End NameMatching.

(** ** A host for the examples

    A fragment of the Unicode data: the canonical combining classes of the
    Combining Diacritical Marks block and of the Hebrew points, and the
    canonical decompositions and lowercase mappings of the Latin-1 letters.
    Every other code unit is taken as a starter with no decomposition and
    no case. *)

Module Unicode.
Import Text.
Local Open Scope N_scope.

(** Canonical combining class. *)
Definition ccc (c : N) : N :=
  let within (lo hi : N) := ((lo <=? c) && (c <=? hi))%N in
  if within 768 788 then 230          (* U+0300..U+0314 *)
  else if within 789 789 then 232
  else if within 790 793 then 220
  else if within 794 794 then 232
  else if within 795 795 then 216
  else if within 796 800 then 220
  else if within 801 802 then 202
  else if within 803 806 then 220
  else if within 807 808 then 202     (* cedilla, ogonek *)
  else if within 809 819 then 220
  else if within 820 824 then 1
  else if within 825 828 then 220
  else if within 829 836 then 230
  else if within 837 837 then 240
  else if within 838 838 then 230
  else if within 839 841 then 220
  else if within 842 844 then 230
  else if within 845 846 then 220
  else if within 847 847 then 0       (* U+034F combining grapheme joiner *)
  else if within 848 850 then 230
  else if within 851 854 then 220
  else if within 855 855 then 230
  else if within 856 856 then 232
  else if within 857 858 then 220
  else if within 859 859 then 230
  else if within 860 860 then 233
  else if within 861 862 then 234
  else if within 863 863 then 233
  else if within 864 865 then 234
  else if within 866 866 then 233
  else if within 867 879 then 230     (* U+0363..U+036F *)
  else if within 1456 1465 then c - 1446   (* U+05B0..U+05B9: 10..19 *)
  else if within 1466 1466 then 19
  else if within 1467 1469 then c - 1447   (* U+05BB..U+05BD: 20..22 *)
  else 0.

(** Canonical decompositions of the Latin-1 letters: code unit, base, mark. *)
Definition decompositions : list (N * (N * N)) :=
  let grave := 768 in let acute := 769 in let circumflex := 770 in
  let tilde := 771 in let diaeresis := 776 in let ring := 778 in
  let cedilla := 807 in
  let upper :=
    [(192, (65, grave)); (193, (65, acute)); (194, (65, circumflex));
     (195, (65, tilde)); (196, (65, diaeresis)); (197, (65, ring));
     (199, (67, cedilla));
     (200, (69, grave)); (201, (69, acute)); (202, (69, circumflex));
     (203, (69, diaeresis));
     (204, (73, grave)); (205, (73, acute)); (206, (73, circumflex));
     (207, (73, diaeresis));
     (209, (78, tilde));
     (210, (79, grave)); (211, (79, acute)); (212, (79, circumflex));
     (213, (79, tilde)); (214, (79, diaeresis));
     (217, (85, grave)); (218, (85, acute)); (219, (85, circumflex));
     (220, (85, diaeresis));
     (221, (89, acute))] in
  upper ++ map (fun '(c, (base, mark)) => (c + 32, (base + 32, mark))) upper
        ++ [(255, (121, diaeresis))].

Fixpoint decomposition_of (c : N) (table : list (N * (N * N))) : option (N * N) :=
  match table with
  | [] => None
  | (c', d) :: rest => if (c' =? c)%N then Some d else decomposition_of c rest
  end.

Definition decompose (c : N) : jsstring :=
  match decomposition_of c decompositions with
  | Some (base, mark) => [base; mark]
  | None => [c]
  end.

(** Canonical ordering: a mark moves right past the marks of a strictly
    smaller non-zero class. *)
Fixpoint place (c : N) (ordered : jsstring) : jsstring :=
  match ordered with
  | [] => [c]
  | d :: rest =>
      if ((0 <? ccc d) && (ccc d <? ccc c))%N then d :: place c rest
      else c :: d :: rest
  end.

Definition canonicalOrder (s : jsstring) : jsstring := foldr place [] s.

Definition nfd (s : jsstring) : jsstring :=
  canonicalOrder (flat_map decompose s).

Definition lowerUnit (c : N) : N :=
  if ((65 <=? c) && (c <=? 90))%N then c + 32
  else if ((192 <=? c) && (c <=? 222) && negb (c =? 215))%N then c + 32
  else c.

Definition toLowerCase (s : jsstring) : jsstring := map lowerUnit s.

End Unicode.

(** ** The formation on the pitch ([FormationDisplay])

    The grouping the component computes before it renders: the goalkeeper,
    and one line of players for each part of the formation. *)

Module Display.
Import JS API.

(** [a >= b]: false as soon as one side is NaN. *)
Definition geq (a b : number) : bool :=
  match a, b with Num x, Num y => y <=? x | _, _ => false end.

(** The [forEach] over the formation parts, entered at [currentPosition]. *)
Fixpoint group_lines (formationParts : list number) (currentPosition : number)
    (sortedPlayers : list Player) : list (list Player) :=
  match formationParts with
  | [] => []
  | count :: rest =>
      List.filter
        (fun p => geq (player_gridPosition p) currentPosition
                  && lt (player_gridPosition p) (add currentPosition count))
        sortedPlayers
      :: group_lines rest (add currentPosition count) sortedPlayers
  end.

Record Rows := { goalkeeper : list Player; lines : list (list Player) }.

Definition rows (lineup : Lineup) : Rows :=
  let sortedPlayers :=
    sort (fun a b => sub (player_gridPosition a) (player_gridPosition b))
      (lineup_startXI lineup) in
  let formationParts := map Number (split "-" (lineup_formation lineup)) in
  {| goalkeeper :=
       List.filter (fun p => strict_eq (player_gridPosition p) (Num 0))
         sortedPlayers;
     lines := group_lines formationParts (Num 1) sortedPlayers |}.

End Display.

(** ** The game in progress (the game page and the [currentGame] part of
    the application reducer) *)

Module Game.
Import JS.

#[global] Instance number_countable : Countable number.
Proof.
  apply (inj_countable'
           (fun n => match n with Num z => Some z | NaN => None end)
           (fun o => match o with Some z => Num z | None => NaN end)).
  intros []; reflexivity.
Defined.

Record PlayerGuess := {
  playerName : string;
  isCorrect : bool;
  attemptCount : Z
}.

(** [GameState]; the guesses are a [Map] keyed by the position number. *)
Record GameState := {
  fixtureId : N;
  teamId : N;
  startTime : Z;
  guessedPlayers : gmap number PlayerGuess;
  attempts : Z;
  completed : bool
}.

(** [Partial<GameState>]: the fields present. *)
Record Partial := {
  upd_fixtureId : option N;
  upd_teamId : option N;
  upd_startTime : option Z;
  upd_guessedPlayers : option (gmap number PlayerGuess);
  upd_attempts : option Z;
  upd_completed : option bool
}.

(** The actions of the reducer that concern the game; every other action
    copies [currentGame]. *)
Inductive Action :=
| SET_GAME (payload : option GameState)
| UPDATE_GAME (payload : Partial)
| RESET_GAME
| OtherAction.

(** [appReducer], on the [currentGame] field of the state. *)
Definition appReducer (currentGame : option GameState) (action : Action)
  : option GameState :=
  match action with
  | SET_GAME payload => payload
  | UPDATE_GAME payload =>
      match currentGame with
      | None => None
      | Some game =>
          Some {| fixtureId := default (fixtureId game) (upd_fixtureId payload);
                  teamId := default (teamId game) (upd_teamId payload);
                  startTime := default (startTime game) (upd_startTime payload);
                  guessedPlayers :=
                    default (guessedPlayers game) (upd_guessedPlayers payload);
                  attempts := default (attempts game) (upd_attempts payload);
                  completed := default (completed game) (upd_completed payload) |}
      end
  | RESET_GAME => None
  | OtherAction => currentGame
  end.

(** [initializeGameState(fixtureId, teamId, lineupData)] at clock reading
    [now]: the action it dispatches, if any. *)
Definition initializeGameState (currentGame : option GameState)
    (fixture team : N) (now : Z) : option Action :=
  let fresh :=
    SET_GAME (Some {| fixtureId := fixture; teamId := team; startTime := now;
                      guessedPlayers := ∅; attempts := 0; completed := false |}) in
  match currentGame with
  | None => Some fresh
  | Some game => if (fixtureId game =? fixture)%N then None else Some fresh
  end.

(** [handlePlayerGuess(position, guess, isCorrect)], with the game the
    page was rendered with: the action it dispatches, if any. *)
Definition handlePlayerGuess (currentGame : option GameState)
    (position : number) (guess : string) (correct : bool) : option Action :=
  match currentGame with
  | None => None
  | Some game =>
      let newAttempts := attempts game + 1 in
      if correct then
        let existingGuess := guessedPlayers game !! position in
        let newGuessedPlayers :=
          <[position := {| playerName := guess; isCorrect := true;
                           attemptCount :=
                             match existingGuess with
                             | Some existing => attemptCount existing + 1
                             | None => 1
                             end |}]> (guessedPlayers game) in
        let allGuessed := bool_decide (size newGuessedPlayers = 11%nat) in
        Some (UPDATE_GAME
                {| upd_fixtureId := None; upd_teamId := None;
                   upd_startTime := None;
                   upd_guessedPlayers := Some newGuessedPlayers;
                   upd_attempts := Some newAttempts;
                   upd_completed := Some allGuessed |})
      else
        Some (UPDATE_GAME
                {| upd_fixtureId := None; upd_teamId := None;
                   upd_startTime := None; upd_guessedPlayers := None;
                   upd_attempts := Some newAttempts; upd_completed := None |})
  end.

(** A submitted guess. *)
Record Guess := { at_position : number; text : string; matched : bool }.

(** The page handles a guess and the reducer runs before the next one. *)
Definition dispatch (currentGame : option GameState) (action : option Action)
  : option GameState :=
  match action with
  | Some a => appReducer currentGame a
  | None => currentGame
  end.

Definition guessed (currentGame : option GameState) (g : Guess)
  : option GameState :=
  dispatch currentGame
    (handlePlayerGuess currentGame (at_position g) (text g) (matched g)).

Definition play (guesses : list Guess) (currentGame : option GameState)
  : option GameState :=
  foldl guessed currentGame guesses.

End Game.

(** ** Properties of the grid conversion *)

Module GridFacts.
Import JS Grid.

Definition is_digit (a : ascii) : bool :=
  let n := nat_of_ascii a in (48 <=? n)%nat && (n <=? 57)%nat.

Fixpoint all_chars (P : ascii -> bool) (s : string) : bool :=
  match s with
  | EmptyString => true
  | String a s' => P a && all_chars P s'
  end.

Lemma string_of_uint_digits d : all_chars is_digit (NilEmpty.string_of_uint d) = true.
Proof. induction d; simpl; auto. Qed.

Lemma toString_digits n : all_chars is_digit (toString n) = true.
Proof.
  unfold toString, NilZero.string_of_uint.
  destruct (N.to_uint n); try apply string_of_uint_digits; reflexivity.
Qed.

Lemma toString_nonempty n : toString n <> EmptyString.
Proof.
  unfold toString, NilZero.string_of_uint.
  destruct (N.to_uint n); simpl; discriminate.
Qed.

Lemma to_uint_not_nil n : N.to_uint n <> Decimal.Nil.
Proof.
  destruct n as [|p]; [discriminate|]. simpl.
  intros H. apply (f_equal Pos.of_uint) in H.
  rewrite DecimalPos.Unsigned.of_to in H. discriminate.
Qed.

(** Reading back a decimal numeral gives the number it was written from. *)
Lemma Number_toString n : Number (toString n) = Num (Z.of_N n).
Proof.
  assert (Hsign : String.eqb (toString n) "-" = false).
  { apply String.eqb_neq. intros E. pose proof (toString_digits n) as Hd.
    rewrite E in Hd. discriminate. }
  unfold Number. rewrite Hsign. unfold toString, NilZero.string_of_uint.
  pose proof (to_uint_not_nil n) as Hnil.
  pose proof (DecimalN.Unsigned.of_to n) as Hback.
  pose proof (NilEmpty.isi (Decimal.Pos (N.to_uint n))) as Hparse.
  destruct (N.to_uint n) eqn:E; try congruence;
    simpl in Hparse; simpl; rewrite Hparse; simpl;
    unfold Z.of_uint; f_equal; f_equal; exact Hback.
Qed.

Lemma split_no_sep sep s :
  all_chars (fun a => negb (Ascii.eqb a sep)) s = true -> split sep s = [s].
Proof.
  induction s as [|a s IH]; simpl; [reflexivity|].
  intros [Ha Hs]%andb_true_iff. apply negb_true_iff in Ha. rewrite Ha.
  rewrite (IH Hs). reflexivity.
Qed.

Lemma split_app_sep sep s t :
  all_chars (fun a => negb (Ascii.eqb a sep)) s = true ->
  split sep (s +:+ String sep t) = s :: split sep t.
Proof.
  induction s as [|a s IH]; simpl.
  - intros _. rewrite Ascii.eqb_refl. reflexivity.
  - intros [Ha Hs]%andb_true_iff. apply negb_true_iff in Ha. rewrite Ha.
    rewrite (IH Hs). reflexivity.
Qed.

Lemma all_chars_impl (P Q : ascii -> bool) s :
  (forall a, P a = true -> Q a = true) ->
  all_chars P s = true -> all_chars Q s = true.
Proof.
  intros HPQ. induction s as [|a s IH]; simpl; [auto|].
  intros [Ha Hs]%andb_true_iff. rewrite (HPQ _ Ha), (IH Hs). reflexivity.
Qed.

Lemma digit_not_sep sep a :
  is_digit sep = false -> is_digit a = true -> negb (Ascii.eqb a sep) = true.
Proof.
  intros Hsep Ha. apply negb_true_iff, Ascii.eqb_neq. congruence.
Qed.

Lemma toString_no_sep sep n :
  is_digit sep = false ->
  all_chars (fun a => negb (Ascii.eqb a sep)) (toString n) = true.
Proof.
  intros Hsep. eapply all_chars_impl; [|apply toString_digits].
  intros a. apply digit_not_sep, Hsep.
Qed.

Lemma split_gridString r c :
  split ":" (gridString r c) = [toString r; toString c].
Proof.
  unfold gridString.
  change (":" +:+ toString c) with (String ":" (toString c)).
  rewrite split_app_sep by (apply toString_no_sep; reflexivity).
  rewrite split_no_sep by (apply toString_no_sep; reflexivity). reflexivity.
Qed.

Lemma split_formationString l ls :
  split "-" (formationString (l :: ls)) = map toString (l :: ls).
Proof.
  unfold formationString. revert l.
  induction ls as [|l' ls IH]; intros l.
  - simpl. apply split_no_sep, toString_no_sep. reflexivity.
  - change (join "-" (map toString (l :: l' :: ls)))
      with (toString l +:+ String "-" (join "-" (map toString (l' :: ls)))).
    rewrite split_app_sep by (apply toString_no_sep; reflexivity).
    rewrite IH. reflexivity.
Qed.

Definition num_of_N (n : N) : number := Num (Z.of_N n).

Lemma map_Number_toString ls : map Number (map toString ls) = map num_of_N ls.
Proof.
  induction ls as [|l ls IH]; simpl; [reflexivity|].
  rewrite Number_toString, IH. reflexivity.
Qed.

Definition sumZ (ls : list N) : Z := foldr Z.add 0 (map Z.of_N ls).

(** The loop adds the first [row - 2 - i] of the lines it still has. *)
Lemma add_previous_rows_sum rest i row p :
  0 <= i ->
  add_previous_rows (map num_of_N rest) i (Num row) (Num p)
  = Num (p + sumZ (take (Z.to_nat (row - 2 - i)) rest)).
Proof.
  revert i p. induction rest as [|l rest IH]; intros i p Hi; simpl.
  - rewrite take_nil. unfold sumZ. simpl. f_equal. lia.
  - destruct (Z.ltb_spec i (row - 2)) as [Hlt|Hge].
    + rewrite IH by lia.
      replace (Z.to_nat (row - 2 - i)) with (S (Z.to_nat (row - 2 - (i + 1)))) by lia.
      unfold sumZ. simpl. f_equal. lia.
    + replace (Z.to_nat (row - 2 - i)) with 0%nat by lia.
      unfold sumZ. simpl. f_equal. lia.
Qed.

Lemma lines_before_take lines k :
  foldr Z.add 0 (map (fun i => Z.of_N (nth i lines 0%N)) (seq 0 k))
  = sumZ (take k lines).
Proof.
  revert k. induction lines as [|l lines IH]; intros k.
  - rewrite take_nil. unfold sumZ. simpl.
    induction (seq 0 k) as [|i rest IHs]; simpl; [reflexivity|].
    rewrite IHs. destruct i; reflexivity.
  - destruct k as [|k]; [reflexivity|].
    unfold sumZ. simpl. f_equal.
    rewrite <- seq_shift, map_map. apply IH.
Qed.

Lemma lines_before_sum lines r :
  lines_before lines r = sumZ (take (N.to_nat r - 2) lines).
Proof.
  unfold lines_before, line_size.
  rewrite <- lines_before_take.
  rewrite <- (seq_shift _ 1), <- (seq_shift _ 0), !map_map.
  f_equal. apply map_ext. intros i.
  replace (S (S i) - 2)%nat with i by lia. reflexivity.
Qed.

Lemma convertGridToPosition_numeric r c lines :
  convertGridToPosition (gridString r c) (formationString lines)
  = if (r =? 1)%N then Num 0
    else Num (1 + sumZ (take (N.to_nat r - 2) lines) + (Z.of_N c - 1)).
Proof.
  unfold convertGridToPosition. rewrite split_gridString. simpl map.
  rewrite !Number_toString. unfold at_index. simpl.
  destruct (N.eqb_spec r 1) as [->|Hr]; [reflexivity|].
  destruct (Z.eqb_spec (Z.of_N r) 1) as [E|_]; [lia|].
  replace (N.to_nat r - 2)%nat with (Z.to_nat (Z.of_N r - 2 - 0)) by lia.
  destruct lines as [|l ls].
  - rewrite take_nil. unfold formationString, sumZ. simpl.
    destruct (0 <? Z.of_N r - 2); simpl; f_equal; lia.
  - rewrite split_formationString, map_Number_toString.
    rewrite add_previous_rows_sum by lia. reflexivity.
Qed.

(** C1. For a grid string "r:c" and a formation string written from the
    line sizes [lines], the conversion returns 0 when r = 1 and, for
    r >= 2, 1 + (the sizes of the formation lines of rows 2 .. r-1) +
    (c - 1). For "4-4-2": "1:1" is 0, "2:1".."2:4" are 1..4,
    "3:1".."3:4" are 5..8, "4:1" and "4:2" are 9 and 10. *)
Theorem convertGridToPosition_index :
  (forall (r c : N) (lines : list N),
     (r = 1%N ->
      convertGridToPosition (gridString r c) (formationString lines) = Num 0) /\
     ((2 <= r)%N ->
      convertGridToPosition (gridString r c) (formationString lines)
      = Num (1 + lines_before lines r + (Z.of_N c - 1)))) /\
  map (fun g => convertGridToPosition g "4-4-2")
    ["1:1"; "2:1"; "2:2"; "2:3"; "2:4"; "3:1"; "3:2"; "3:3"; "3:4"; "4:1"; "4:2"]
  = map Num [0; 1; 2; 3; 4; 5; 6; 7; 8; 9; 10].
Proof.
  split; [|reflexivity].
  intros r c lines. rewrite convertGridToPosition_numeric, lines_before_sum.
  split; intros Hr.
  - subst r. reflexivity.
  - destruct (N.eqb_spec r 1); [lia|reflexivity].
Qed.

Lemma convertGridToPosition_index_witness :
  convertGridToPosition (gridString 3 2) (formationString [4; 4; 2]%N)
  = Num (1 + lines_before [4; 4; 2]%N 3 + (Z.of_N 2 - 1))
  /\ convertGridToPosition (gridString 1 1) (formationString [4; 4; 2]%N) = Num 0.
Proof.
  destruct convertGridToPosition_index as [Hgen _].
  split.
  - apply (proj2 (Hgen 3%N 2%N [4; 4; 2]%N)). lia.
  - apply (proj1 (Hgen 1%N 1%N [4; 4; 2]%N)). reflexivity.
Defined.

End GridFacts.

(** ** Properties of the persistent cache *)

Module StorageFacts.
Import Storage.

Section Cache.
Context {D : Type}.
Implicit Types (ls : LocalStorage D) (e : CacheEntry D).

Lemma cacheKey_not_testKey key : cacheKey key <> testKey.
Proof. unfold cacheKey, testKey, CACHE_PREFIX. simpl. discriminate. Qed.

(** A successful probe leaves the storage without the probe key and
    otherwise as it was. *)
Lemma isAvailable_true ls ls' :
  isAvailable ls = (true, ls') ->
  usable ls = true /\
  room ls (<[testKey := Text "test"]> (items ls)) = true /\
  ls' = with_items ls (delete testKey (items ls)).
Proof.
  unfold isAvailable, setItem, removeItem.
  destruct (usable ls) eqn:Hu; [|intros [=]].
  destruct (room ls _); [|intros [=]].
  simpl. rewrite Hu. intros [= <-]. do 2 (split; [reflexivity|]).
  unfold with_items. simpl. f_equal. apply delete_insert_eq.
Qed.

Lemma isAvailable_probe ls :
  usable ls = true ->
  room ls (<[testKey := Text "test"]> (items ls)) = true ->
  isAvailable ls = (true, with_items ls (delete testKey (items ls))).
Proof.
  intros Hu Hr. unfold isAvailable, setItem, removeItem.
  rewrite Hu, Hr. simpl. rewrite Hu.
  unfold with_items. simpl. do 2 f_equal. apply delete_insert_eq.
Qed.

(** The write of [saveCacheEntry] when the storage is available and the
    entry fits. *)
Lemma saveCacheEntry_stores key (d : D) T t0 ls :
  usable ls = true ->
  room ls (<[testKey := Text "test"]> (items ls)) = true ->
  room ls (<[cacheKey key := EntryJSON (mkEntry d t0 T)]>
             (delete testKey (items ls))) = true ->
  saveCacheEntry key d T t0 ls
  = with_items ls (<[cacheKey key := EntryJSON (mkEntry d t0 T)]>
                     (delete testKey (items ls))).
Proof.
  intros Hu Hprobe Hfit. unfold saveCacheEntry.
  rewrite (isAvailable_probe _ Hu Hprobe).
  unfold setItem. simpl. rewrite Hu, Hfit. reflexivity.
Qed.

(** The lookup on a storage that holds entry [e] under the key. *)
Lemma getCacheEntry_entry key e now ls ls1 :
  isAvailable ls = (true, ls1) ->
  items ls !! cacheKey key = Some (EntryJSON e) ->
  getCacheEntry key now ls
  = if expired now e
    then (None, with_items ls1 (delete (cacheKey key) (items ls1)))
    else (Some (data e), ls1).
Proof.
  intros Hav Hin. unfold getCacheEntry. rewrite Hav.
  destruct (isAvailable_true _ _ Hav) as (Hu & _ & ->).
  unfold getItem, removeItem. simpl. rewrite Hu.
  rewrite lookup_delete_ne by (apply not_eq_sym, cacheKey_not_testKey).
  rewrite Hin. destruct (expired now e); reflexivity.
Qed.

Lemma isAvailable_false ls ls' :
  isAvailable ls = (false, ls') -> ls' = ls.
Proof.
  unfold isAvailable, setItem, removeItem.
  destruct (usable ls) eqn:Hu; [|intros [= <-]; reflexivity].
  destruct (room ls _); [|intros [= <-]; reflexivity].
  simpl. rewrite Hu. intros [=].
Qed.

Lemma isAvailable_again ls ls' :
  isAvailable ls = (true, ls') -> isAvailable ls' = (true, ls').
Proof.
  intros Hav. destruct (isAvailable_true _ _ Hav) as (Hu & Hroom & ->).
  rewrite isAvailable_probe.
  - unfold with_items. simpl. do 2 f_equal. apply delete_delete_eq.
  - exact Hu.
  - simpl. rewrite insert_delete_eq. exact Hroom.
Qed.

(** The storage a lookup leaves behind: nothing is added, and only the probe
    key and the looked-up key can have lost their slot. *)
Lemma getCacheEntry_storage key now ls :
  let ls' := (getCacheEntry key now ls).2 in
  items ls' ⊆ items ls /\
  (forall k, k <> testKey -> k <> cacheKey key -> items ls' !! k = items ls !! k).
Proof.
  unfold getCacheEntry. destruct (isAvailable ls) as [ok ls1] eqn:Hav.
  destruct ok.
  - destruct (isAvailable_true _ _ Hav) as (Hu & _ & ->).
    unfold getItem, removeItem. simpl. rewrite Hu.
    assert (Hprobe : delete testKey (items ls) ⊆ items ls) by apply delete_subseteq.
    assert (Hother : forall k, k <> testKey -> delete testKey (items ls) !! k = items ls !! k)
      by (intros k Hk; apply lookup_delete_ne; congruence).
    destruct (delete testKey (items ls) !! cacheKey key) as [[e|s]|]; simpl; auto.
    destruct (expired now e); simpl; auto.
    split.
    + etrans; [apply delete_subseteq|exact Hprobe].
    + intros k Hk1 Hk2. rewrite lookup_delete_ne by congruence. auto.
  - apply isAvailable_false in Hav as ->. simpl. auto.
Qed.

(** After a lookup that found nothing, the next lookup finds nothing either,
    whenever it is made. *)
Lemma getCacheEntry_miss_again key now now' ls :
  (getCacheEntry key now ls).1 = None ->
  (getCacheEntry key now' (getCacheEntry key now ls).2).1 = None.
Proof.
  destruct (getCacheEntry key now ls) as [found ls'] eqn:Hg. simpl. intros ->.
  unfold getCacheEntry in Hg. destruct (isAvailable ls) as [ok ls1] eqn:Hav.
  destruct ok.
  - pose proof (isAvailable_again _ _ Hav) as Hav1.
    destruct (isAvailable_true _ _ Hav) as (Hu & _ & Hls1).
    assert (Hu1 : usable ls1 = true) by (subst ls1; exact Hu).
    unfold getItem, removeItem in Hg. rewrite Hu1 in Hg.
    destruct (items ls1 !! cacheKey key) as [[e|s]|] eqn:Hk.
    + destruct (expired now e); [|discriminate].
      injection Hg as <-. unfold getCacheEntry.
      destruct (isAvailable (with_items ls1 (delete (cacheKey key) (items ls1))))
        as [ok2 ls2] eqn:Hav2.
      destruct ok2; [|reflexivity].
      destruct (isAvailable_true _ _ Hav2) as (Hu2 & _ & ->).
      unfold getItem. simpl. rewrite Hu1.
      rewrite lookup_delete_ne by (apply not_eq_sym, cacheKey_not_testKey).
      rewrite lookup_delete_eq. reflexivity.
    + injection Hg as <-. unfold getCacheEntry. rewrite Hav1.
      unfold getItem. rewrite Hu1, Hk. reflexivity.
    + injection Hg as <-. unfold getCacheEntry. rewrite Hav1.
      unfold getItem. rewrite Hu1, Hk. reflexivity.
  - injection Hg as <-. apply isAvailable_false in Hav as Hls. subst ls1.
    unfold getCacheEntry. rewrite Hav. reflexivity.
Qed.

(** C9. An entry saved at time t0 with time to live T, on an available
    storage with room for it, is returned by a lookup at time t exactly when
    t - t0 < T; a lookup at or after t0 + T reports absence and removes the
    slot. In particular the entry is returned at t0 + T - 1, and is absent
    and purged at t0 + T + 1. *)
Theorem cache_entry_ttl (key : string) (d : D) (T t0 : Z) ls :
  usable ls = true ->
  room ls (<[testKey := Text "test"]> (items ls)) = true ->
  room ls (<[cacheKey key := EntryJSON (mkEntry d t0 T)]>
             (delete testKey (items ls))) = true ->
  let saved := saveCacheEntry key d T t0 ls in
  (isAvailable saved).1 = true ->
  (forall t,
     ((getCacheEntry key t saved).1 = Some d <-> t - t0 < T) /\
     (T <= t - t0 ->
      (getCacheEntry key t saved).1 = None /\
      items (getCacheEntry key t saved).2 !! cacheKey key = None)) /\
  (getCacheEntry key (t0 + T - 1) saved).1 = Some d /\
  (getCacheEntry key (t0 + T + 1) saved).1 = None /\
  items (getCacheEntry key (t0 + T + 1) saved).2 !! cacheKey key = None.
Proof.
  intros Hu Hprobe Hfit saved Hav.
  assert (Hin : items saved !! cacheKey key = Some (EntryJSON (mkEntry d t0 T))).
  { unfold saved. rewrite (saveCacheEntry_stores _ _ _ _ _ Hu Hprobe Hfit).
    simpl. apply lookup_insert_eq. }
  destruct (isAvailable saved) as [ok ls1] eqn:Hav1. simpl in Hav. subst ok.
  assert (Hlook : forall t,
    ((getCacheEntry key t saved).1 = Some d <-> t - t0 < T) /\
    (T <= t - t0 ->
     (getCacheEntry key t saved).1 = None /\
     items (getCacheEntry key t saved).2 !! cacheKey key = None)).
  { intros t. rewrite (getCacheEntry_entry _ _ t _ _ Hav1 Hin).
    unfold expired. simpl.
    destruct (Z.leb_spec T (t - t0)) as [Hexp|Hval]; simpl.
    - split; [split; [intros [=]|lia]|].
      intros _. split; [reflexivity|]. apply lookup_delete_eq.
    - split; [split; [lia|reflexivity]|lia]. }
  split; [exact Hlook|].
  split; [apply (Hlook (t0 + T - 1)); lia|].
  apply (Hlook (t0 + T + 1)); lia.
Qed.

End Cache.

Definition emptyStorage : LocalStorage nat :=
  {| usable := true; room := fun _ => true; items := ∅ |}.

Lemma cache_entry_ttl_witness :
  (getCacheEntry "leagues" (1000 + 50 - 1)
     (saveCacheEntry "leagues" 7%nat 50 1000 emptyStorage)).1 = Some 7%nat /\
  (getCacheEntry "leagues" (1000 + 50 + 1)
     (saveCacheEntry "leagues" 7%nat 50 1000 emptyStorage)).1 = None.
Proof.
  destruct (cache_entry_ttl "leagues" 7%nat 50 1000 emptyStorage
              eq_refl eq_refl eq_refl eq_refl) as (_ & Hin & Hout & _).
  split; [exact Hin|exact Hout].
Defined.

End StorageFacts.

(** ** Properties of the retry pipeline *)

Module RetryFacts.
Import JS Storage Async API.

(** The [catch] block of [fetchAPI], as a map on what was thrown. *)
Definition asAPIError (e : Exn) : Exn :=
  match e with
  | APIError _ _ _ => e
  | FetchTypeError =>
      APIError 0 "Network error. Please check your internet connection and try again."
        true
  | _ => APIError 0 "An unexpected error occurred. Please try again." true
  end.

Definition on_rejection {T A} (g : Exn -> Exn) (r : Result T A) : Result T A :=
  {| outcome := match outcome r with
                | Rejected e => Rejected (g e)
                | o => o
                end;
     final := final r; trace := trace r; unused := unused r |}.

Lemma run_try_catch {T A} (g : Exn -> Exn) (h : Exn -> Task T A) (m : Task T A) :
  (forall e, h e = Throw (g e)) ->
  forall net env seen,
    run (try_catch m h) net env seen = on_rejection g (run m net env seen).
Proof.
  intros Hh. induction m as [a|e|B f k IH|k IH|url k IH|ms k IH];
    intros net env seen; simpl.
  - reflexivity.
  - rewrite Hh. reflexivity.
  - destruct (f env) as [b env']. apply IH.
  - apply IH.
  - destruct net as [|x net']; [reflexivity|apply IH].
  - apply IH.
Qed.

Lemma run_read_bind {T A B} (f : Env -> B) (g : B -> Task T A)
    (net : list (Exchange T)) env seen :
  run (read f ≫= g) net env seen = run (g (f env)) net env seen.
Proof. reflexivity. Qed.

Lemma asAPIError_is_APIError e : is_APIError (asAPIError e) = true.
Proof. destruct e; reflexivity. Qed.

Lemma on_rejection_twice {T A} (r : Result T A) :
  on_rejection asAPIError (on_rejection asAPIError r) = on_rejection asAPIError r.
Proof.
  unfold on_rejection. simpl. f_equal.
  destruct (outcome r) as [a|e|]; try reflexivity. destruct e; reflexivity.
Qed.

Lemma catch_block {T A} (e : Exn) :
  match e with
  | APIError _ _ _ => Throw e
  | FetchTypeError =>
      Throw (APIError 0
        "Network error. Please check your internet connection and try again." true)
  | _ => Throw (APIError 0 "An unexpected error occurred. Please try again." true)
  end = (Throw (asAPIError e) : Task T A).
Proof. destruct e; reflexivity. Qed.

(** A reply in the 5xx class. *)
Definition server_error {T} (x : Exchange T) : Prop :=
  exists res, reply x = inl res /\ 500 <= status res <= 599.

(** The connectivity signal does not say "offline" after the exchange. *)
Definition stays_online {T} (x : Exchange T) : Prop :=
  navigatorAfter x <> Some false.

Lemma isOffline_later dt nav env :
  isOffline (later dt nav env) = match nav with Some b => negb b | None => false end.
Proof. reflexivity. Qed.

Lemma fetchAPI_offline {T} this endpoint n (net : list (Exchange T)) env seen :
  isOffline env = true ->
  run (fetchAPI this endpoint n) net env seen
  = {| outcome := Rejected (APIError 0
         "You appear to be offline. Please check your internet connection and try again."
         true);
       final := env; trace := seen; unused := net |}.
Proof.
  intros Hoff. rewrite fetchAPI_equation_1. cbv zeta.
  rewrite run_read_bind, Hoff. reflexivity.
Qed.

Lemma handleAPIError_5xx {T A} (statusCode : Z) (text : string) :
  500 <= statusCode <= 599 ->
  exists message,
    (handleAPIError statusCode text : Task T A)
    = Throw (APIError statusCode message true).
Proof.
  intros Hs. unfold handleAPIError.
  replace (statusCode =? 400) with false by (symmetry; apply Z.eqb_neq; lia).
  replace (statusCode =? 401) with false by (symmetry; apply Z.eqb_neq; lia).
  replace (statusCode =? 403) with false by (symmetry; apply Z.eqb_neq; lia).
  replace (statusCode =? 404) with false by (symmetry; apply Z.eqb_neq; lia).
  replace (statusCode =? 429) with false by (symmetry; apply Z.eqb_neq; lia).
  replace (500 <=? statusCode) with true by (symmetry; apply Z.leb_le; lia).
  destruct (_ || _); eexists; reflexivity.
Qed.

(** One failed attempt below the retry cap: the request, the backoff sleep,
    then the next attempt. *)
Lemma fetchAPI_5xx_retry {T} this endpoint n (x : Exchange T) net env seen :
  (n < MAX_RETRIES)%nat ->
  isOffline env = false ->
  server_error x ->
  run (fetchAPI this endpoint n) (x :: net) env seen
  = on_rejection asAPIError
      (run (fetchAPI this endpoint (n + 1)) net
         (later (backoff n) (navigatorAfter x)
            (later (elapsed x) (navigatorAfter x) env))
         ((seen ++ [Requested (baseURL this +:+ endpoint)]) ++ [Slept (backoff n)])).
Proof.
  intros Hn Hoff (res & Hres & Hlo & Hhi).
  rewrite fetchAPI_equation_1. cbv zeta. rewrite run_read_bind, Hoff.
  rewrite (run_try_catch asAPIError) by (intros e; apply catch_block).
  simpl. rewrite Hres.
  destruct (Z.eqb_spec (status res) 429) as [E|_]; [lia|].
  unfold ok. replace (status res <=? 299) with false by (symmetry; apply Z.leb_gt; lia).
  rewrite andb_false_r. simpl.
  replace (500 <=? status res) with true by (symmetry; apply Z.leb_le; lia).
  destruct (decide (n < MAX_RETRIES)%nat) as [_|Hge]; [|contradiction].
  reflexivity.
Qed.

(** The attempt at the retry cap: the request, then the error is thrown. *)
Lemma fetchAPI_5xx_exhausted {T} this endpoint n (x : Exchange T) net env seen :
  ~ (n < MAX_RETRIES)%nat ->
  isOffline env = false ->
  server_error x ->
  exists res message,
    reply x = inl res /\
    run (fetchAPI this endpoint n) (x :: net) env seen
    = {| outcome := Rejected (APIError (status res) message true);
         final := later (elapsed x) (navigatorAfter x) env;
         trace := seen ++ [Requested (baseURL this +:+ endpoint)];
         unused := net |}.
Proof.
  intros Hn Hoff (res & Hres & Hlo & Hhi). exists res.
  destruct (handleAPIError_5xx (T := T) (A := list T) (status res) (statusText res))
    as [message Herr]; [lia|].
  exists message. split; [exact Hres|].
  rewrite fetchAPI_equation_1. cbv zeta. rewrite run_read_bind, Hoff.
  rewrite (run_try_catch asAPIError) by (intros e; apply catch_block).
  simpl. rewrite Hres.
  destruct (Z.eqb_spec (status res) 429) as [E|_]; [lia|].
  unfold ok. replace (status res <=? 299) with false by (symmetry; apply Z.leb_gt; lia).
  rewrite andb_false_r. simpl.
  replace (500 <=? status res) with true by (symmetry; apply Z.leb_le; lia).
  destruct (decide (n < MAX_RETRIES)%nat) as [Hlt|_]; [contradiction|].
  rewrite Herr. reflexivity.
Qed.

(** Whatever the network does, [fetchAPI] rejects with an [APIError] only. *)
Lemma fetchAPI_rejects_with_APIError {T} this endpoint n
    (net : list (Exchange T)) env seen e :
  outcome (run (fetchAPI this endpoint n) net env seen) = Rejected e ->
  is_APIError e = true.
Proof.
  rewrite fetchAPI_equation_1. cbv zeta. rewrite run_read_bind.
  destruct (isOffline env).
  - simpl. intros [= <-]. reflexivity.
  - rewrite (run_try_catch asAPIError) by (intros e'; apply catch_block).
    unfold on_rejection. simpl.
    match goal with |- context [outcome ?r] => destruct (outcome r) end;
      intros [= <-]. apply asAPIError_is_APIError.
Qed.

Lemma stays_online_later {T} (x : Exchange T) dt env :
  stays_online x -> isOffline (later dt (navigatorAfter x) env) = false.
Proof.
  unfold stays_online. intros Hon. rewrite isOffline_later.
  destruct (navigatorAfter x) as [[|]|]; simpl; congruence.
Qed.

(** C4. When every attempt of one logical request is answered with a 5xx
    status (the browser staying online), [fetchAPI] makes exactly four
    requests, sleeping 1000, 2000 and 4000 ms between them, and then rejects
    with an [APIError] carrying the last status and [retryable = true]; and
    no run of [fetchAPI] ever rejects with anything but an [APIError]. *)
Theorem fetchAPI_retry_exhaustion {T} this endpoint env
    (x1 x2 x3 x4 : Exchange T) (rest : list (Exchange T)) :
  isOffline env = false ->
  Forall stays_online [x1; x2; x3] ->
  Forall server_error [x1; x2; x3; x4] ->
  let url := baseURL this +:+ endpoint in
  let r := run (fetchAPI this endpoint 0) (x1 :: x2 :: x3 :: x4 :: rest) env [] in
  trace r = [Requested url; Slept 1000; Requested url; Slept 2000;
             Requested url; Slept 4000; Requested url] /\
  (exists res message,
     reply x4 = inl res /\
     outcome r = Rejected (APIError (status res) message true)) /\
  (forall n (net : list (Exchange T)) env' seen e,
     outcome (run (fetchAPI this endpoint n) net env' seen) = Rejected e ->
     is_APIError e = true).
Proof.
  intros Hoff Hon Herr url r.
  apply Forall_cons in Hon as [Hon1 Hon]. apply Forall_cons in Hon as [Hon2 Hon].
  apply Forall_cons in Hon as [Hon3 _].
  apply Forall_cons in Herr as [He1 Herr]. apply Forall_cons in Herr as [He2 Herr].
  apply Forall_cons in Herr as [He3 Herr]. apply Forall_cons in Herr as [He4 _].
  assert (Hr : exists res message,
    reply x4 = inl res /\
    r = on_rejection asAPIError
          {| outcome := Rejected (APIError (status res) message true);
             final := final r;
             trace := [Requested url; Slept 1000; Requested url; Slept 2000;
                       Requested url; Slept 4000; Requested url];
             unused := rest |}).
  { subst r.
    rewrite (fetchAPI_5xx_retry this endpoint 0) by (auto; unfold MAX_RETRIES; lia).
    rewrite (fetchAPI_5xx_retry this endpoint 1)
      by (auto using stays_online_later; unfold MAX_RETRIES; lia).
    rewrite (fetchAPI_5xx_retry this endpoint 2)
      by (auto using stays_online_later; unfold MAX_RETRIES; lia).
    rewrite !on_rejection_twice.
    edestruct (fetchAPI_5xx_exhausted this endpoint 3 x4 rest) as (res & message & Hres & Hrun);
      [| |exact He4|].
    3: { exists res, message. split; [exact Hres|].
         simpl Nat.add. rewrite Hrun. reflexivity. }
    - unfold MAX_RETRIES. lia.
    - apply stays_online_later, Hon3. }
  destruct Hr as (res & message & Hres & Hr).
  split; [rewrite Hr; reflexivity|].
  split; [exists res, message; split; [exact Hres|rewrite Hr; reflexivity]|].
  intros n net env' seen e. apply fetchAPI_rejects_with_APIError.
Qed.

Definition online_env : Env :=
  {| now := 0; navigator := Some true;
     localStorage := {| usable := true; room := fun _ => true; items := ∅ |};
     pendingRequests := ∅ |}.

Definition replies {T} (statusCode : Z) (body : option (APIResponse T))
  : Exchange T :=
  {| reply := inl {| status := statusCode; statusText := ""; retryAfter := None;
                     json := body |};
     elapsed := 20; navigatorAfter := Some true |}.

Definition service : FootballAPIService :=
  {| baseURL := "https://v3.football.api-sports.io"; apiKey := "key" |}.

Lemma replies_server_error {T} body : server_error (replies (T := T) 500 body).
Proof. eexists. split; [reflexivity|]. simpl. lia. Qed.

Lemma replies_stays_online {T} s body : stays_online (replies (T := T) s body).
Proof. unfold stays_online. simpl. discriminate. Qed.

Lemma fetchAPI_retry_exhaustion_witness :
  let x := replies (T := LeagueResponse) 500 None in
  trace (run (fetchAPI service "/leagues" 0) [x; x; x; x] online_env [])
  = [Requested "https://v3.football.api-sports.io/leagues"; Slept 1000;
     Requested "https://v3.football.api-sports.io/leagues"; Slept 2000;
     Requested "https://v3.football.api-sports.io/leagues"; Slept 4000;
     Requested "https://v3.football.api-sports.io/leagues"].
Proof.
  intros x.
  apply (fetchAPI_retry_exhaustion service "/leagues" online_env x x x x []).
  - reflexivity.
  - repeat constructor; apply replies_stays_online.
  - repeat constructor; apply replies_server_error.
Defined.

End RetryFacts.

(** ** Properties of the lineup operation *)

Module LineupFacts.
Import JS Storage Async API RetryFacts.

Section Runs.
Context {T : Type}.
Implicit Types (net : list (Exchange T)) (env : Env) (seen : list Event).

(** Sequencing: the second computation starts where the first one ended. *)
Definition and_then {A B} (r : Result T A)
    (next : A -> list (Exchange T) -> Env -> list Event -> Result T B)
  : Result T B :=
  match outcome r with
  | Fulfilled a => next a (unused r) (final r) (trace r)
  | Rejected e => {| outcome := Rejected e; final := final r;
                     trace := trace r; unused := unused r |}
  | Waiting => {| outcome := Waiting; final := final r;
                  trace := trace r; unused := unused r |}
  end.

Lemma run_bind {A B} (m : Task T A) (g : A -> Task T B) net env seen :
  run (m ≫= g) net env seen
  = and_then (run m net env seen) (fun a => run (g a)).
Proof.
  revert net env seen.
  induction m as [a|e|C f k IH|k IH|url k IH|ms k IH]; intros net env seen;
    try reflexivity.
  - simpl. destruct (f env) as [c env']. apply IH.
  - apply IH.
  - simpl. destruct net as [|x net']; [reflexivity|apply IH].
  - apply IH.
Qed.

Lemma run_await {A} (m : Task T A) net env seen :
  run (await m) net env seen = run m net env seen.
Proof.
  revert net env seen.
  induction m as [a|e|C f k IH|k IH|url k IH|ms k IH]; intros net env seen;
    try reflexivity.
  - simpl. destruct (f env) as [c env']. apply IH.
  - apply IH.
  - simpl. destruct net as [|x net']; [reflexivity|apply IH].
  - apply IH.
Qed.

(** A run only ever adds events to those already seen. *)
Lemma run_trace_extends {A} (m : Task T A) net env seen :
  exists more, trace (run m net env seen) = seen ++ more.
Proof.
  revert net env seen.
  induction m as [a|e|C f k IH|k IH|url k IH|ms k IH]; intros net env seen; simpl.
  - exists []. symmetry. apply app_nil_r.
  - exists []. symmetry. apply app_nil_r.
  - destruct (f env) as [c env']. apply IH.
  - apply IH.
  - destruct net as [|x net'].
    + eexists. reflexivity.
    + destruct (IH (reply x) net' (later (elapsed x) (navigatorAfter x) env)
                  (seen ++ [Requested url])) as [more ->].
      exists (Requested url :: more). rewrite <- app_assoc. reflexivity.
  - destruct (IH tt net (later ms (navigator env) env) (seen ++ [Slept ms]))
      as [more ->].
    exists (Slept ms :: more). rewrite <- app_assoc. reflexivity.
Qed.

Lemma run_getCacheEntry_bind {A} key (g : option Payload -> Task T A) net env seen :
  run (storageService_getCacheEntry key ≫= g) net env seen
  = run (g (getCacheEntry key (now env) (localStorage env)).1) net
      (with_storage (getCacheEntry key (now env) (localStorage env)).2 env) seen.
Proof.
  unfold storageService_getCacheEntry. simpl.
  destruct (getCacheEntry key (now env) (localStorage env)). reflexivity.
Qed.

Lemma run_saveCacheEntry_bind {A} key d ttl (g : unit -> Task T A) net env seen :
  run (storageService_saveCacheEntry key d ttl ≫= g) net env seen
  = run (g tt) net
      (with_storage (saveCacheEntry key d ttl (now env) (localStorage env)) env) seen.
Proof. reflexivity. Qed.

End Runs.

(** The payload entry of the requested team and the lineup built from it. *)
Definition selectTeam (teamId : N) (payload : list LineupResponse)
  : option LineupResponse :=
  List.find (fun item => (lu_team_id item =? teamId)%N) payload.

Definition lineupURL (fixtureId : N) : string :=
  "/fixtures/lineups?fixture=" +:+ toString fixtureId.

(** The internal lineup [getLineup] builds from the selected entry. *)
Definition builtLineup (fixtureId : N) (teamLineup : LineupResponse) : Lineup :=
  {| lineup_fixtureId := fixtureId;
     lineup_teamId := lu_team_id teamLineup;
     lineup_teamName := lu_team_name teamLineup;
     lineup_formation := lu_formation teamLineup;
     lineup_startXI :=
       map (fun player =>
              {| player_id := pi_id player;
                 player_name := pi_name player;
                 player_number := pi_number player;
                 player_position := pi_pos player;
                 player_gridPosition :=
                   Grid.convertGridToPosition (pi_grid player)
                     (lu_formation teamLineup) |})
         (lu_startXI teamLineup) |}.

Definition notFound (fixtureId teamId : N) : Exn :=
  PlainError ("Lineup not found for team " +:+ toString teamId
              +:+ " in fixture " +:+ toString fixtureId).

Definition invalidLineup (players : nat) : Exn :=
  PlainError ("Invalid lineup: expected 11 players, got "
              +:+ toString (N.of_nat players)).

(** What [getLineup] does with the payload once the fetch has delivered it. *)
Definition afterFetch (fixtureId teamId : N) (payload : list LineupResponse)
    (net : list (Exchange LineupResponse)) (env : Env) (seen : list Event)
  : Result LineupResponse Payload :=
  match selectTeam teamId payload with
  | None => {| outcome := Rejected (notFound fixtureId teamId);
               final := env; trace := seen; unused := net |}
  | Some teamLineup =>
      if (length (lu_startXI teamLineup) =? 11)%nat then
        {| outcome := Fulfilled (TheLineup (builtLineup fixtureId teamLineup));
           final := with_storage
                      (saveCacheEntry (lineupKey fixtureId teamId)
                         (TheLineup (builtLineup fixtureId teamLineup))
                         CACHE_TTL_INDEFINITE (now env) (localStorage env)) env;
           trace := seen; unused := net |}
      else
        {| outcome := Rejected (invalidLineup (length (lu_startXI teamLineup)));
           final := env; trace := seen; unused := net |}
  end.

(** The run of [getLineup], on a cache hit and on a cache miss. *)
Lemma run_getLineup this fixtureId teamId net env :
  let lookup := getCacheEntry (lineupKey fixtureId teamId) (now env)
                  (localStorage env) in
  run (getLineup this fixtureId teamId) net env []
  = match lookup.1 with
    | Some hit => {| outcome := Fulfilled hit; final := with_storage lookup.2 env;
                     trace := []; unused := net |}
    | None =>
        and_then (run (fetchAPI this (lineupURL fixtureId) 0) net
                    (with_storage lookup.2 env) [])
          (afterFetch fixtureId teamId)
    end.
Proof.
  intros lookup. unfold getLineup. cbv zeta. rewrite run_getCacheEntry_bind.
  fold lookup. destruct lookup.1 as [hit|]; [reflexivity|].
  rewrite run_bind, run_await. fold (lineupURL fixtureId).
  unfold and_then.
  destruct (outcome (run (fetchAPI this (lineupURL fixtureId) 0) net
                       (with_storage lookup.2 env) [])) as [payload| |];
    try reflexivity.
  unfold afterFetch, selectTeam.
  destruct (List.find _ payload) as [teamLineup|]; [|reflexivity].
  simpl. rewrite length_map.
  destruct (length (lu_startXI teamLineup) =? 11)%nat; reflexivity.
Qed.

(** C5. When the cache has no lineup and the fetch delivers a payload:
    [getLineup] rejects with a plain [Error] (not an [APIError]) if no entry
    of the payload has the requested team id, and also if the selected
    entry's starting lineup does not have exactly eleven players (ten and
    twelve included); no list, truncated or not, is returned. *)
Theorem getLineup_validation this (fixtureId teamId : N)
    (net : list (Exchange LineupResponse)) env payload :
  let lookup := getCacheEntry (lineupKey fixtureId teamId) (now env)
                  (localStorage env) in
  lookup.1 = None ->
  outcome (run (fetchAPI this (lineupURL fixtureId) 0) net
             (with_storage lookup.2 env) []) = Fulfilled payload ->
  let r := run (getLineup this fixtureId teamId) net env [] in
  (selectTeam teamId payload = None ->
   outcome r = Rejected (PlainError ("Lineup not found for team " +:+ toString teamId
                                     +:+ " in fixture " +:+ toString fixtureId))) /\
  (forall teamLineup,
     selectTeam teamId payload = Some teamLineup ->
     length (lu_startXI teamLineup) <> 11%nat ->
     outcome r = Rejected (PlainError ("Invalid lineup: expected 11 players, got "
                    +:+ toString (N.of_nat (length (lu_startXI teamLineup)))))) /\
  (forall e, outcome r = Rejected e -> is_APIError e = false).
Proof.
  intros lookup Hmiss Hfetch r. subst r. rewrite run_getLineup. fold lookup.
  rewrite Hmiss. unfold and_then. rewrite Hfetch. unfold afterFetch.
  split; [|split].
  - intros ->. reflexivity.
  - intros teamLineup -> Hlen.
    apply Nat.eqb_neq in Hlen. rewrite Hlen. reflexivity.
  - intros e. destruct (selectTeam teamId payload) as [teamLineup|].
    + destruct (length (lu_startXI teamLineup) =? 11)%nat; simpl; intros [= <-].
      reflexivity.
    + simpl. intros [= <-]. reflexivity.
Qed.

(** Concrete payloads: team 33 with eleven starters against team 50 with
    ten, and against team 60 with twelve. *)
Definition starter (n : nat) : PlayerInfo :=
  {| pi_id := N.of_nat n; pi_name := "Player"; pi_number := N.of_nat n;
     pi_pos := "M"; pi_grid := "2:1" |}.

Definition entry (team : N) (starters : nat) : LineupResponse :=
  {| lu_team_id := team; lu_team_name := "Team"; lu_formation := "4-4-2";
     lu_startXI := map starter (seq 1 starters) |}.

Definition twoTeams : list LineupResponse := [entry 33 11; entry 50 10].

Definition twoTeams' : list LineupResponse := [entry 33 11; entry 60 12].

Definition delivers (payload : list LineupResponse) : Exchange LineupResponse :=
  replies 200 (Some {| errors := []; response := payload |}).

Lemma getLineup_validation_witness :
  outcome (run (getLineup service 215662 99) [delivers twoTeams] online_env [])
  = Rejected (PlainError "Lineup not found for team 99 in fixture 215662") /\
  outcome (run (getLineup service 215662 50) [delivers twoTeams] online_env [])
  = Rejected (PlainError "Invalid lineup: expected 11 players, got 10") /\
  outcome (run (getLineup service 215663 60) [delivers twoTeams'] online_env [])
  = Rejected (PlainError "Invalid lineup: expected 11 players, got 12").
Proof.
  split; [|split].
  - apply (getLineup_validation service 215662 99 [delivers twoTeams] online_env
             twoTeams eq_refl eq_refl).
    reflexivity.
  - apply (proj1 (proj2 (getLineup_validation service 215662 50 [delivers twoTeams]
                           online_env twoTeams eq_refl eq_refl)) (entry 50 10)).
    + reflexivity.
    + simpl. lia.
  - apply (proj1 (proj2 (getLineup_validation service 215663 60 [delivers twoTeams']
                           online_env twoTeams' eq_refl eq_refl)) (entry 60 12)).
    + reflexivity.
    + simpl. lia.
Defined.

(** *** No write on failure *)

Lemma handleAPIError_throws {T A} statusCode text :
  exists e, (handleAPIError statusCode text : Task T A) = Throw e.
Proof.
  unfold handleAPIError.
  match goal with |- context [let '(_, _) := ?c in _] => destruct c end.
  eexists. reflexivity.
Qed.

(** [fetchAPI] reads the clock and the connectivity signal only: the
    storage and the pending-request map are as it found them. *)
Lemma fetchAPI_keeps_state {T} this endpoint (budget n : nat) :
  (MAX_RETRIES - n <= budget)%nat ->
  forall (net : list (Exchange T)) env seen,
    localStorage (final (run (fetchAPI this endpoint n) net env seen))
    = localStorage env /\
    pendingRequests (final (run (fetchAPI this endpoint n) net env seen))
    = pendingRequests env.
Proof.
  revert n. induction budget as [|budget IH]; intros n Hn net env seen.
  all: rewrite fetchAPI_equation_1; cbv zeta; rewrite run_read_bind.
  all: destruct (isOffline env); [split; reflexivity|].
  all: rewrite (run_try_catch asAPIError) by (intros e; apply catch_block).
  all: unfold on_rejection; cbn [final].
  all: destruct net as [|x net']; [split; reflexivity|]; cbn [run].
  all: destruct (reply x) as [res|thrown]; [|split; reflexivity].
  all: destruct (handleAPIError_throws (T := T) (A := list T)
                   (status res) (statusText res)) as [e He].
  all: destruct (status res =? 429).
  all: try destruct (negb (ok res)); try destruct (500 <=? status res).
  all: try destruct (decide (n < MAX_RETRIES)%nat) as [Hlt|Hge].
  all: rewrite ?He; cbn [run].
  all: try (split; reflexivity).
  all: try (exfalso; lia).
  all: try (match goal with
            | |- context [run (fetchAPI _ _ ?k) ?nn ?ee ?ss] =>
                let Hk := fresh "Hk" in
                assert (Hk : (MAX_RETRIES - k <= budget)%nat) by lia;
                destruct (IH k Hk nn ee ss) as [-> ->]
            end; split; reflexivity).
  all: destruct (json res) as [data|]; [|split; reflexivity].
  all: destruct (0 <? length (errors data))%nat; split; reflexivity.
Qed.

Lemma fetchAPI_keeps_storage {T} this endpoint n (net : list (Exchange T)) env seen :
  localStorage (final (run (fetchAPI this endpoint n) net env seen))
  = localStorage env.
Proof. apply (fetchAPI_keeps_state this endpoint (MAX_RETRIES - n) n). lia. Qed.

(** When online, the first thing [fetchAPI] does is to issue the request. *)
Lemma fetchAPI_requests_first {T} this endpoint n (net : list (Exchange T)) env :
  isOffline env = false ->
  exists more,
    trace (run (fetchAPI this endpoint n) net env [])
    = Requested (baseURL this +:+ endpoint) :: more.
Proof.
  intros Hon. rewrite fetchAPI_equation_1. cbv zeta. rewrite run_read_bind, Hon.
  rewrite (run_try_catch asAPIError) by (intros e; apply catch_block).
  unfold on_rejection. cbn [trace].
  destruct net as [|x net']; simpl; [eexists; reflexivity|].
  match goal with |- context [run ?m ?n ?e ?s] =>
    destruct (run_trace_extends m n e s) as [more ->] end.
  exists more. reflexivity.
Qed.

Lemma and_then_afterFetch_trace fixtureId teamId
    (fetched : Result LineupResponse (list LineupResponse)) :
  trace (and_then fetched (afterFetch fixtureId teamId)) = trace fetched.
Proof.
  unfold and_then, afterFetch.
  destruct (outcome fetched) as [payload|e|]; try reflexivity.
  destruct (selectTeam teamId payload) as [teamLineup|]; [|reflexivity].
  destruct (length (lu_startXI teamLineup) =? 11)%nat; reflexivity.
Qed.

Lemma and_then_afterFetch_rejected fixtureId teamId
    (fetched : Result LineupResponse (list LineupResponse)) e :
  outcome (and_then fetched (afterFetch fixtureId teamId)) = Rejected e ->
  final (and_then fetched (afterFetch fixtureId teamId)) = final fetched.
Proof.
  unfold and_then, afterFetch.
  destruct (outcome fetched) as [payload|e'|]; try reflexivity.
  destruct (selectTeam teamId payload) as [teamLineup|]; [|reflexivity].
  destruct (length (lu_startXI teamLineup) =? 11)%nat; [discriminate|reflexivity].
Qed.

(** C10. Whenever [getLineup] rejects (team missing from the payload, not
    exactly eleven starters, or a failed fetch), [saveCacheEntry] has not
    run: the storage is the one the initial cache lookup left, it holds
    nothing that was not there before, every slot other than the storage
    probe and the lineup key is untouched, a later lookup of
    "lineup-{fixtureId}-{teamId}" still finds nothing, and the next
    [getLineup] for the same fixture and team goes to the network again. *)
Theorem getLineup_failure_writes_nothing this (fixtureId teamId : N)
    (net : list (Exchange LineupResponse)) env e :
  let key := lineupKey fixtureId teamId in
  let r := run (getLineup this fixtureId teamId) net env [] in
  outcome r = Rejected e ->
  localStorage (final r) = (getCacheEntry key (now env) (localStorage env)).2 /\
  items (localStorage (final r)) ⊆ items (localStorage env) /\
  (forall k, k <> testKey -> k <> cacheKey key ->
             items (localStorage (final r)) !! k = items (localStorage env) !! k) /\
  (forall now', (getCacheEntry key now' (localStorage (final r))).1 = None) /\
  (forall net2 env2,
     localStorage env2 = localStorage (final r) ->
     isOffline env2 = false ->
     exists more,
       trace (run (getLineup this fixtureId teamId) net2 env2 [])
       = Requested (baseURL this +:+ lineupURL fixtureId) :: more).
Proof.
  intros key r Hrej.
  pose proof (run_getLineup this fixtureId teamId net env) as Hrun.
  cbv zeta in Hrun. fold key in Hrun. fold r in Hrun.
  destruct (getCacheEntry key (now env) (localStorage env)).1 as [hit|] eqn:Hmiss.
  { rewrite Hrun in Hrej. discriminate. }
  assert (Hls : localStorage (final r)
                = (getCacheEntry key (now env) (localStorage env)).2).
  { rewrite Hrun in Hrej |- *.
    rewrite (and_then_afterFetch_rejected _ _ _ _ Hrej).
    apply fetchAPI_keeps_storage. }
  assert (Hagain : forall now',
            (getCacheEntry key now' (localStorage (final r))).1 = None).
  { intros now'. rewrite Hls. apply StorageFacts.getCacheEntry_miss_again, Hmiss. }
  destruct (StorageFacts.getCacheEntry_storage key (now env) (localStorage env))
    as [Hsub Hother].
  split; [exact Hls|]. rewrite Hls.
  split; [exact Hsub|]. split; [exact Hother|]. rewrite <- Hls.
  split; [exact Hagain|].
  intros net2 env2 Hsame Hon.
  rewrite run_getLineup. fold key. rewrite Hsame, (Hagain (now env2)).
  rewrite and_then_afterFetch_trace.
  apply fetchAPI_requests_first. exact Hon.
Qed.

Lemma getLineup_failure_writes_nothing_witness :
  let r := run (getLineup service 215662 50) [delivers twoTeams] online_env [] in
  items (localStorage (final r)) ⊆ items (localStorage online_env) /\
  (getCacheEntry (lineupKey 215662 50) 1000 (localStorage (final r))).1 = None.
Proof.
  intros r.
  destruct (getLineup_failure_writes_nothing service 215662 50 [delivers twoTeams]
              online_env (invalidLineup 10) eq_refl)
    as (_ & Hsub & _ & Hmiss & _).
  split; [exact Hsub|exact (Hmiss 1000)].
Defined.

End LineupFacts.

(** ** Properties of concurrent calls *)

Module SchedulerFacts.
Import JS Storage Async API Scheduler RetryFacts.

(** Two calls made back to back: the promises the callers hold, the URLs
    requested, and the pending-request map afterwards. *)
Definition twice {T} (op : Task T Payload)
  : (Promise * Promise) * list string * gmap string Promise :=
  let '(p1, rt1) := call op idle in
  let '(p2, rt2) := call op rt1 in
  ((p1, p2), map snd (network rt2), pendingRequests (env rt2)).

(** C2, evaluated on the code. Two calls of [getFixtures(33, 2023)] made
    while the first is in flight (empty cache, browser online) send two
    requests for the same URL, give the callers two different promises, and
    register nothing as pending; [getLeagueSeasons], [getTeamsByLeagueSeason]
    and [getLineup] behave the same way. *)
Theorem getFixtures_duplicate_requests (getTime : string -> JS.number) :
  twice (getFixtures getTime service 33 2023)
  = ((0%nat, 1%nat),
     ["https://v3.football.api-sports.io/fixtures?team=33&season=2023";
      "https://v3.football.api-sports.io/fixtures?team=33&season=2023"], ∅) /\
  twice (getLeagueSeasons service 39)
  = ((0%nat, 1%nat),
     ["https://v3.football.api-sports.io/leagues?id=39";
      "https://v3.football.api-sports.io/leagues?id=39"], ∅) /\
  twice (getTeamsByLeagueSeason service 39 2023)
  = ((0%nat, 1%nat),
     ["https://v3.football.api-sports.io/teams?league=39&season=2023";
      "https://v3.football.api-sports.io/teams?league=39&season=2023"], ∅) /\
  twice (getLineup service 215662 33)
  = ((0%nat, 1%nat),
     ["https://v3.football.api-sports.io/fixtures/lineups?fixture=215662";
      "https://v3.football.api-sports.io/fixtures/lineups?fixture=215662"], ∅).
Proof. repeat split; vm_compute; reflexivity. Qed.

(** For contrast, the one operation that registers its request: the second
    [getLeagues] follows the promise of the first and sends nothing. *)
Lemma getLeagues_shares_pending :
  let '(r1, rt1) := getLeagues service idle in
  let '(r2, rt2) := getLeagues service rt1 in
  r1 = inr 0%nat /\ r2 = inr 0%nat /\
  map snd (network rt2) = ["https://v3.football.api-sports.io/leagues"] /\
  pendingRequests (env rt2) !! "leagues" = Some 0%nat.
Proof. vm_compute. repeat split; reflexivity. Qed.

(** *** The pending-request marker of [getLeagues] *)

(** Computations that never write the pending-request map. *)
Inductive quiet {T A} : Task T A -> Prop :=
| quiet_Return a : quiet (Return a)
| quiet_Throw e : quiet (Throw e)
| quiet_Sync B (f : Env -> B * Env) k :
    (forall e, pendingRequests (f e).2 = pendingRequests e) ->
    (forall b, quiet (k b)) -> quiet (Sync f k)
| quiet_Tick k : (forall u, quiet (k u)) -> quiet (Tick k)
| quiet_Fetch url k : (forall r, quiet (k r)) -> quiet (Fetch url k)
| quiet_Sleep ms k : (forall u, quiet (k u)) -> quiet (Sleep ms k).

Lemma quiet_bind {T A B} (m : Task T A) (g : A -> Task T B) :
  quiet m -> (forall a, quiet (g a)) -> quiet (m ≫= g).
Proof.
  intros Hm Hg.
  induction Hm as [a|e|C f k Hf _ IH|k _ IH|url k _ IH|ms k _ IH].
  - apply Hg.
  - constructor.
  - apply quiet_Sync; [exact Hf|exact IH].
  - apply quiet_Tick, IH.
  - apply quiet_Fetch, IH.
  - apply quiet_Sleep, IH.
Qed.

Lemma quiet_await {T A} (m : Task T A) : quiet m -> quiet (await m).
Proof.
  induction 1 as [a|e|C f k Hf _ IH|k _ IH|url k _ IH|ms k _ IH]; simpl.
  - constructor. intros _. constructor.
  - constructor. intros _. constructor.
  - apply quiet_Sync; [exact Hf|exact IH].
  - apply quiet_Tick, IH.
  - apply quiet_Fetch, IH.
  - apply quiet_Sleep, IH.
Qed.

Lemma quiet_try_catch {T A} (m : Task T A) h :
  quiet m -> (forall e, quiet (h e)) -> quiet (try_catch m h).
Proof.
  intros Hm Hh.
  induction Hm as [a|e|C f k Hf _ IH|k _ IH|url k _ IH|ms k _ IH]; simpl.
  - constructor.
  - apply Hh.
  - apply quiet_Sync; [exact Hf|exact IH].
  - apply quiet_Tick, IH.
  - apply quiet_Fetch, IH.
  - apply quiet_Sleep, IH.
Qed.

Lemma quiet_handleAPIError {T A} statusCode text :
  quiet (handleAPIError statusCode text : Task T A).
Proof.
  destruct (LineupFacts.handleAPIError_throws (T := T) (A := A) statusCode text)
    as [e ->]. constructor.
Qed.

Lemma quiet_fetchAPI {T} this endpoint (budget n : nat) :
  (MAX_RETRIES - n <= budget)%nat -> quiet (fetchAPI (T := T) this endpoint n).
Proof.
  revert n. induction budget as [|budget IH]; intros n Hn.
  all: rewrite fetchAPI_equation_1; cbv zeta.
  all: apply quiet_bind; [apply quiet_Sync; [reflexivity|intros b; constructor]|].
  all: intros offline; destruct offline; [constructor|].
  all: apply quiet_try_catch; [|intros e; destruct e; constructor].
  all: constructor; intros [res|thrown]; [|constructor].
  all: destruct (status res =? 429).
  all: try destruct (negb (ok res)); try destruct (500 <=? status res).
  all: try destruct (decide (n < MAX_RETRIES)%nat) as [Hlt|Hge].
  all: try apply quiet_handleAPIError.
  all: try (exfalso; lia).
  all: try (constructor; intros _; apply IH; lia).
  all: constructor; intros _; destruct (json res) as [data|]; [|constructor].
  all: destruct (0 <? length (errors data))%nat; constructor.
Qed.

Lemma quiet_saveCacheEntry {T} key d ttl :
  quiet (storageService_saveCacheEntry (T := T) key d ttl).
Proof. apply quiet_Sync; [reflexivity|intros b; constructor]. Qed.

(** The [finally] block of [getLeagues]. *)
Definition cleanup : Task LeagueResponse unit :=
  update (fun e => with_pending (delete "leagues" (pendingRequests e)) e).

Lemma getLeagues_request_shape this :
  exists body, getLeagues_request this = try_finally body cleanup /\ quiet body.
Proof.
  eexists. split; [reflexivity|].
  apply quiet_bind.
  - apply quiet_await, (quiet_fetchAPI this "/leagues" MAX_RETRIES 0). lia.
  - intros response. apply quiet_bind; [apply quiet_saveCacheEntry|].
    intros _. constructor.
Qed.

(** A suspended task that resumes into a body under the [finally] block. *)
Definition guarded (s : Suspended LeagueResponse) : Prop :=
  match s with
  | AwaitingReply _ k =>
      forall r, exists body, k r = try_finally body cleanup /\ quiet body
  | AwaitingTimer _ k =>
      forall u, exists body, k u = try_finally body cleanup /\ quiet body
  | AwaitingMicrotask k =>
      forall u, exists body, k u = try_finally body cleanup /\ quiet body
  end.

(** Running such a body: while it is suspended the marker is untouched;
    when it ends, fulfilled or rejected, the marker is gone. *)
Lemma advance_guarded body e :
  quiet body ->
  match (advance (try_finally body cleanup) e).2 with
  | inl s =>
      guarded s /\
      pendingRequests (advance (try_finally body cleanup) e).1 = pendingRequests e
  | inr _ =>
      pendingRequests (advance (try_finally body cleanup) e).1
      = delete "leagues" (pendingRequests e)
  end.
Proof.
  intros Hq. revert e.
  induction Hq as [a|x|B f k Hf _ IH|k Hk _|url k Hk _|ms k Hk _]; intros e.
  - reflexivity.
  - reflexivity.
  - simpl. specialize (Hf e). destruct (f e) as [b e'] eqn:Hfe. simpl in Hf.
    specialize (IH b e'). rewrite Hf in IH. exact IH.
  - simpl. split; [|reflexivity]. intros u. eexists. split; [reflexivity|apply Hk].
  - simpl. split; [|reflexivity]. intros r. eexists. split; [reflexivity|apply Hk].
  - simpl. split; [|reflexivity]. intros u. eexists. split; [reflexivity|apply Hk].
Qed.

(** A freshly called [getLeagues] request is suspended: even a fetch that
    fails at once is awaited. *)
Lemma getLeagues_request_suspends this e :
  exists s, (advance (getLeagues_request this) e).2 = inl s.
Proof.
  unfold getLeagues_request. rewrite fetchAPI_equation_1. cbv zeta. simpl.
  destruct (isOffline e); simpl; eexists; reflexivity.
Qed.

(** The invariant of the event loop when the interface calls [getLeagues]:
    a promise is in flight exactly when it is the one registered under
    "leagues", and it will run the [finally] block when it ends. *)
Definition marker (rt : Runtime LeagueResponse) : option Promise :=
  pendingRequests (env rt) !! "leagues".

Definition single_flight (rt : Runtime LeagueResponse) : Prop :=
  (forall p s, suspended rt !! p = Some s -> marker rt = Some p /\ guarded s) /\
  (forall p, marker rt = Some p -> is_Some (suspended rt !! p)).

Lemma single_flight_idle : single_flight idle.
Proof.
  split.
  - intros p s H. simpl in H. rewrite lookup_empty in H. discriminate.
  - intros p H. unfold marker in H. simpl in H. rewrite lookup_empty in H.
    discriminate.
Qed.

(** At most one request is in flight. *)
Lemma single_flight_unique rt p q :
  single_flight rt ->
  is_Some (suspended rt !! p) -> is_Some (suspended rt !! q) -> p = q.
Proof.
  intros [Hs _] [s Hp] [s' Hq].
  destruct (Hs _ _ Hp) as [Hmp _]. destruct (Hs _ _ Hq) as [Hmq _]. congruence.
Qed.

Lemma single_flight_env rt (f : Env -> Env) :
  (forall e, pendingRequests (f e) = pendingRequests e) ->
  single_flight rt -> single_flight (set_env f rt).
Proof.
  intros Hf [Hs Hm]. unfold single_flight, marker in *. simpl. rewrite Hf.
  split; assumption.
Qed.

(** Resuming the request in flight: the invariant is kept, and if the
    request has ended the marker is removed. *)
Lemma resume_single_flight rt p m :
  single_flight rt ->
  is_Some (suspended rt !! p) ->
  (exists body, m = try_finally body cleanup /\ quiet body) ->
  single_flight (resume p m rt) /\
  (suspended (resume p m rt) !! p = None -> marker (resume p m rt) = None).
Proof.
  intros [Hs Hm] [s Hp] (body & -> & Hq).
  destruct (Hs _ _ Hp) as [Hmark _].
  pose proof (advance_guarded body (env rt) Hq) as Hadv.
  unfold resume, record, single_flight, marker in *.
  destruct (advance (try_finally body cleanup) (env rt)) as [e' [s'|result]];
    simpl in *.
  - destruct Hadv as [Hg He]. rewrite He. split; [split|].
    + intros q s0. destruct (decide (p = q)) as [<-|Hne].
      * rewrite lookup_insert_eq. intros [= <-]. auto.
      * rewrite lookup_insert_ne by exact Hne. intros Hq0.
        destruct (Hs _ _ Hq0) as [Hmq _]. congruence.
    + intros q Hmq. assert (q = p) as -> by congruence.
      rewrite lookup_insert_eq. eauto.
    + rewrite lookup_insert_eq. discriminate.
  - rewrite Hadv, lookup_delete_eq. split; [split|reflexivity].
    + intros q s0. destruct (decide (p = q)) as [<-|Hne].
      * rewrite lookup_delete_eq. discriminate.
      * rewrite lookup_delete_ne by exact Hne. intros Hq0.
        destruct (Hs _ _ Hq0) as [Hmq _]. congruence.
    + discriminate.
Qed.

Lemma single_flight_step (i : Input LeagueResponse) rt :
  single_flight rt -> single_flight (step i rt).
Proof.
  intros Hinv. destruct i as [p r|p|p|nav|dt]; simpl.
  - destruct (suspended rt !! p) as [[url k|ms k|k]|] eqn:Hp; try exact Hinv.
    apply resume_single_flight; [exact Hinv|eauto|].
    destruct Hinv as [Hs _]. destruct (Hs _ _ Hp) as [_ Hg]. apply Hg.
  - destruct (suspended rt !! p) as [[url k|ms k|k]|] eqn:Hp; try exact Hinv.
    apply resume_single_flight; [exact Hinv|eauto|].
    destruct Hinv as [Hs _]. destruct (Hs _ _ Hp) as [_ Hg]. apply Hg.
  - destruct (suspended rt !! p) as [[url k|ms k|k]|] eqn:Hp; try exact Hinv.
    apply resume_single_flight; [exact Hinv|eauto|].
    destruct Hinv as [Hs _]. destruct (Hs _ _ Hp) as [_ Hg]. apply Hg.
  - exact Hinv.
  - exact Hinv.
Qed.

(** The marker is removed when the request settles, fulfilled or rejected. *)
Lemma settled_request_unregistered (i : Input LeagueResponse) rt p :
  single_flight rt ->
  is_Some (suspended rt !! p) ->
  suspended (step i rt) !! p = None ->
  marker (step i rt) = None.
Proof.
  intros Hinv Hp Hgone.
  assert (Hrun : forall q m,
            is_Some (suspended rt !! q) ->
            (exists body, m = try_finally body cleanup /\ quiet body) ->
            suspended (resume q m rt) !! p = None ->
            marker (resume q m rt) = None).
  { intros q m Hq Hm Hnone.
    assert (q = p) as -> by (apply (single_flight_unique rt); assumption).
    apply (resume_single_flight rt p m Hinv Hp Hm), Hnone. }
  destruct Hp as [sp Hsp].
  destruct i as [q r|q|q|nav|dt]; simpl in *;
    try (rewrite Hsp in Hgone; discriminate).
  all: destruct (suspended rt !! q) as [[url k|ms k|k]|] eqn:Hq;
    try (rewrite Hsp in Hgone; discriminate).
  all: apply (Hrun q); [eauto| |exact Hgone].
  all: destruct Hinv as [Hs _]; destruct (Hs _ _ Hq) as [_ Hg]; apply Hg.
Qed.

Lemma single_flight_getLeagues this rt :
  single_flight rt -> single_flight (getLeagues this rt).2.
Proof.
  intros Hinv. unfold getLeagues.
  destruct (getCacheEntry "leagues" (now (env rt)) (localStorage (env rt)))
    as [cached ls].
  assert (Hinv1 : single_flight (set_env (with_storage ls) rt))
    by (apply single_flight_env; [reflexivity|exact Hinv]).
  destruct cached as [hit|]; [exact Hinv1|].
  destruct (pendingRequests (env (set_env (with_storage ls) rt)) !! "leagues")
    as [pending|] eqn:Hmark; [exact Hinv1|].
  destruct Hinv1 as [Hs Hm].
  assert (Hnone : forall q, suspended rt !! q = None).
  { intros q. destruct (suspended rt !! q) as [s|] eqn:Hq; [|reflexivity].
    destruct (Hs _ _ Hq) as [Hmq _]. unfold marker in Hmq. congruence. }
  destruct (getLeagues_request_shape this) as (body & Hshape & Hq).
  pose proof (advance_guarded body (with_storage ls (env rt)) Hq) as Hadv.
  destruct (getLeagues_request_suspends this (with_storage ls (env rt))) as [s Hsus].
  unfold call, record. simpl. rewrite <- Hshape in Hadv. rewrite Hsus in Hadv |- *.
  destruct Hadv as [Hg He]. unfold single_flight, marker. simpl.
  rewrite lookup_insert_eq. split.
  - intros q s0. destruct (decide (nextPromise rt = q)) as [<-|Hne].
    + rewrite lookup_insert_eq. intros [= <-]. auto.
    + rewrite lookup_insert_ne by exact Hne. rewrite Hnone. discriminate.
  - intros q [= <-]. rewrite lookup_insert_eq. eauto.
Qed.

(** While a request is registered, a call that misses the cache follows it
    and sends nothing. *)
Lemma getLeagues_follows_pending this rt p :
  marker rt = Some p ->
  (getCacheEntry "leagues" (now (env rt)) (localStorage (env rt))).1 = None ->
  (getLeagues this rt).1 = inr p /\
  network (getLeagues this rt).2 = network rt /\
  suspended (getLeagues this rt).2 = suspended rt.
Proof.
  unfold marker, getLeagues. intros Hmark Hmiss.
  destruct (getCacheEntry "leagues" (now (env rt)) (localStorage (env rt)))
    as [cached ls]. simpl in Hmiss. subst cached. simpl. rewrite Hmark.
  auto.
Qed.

(** Every state the event loop reaches from [idle] through calls of
    [getLeagues] and the inputs it is given has at most one request in
    flight. *)
Inductive reachable (this : FootballAPIService) : Runtime LeagueResponse -> Prop :=
| reach_idle : reachable this idle
| reach_call rt : reachable this rt -> reachable this (getLeagues this rt).2
| reach_step i rt : reachable this rt -> reachable this (step i rt).

Lemma reachable_single_flight this rt : reachable this rt -> single_flight rt.
Proof.
  induction 1 as [|rt _ IH|i rt _ IH].
  - apply single_flight_idle.
  - apply single_flight_getLeagues, IH.
  - apply single_flight_step, IH.
Qed.

End SchedulerFacts.




(** ** Properties of the name-matching service *)

Module NameFacts.
Import Text NameMatching.

(** *** The memo tables hold what the service computes *)

Definition sound (f : jsstring -> jsstring) (m : Memo) : Prop :=
  Forall (fun kv => kv.2 = f kv.1) m.

Lemma memo_get_In key v (m : Memo) : memo_get key m = Some v -> In (key, v) m.
Proof.
  induction m as [|[k w] m IH]; simpl; [discriminate|].
  destruct (decide (k = key)) as [->|_].
  - intros [= ->]. left. reflexivity.
  - intros H. right. apply IH, H.
Qed.

Lemma sound_get f m key v : sound f m -> memo_get key m = Some v -> v = f key.
Proof.
  intros Hs Hget. apply memo_get_In in Hget.
  unfold sound in Hs. rewrite List.Forall_forall in Hs. apply (Hs _ Hget).
Qed.

Lemma sound_capped f m : sound f m -> sound f (capped m).
Proof.
  intros Hs. unfold capped. destruct (1000 <? length m)%nat; [|exact Hs].
  destruct m as [|[k v] rest]; [exact Hs|].
  destruct k; [exact Hs|]. apply Forall_inv_tail in Hs. exact Hs.
Qed.

Lemma sound_insert f m key : sound f m -> sound f (capped (m ++ [(key, f key)])).
Proof.
  intros Hs. apply sound_capped. apply Forall_app. split; [exact Hs|].
  constructor; [reflexivity|constructor].
Qed.

Section Host.
Variable nfd : jsstring -> jsstring.
Variable toLowerCase : jsstring -> jsstring.

Abbreviation normalized := (normalized nfd toLowerCase).
Abbreviation normalize := (normalize nfd toLowerCase).
Abbreviation getLastName := (getLastName toLowerCase).
Abbreviation isMatch := (isMatch nfd toLowerCase).
Abbreviation hint := (hint toLowerCase).
Abbreviation generateLetterHint := (generateLetterHint toLowerCase).

(** Both caches agree with the functions they memoize. *)
Definition consistent (this : Service) : Prop :=
  sound normalized (normalizeCache this) /\ sound hint (hintCache this).

Lemma consistent_new : consistent newService.
Proof. split; constructor. Qed.

Lemma normalize_memo name this :
  consistent this ->
  (normalize name this).1 = normalized name /\ consistent (normalize name this).2.
Proof.
  intros [Hn Hh]. unfold normalize.
  destruct (memo_get name (normalizeCache this)) as [hit|] eqn:Hget; simpl.
  - split; [apply (sound_get _ _ _ _ Hn Hget)|split; assumption].
  - split; [reflexivity|]. split; [apply sound_insert, Hn|exact Hh].
Qed.

Lemma generateLetterHint_memo name this :
  consistent this ->
  (generateLetterHint name this).1 = hint name /\
  consistent (generateLetterHint name this).2.
Proof.
  intros [Hn Hh]. unfold generateLetterHint.
  destruct (memo_get name (hintCache this)) as [hit|] eqn:Hget; simpl.
  - split; [apply (sound_get _ _ _ _ Hh Hget)|split; assumption].
  - split; [reflexivity|]. split; [exact Hn|apply sound_insert, Hh].
Qed.

(** The last piece of a last name. *)
Definition finalPart (lastName : jsstring) : jsstring :=
  at_ (splitSpaces lastName) (length (splitSpaces lastName) - 1).

(** [isMatch] in terms of the values it compares. *)
Lemma isMatch_memo guess actualName this :
  consistent this ->
  (isMatch guess actualName this).1
  = (bool_decide (normalized guess = normalized (getLastName actualName))
     || (1 <? length (splitSpaces (getLastName actualName)))%nat
        && bool_decide (normalized guess
                        = normalized (finalPart (getLastName actualName)))) /\
  consistent (isMatch guess actualName this).2.
Proof.
  intros H0. unfold NameMatching.isMatch.
  destruct (normalize_memo guess this H0) as [E1 H1].
  destruct (normalize guess this) as [g this1]. simpl in E1, H1. subst g.
  destruct (normalize_memo (getLastName actualName) this1 H1) as [E2 H2].
  destruct (normalize (getLastName actualName) this1) as [l this2].
  simpl in E2, H2. subst l.
  destruct (bool_decide (normalized guess = normalized (getLastName actualName)));
    simpl; [split; [reflexivity|exact H2]|].
  destruct (1 <? length (splitSpaces (getLastName actualName)))%nat; simpl;
    [|split; [reflexivity|exact H2]].
  fold (finalPart (getLastName actualName)).
  destruct (normalize_memo (finalPart (getLastName actualName)) this2 H2) as [E3 H3].
  destruct (normalize (finalPart (getLastName actualName)) this2) as [f this3].
  simpl in E3, H3. subst f.
  destruct (bool_decide (normalized guess
                         = normalized (finalPart (getLastName actualName))));
    split; (reflexivity || exact H3).
Qed.

Lemma hintChar_spec c :
  hintChar c = if bool_decide (c ∈ [45; 39; 46]%N) then c else 95%N.
Proof.
  unfold hintChar.
  destruct (N.eqb_spec c 45) as [->|H1]; [reflexivity|].
  destruct (N.eqb_spec c 39) as [->|H2]; [reflexivity|].
  destruct (N.eqb_spec c 46) as [->|H3]; [reflexivity|].
  rewrite bool_decide_eq_false_2; [reflexivity|].
  rewrite !elem_of_cons, elem_of_nil. tauto.
Qed.

End Host.

Abbreviation lastNameOf := (getLastName Unicode.toLowerCase).
Abbreviation matches := (isMatch Unicode.nfd Unicode.toLowerCase).

(** C3, evaluated on the code. With a prefix in second-to-last position the
    function returns the last two tokens even when the token before is a
    prefix too: "Donny van de Beek" gives "de Beek" and "Juan de la Cruz"
    gives "la Cruz", not the last three tokens. The other cases are as
    stated: one token, a prefix before the last token, "der"/"den" after a
    prefix, and no prefix. *)
Theorem getLastName_two_prefixes :
  lastNameOf (str "Donny van de Beek") = str "de Beek" /\
  lastNameOf (str "Juan de la Cruz") = str "la Cruz" /\
  lastNameOf (str "Robin van der Berg") = str "van der Berg" /\
  lastNameOf (str "Matthijs de Ligt") = str "de Ligt" /\
  lastNameOf (str "Cristiano Ronaldo") = str "Ronaldo" /\
  lastNameOf (str "Pel" ++ [233%N]) = str "Pel" ++ [233%N].
Proof. repeat split; vm_compute; reflexivity. Qed.

(** C6. [isMatch] answers true exactly when the normalized guess equals the
    normalized last name, or the last name has more than one token and the
    normalized guess equals its normalized final token; so "ligt" and
    "de ligt" match "Matthijs de Ligt", while the first name "matthijs" and
    the fragment "lig" do not. *)
Theorem isMatch_iff :
  (forall nfd toLowerCase guess actualName this,
     consistent nfd toLowerCase this ->
     let lastName := getLastName toLowerCase actualName in
     (isMatch nfd toLowerCase guess actualName this).1 = true <->
     normalized nfd toLowerCase guess = normalized nfd toLowerCase lastName \/
     ((1 < length (splitSpaces lastName))%nat /\
      normalized nfd toLowerCase guess
      = normalized nfd toLowerCase (finalPart lastName))) /\
  (matches (str "ligt") (str "Matthijs de Ligt") newService).1 = true /\
  (matches (str "de ligt") (str "Matthijs de Ligt") newService).1 = true /\
  (matches (str "matthijs") (str "Matthijs de Ligt") newService).1 = false /\
  (matches (str "lig") (str "Matthijs de Ligt") newService).1 = false.
Proof.
  split; [|repeat split; vm_compute; reflexivity].
  intros nfd toLowerCase guess actualName this Hc lastName.
  rewrite (proj1 (isMatch_memo nfd toLowerCase guess actualName this Hc)).
  fold lastName.
  rewrite orb_true_iff, andb_true_iff, !bool_decide_eq_true, Nat.ltb_lt.
  reflexivity.
Qed.

Lemma isMatch_iff_witness :
  (matches (str "Ligt") (str "Matthijs de Ligt") newService).1 = true.
Proof.
  apply (proj1 isMatch_iff Unicode.nfd Unicode.toLowerCase (str "Ligt")
           (str "Matthijs de Ligt") newService
           (consistent_new Unicode.nfd Unicode.toLowerCase)).
  right. split; [vm_compute; lia|vm_compute; reflexivity].
Defined.

(** C7. The hint has the length of the last name; at every index a hyphen,
    apostrophe or period of the last name is kept and any other code unit,
    spaces included, is an underscore. For "O'Brien" the hint is "_'_____". *)
Theorem generateLetterHint_shape :
  (forall toLowerCase name this,
     sound (hint toLowerCase) (hintCache this) ->
     let lastName := getLastName toLowerCase name in
     let shown := (generateLetterHint toLowerCase name this).1 in
     length shown = length lastName /\
     (forall i c, lastName !! i = Some c ->
        shown !! i = Some (if bool_decide (c ∈ [45; 39; 46]%N) then c else 95%N))) /\
  (generateLetterHint Unicode.toLowerCase (str "O'Brien") newService).1
  = str "_'_____".
Proof.
  split; [|vm_compute; reflexivity].
  intros toLowerCase name this Hs lastName shown.
  assert (Hshown : shown = map hintChar lastName).
  { unfold shown, generateLetterHint.
    destruct (memo_get name (hintCache this)) as [cached|] eqn:Hget; simpl.
    - apply (sound_get _ _ _ _ Hs Hget).
    - reflexivity. }
  rewrite Hshown. split; [apply length_map|].
  intros i c Hi. rewrite list_lookup_fmap, Hi. simpl.
  rewrite hintChar_spec. reflexivity.
Qed.

Lemma generateLetterHint_shape_witness :
  length (generateLetterHint Unicode.toLowerCase (str "Jean-Pierre de Ligt")
            newService).1
  = length (lastNameOf (str "Jean-Pierre de Ligt")).
Proof.
  apply (proj1 generateLetterHint_shape Unicode.toLowerCase
           (str "Jean-Pierre de Ligt") newService).
  constructor.
Defined.

End NameFacts.

(** ** Idempotence of [normalize] *)

Module NormalizeFacts.
Import Text NameMatching NameFacts.

(** *** Trimming and stripping, whatever the host *)

Lemma trimStart_suffix s : exists pre, s = pre ++ trimStart s.
Proof.
  induction s as [|c s [pre IH]]; simpl.
  - exists []. reflexivity.
  - destruct (isWhiteSpace c).
    + exists (c :: pre). simpl. f_equal. exact IH.
    + exists []. reflexivity.
Qed.

Lemma trimEnd_prefix s : exists post, s = trimEnd s ++ post.
Proof.
  unfold trimEnd. destruct (trimStart_suffix (rev s)) as [pre Hpre].
  exists (rev pre). rewrite <- rev_app_distr, <- Hpre. symmetry. apply rev_involutive.
Qed.

(** A trimmed string is a run of consecutive units of the original. *)
Lemma trim_infix s : exists pre post, s = pre ++ trim s ++ post.
Proof.
  unfold trim. destruct (trimStart_suffix s) as [pre Hpre].
  destruct (trimEnd_prefix (trimStart s)) as [post Hpost].
  exists pre, post. rewrite <- Hpost. exact Hpre.
Qed.

Lemma trimStart_idem s : trimStart (trimStart s) = trimStart s.
Proof.
  induction s as [|c s IH]; simpl; [reflexivity|].
  destruct (isWhiteSpace c) eqn:E; [exact IH|]. simpl. rewrite E. reflexivity.
Qed.

Lemma trimStart_snoc s c :
  isWhiteSpace c = false -> trimStart (s ++ [c]) = trimStart s ++ [c].
Proof.
  intros Hc. induction s as [|d s IH]; simpl.
  - rewrite Hc. reflexivity.
  - destruct (isWhiteSpace d); [exact IH|reflexivity].
Qed.

Lemma trimEnd_keeps_start s :
  trimStart s = s -> trimStart (trimEnd s) = trimEnd s.
Proof.
  destruct s as [|c s]; [reflexivity|]. simpl.
  destruct (isWhiteSpace c) eqn:Hc.
  - intros Hs. exfalso.
    destruct (trimStart_suffix s) as [pre Hpre].
    apply (f_equal (@length N)) in Hs. rewrite Hpre in Hs at 2.
    simpl in Hs. rewrite length_app in Hs. lia.
  - intros _. unfold trimEnd. simpl. rewrite (trimStart_snoc _ _ Hc).
    rewrite rev_app_distr. simpl. rewrite Hc. reflexivity.
Qed.

Lemma trim_idem s : trim (trim s) = trim s.
Proof.
  unfold trim. rewrite (trimEnd_keeps_start (trimStart s) (trimStart_idem s)).
  unfold trimEnd. rewrite rev_involutive, trimStart_idem. reflexivity.
Qed.

Lemma removeDiacritics_fixed s :
  removeDiacritics s = s <-> Forall (fun c => isDiacritic c = false) s.
Proof.
  unfold removeDiacritics. induction s as [|c s IH]; simpl.
  - split; [constructor|reflexivity].
  - destruct (isDiacritic c) eqn:E; simpl.
    + split.
      * intros H. exfalso.
        pose proof (List.filter_length_le (fun c => negb (isDiacritic c)) s) as Hle.
        rewrite H in Hle. simpl in Hle. lia.
      * intros H. apply Forall_inv in H. congruence.
    + split.
      * intros [= H]. constructor; [exact E|apply IH, H].
      * intros H. f_equal. apply IH. apply Forall_inv_tail in H. exact H.
Qed.

Lemma removeDiacritics_idem s :
  removeDiacritics (removeDiacritics s) = removeDiacritics s.
Proof.
  apply removeDiacritics_fixed, List.Forall_forall. intros c Hc.
  apply List.filter_In in Hc as [_ Hc]. apply negb_true_iff, Hc.
Qed.

Lemma removeDiacritics_trim s :
  removeDiacritics s = s -> removeDiacritics (trim s) = trim s.
Proof.
  rewrite !removeDiacritics_fixed. intros Hs.
  destruct (trim_infix s) as (pre & post & Hinfix). rewrite Hinfix in Hs.
  apply Forall_app in Hs as [_ Hs]. apply Forall_app in Hs as [Hs _]. exact Hs.
Qed.

(** U+034F, the combining grapheme joiner: the one unit of the stripped
    block that is not a reordering mark. *)
Definition joiner : N := 847%N.

(** The surrogate code units, U+D800 to U+DFFF. The regular expression of
    [normalize] has no [u] flag and works on code units: removing a mark
    that stands between two surrogates makes them one character, which
    may decompose. *)
Definition isSurrogate (c : N) : bool := ((55296 <=? c) && (c <=? 57343))%N.

(** A string of characters of the Basic Multilingual Plane: no surrogate
    code unit, so that code units and characters coincide. *)
Definition plain (s : jsstring) : Prop :=
  Forall (fun c => isSurrogate c = false) s.

Lemma plain_removeDiacritics s : plain s -> plain (removeDiacritics s).
Proof.
  unfold plain, removeDiacritics. rewrite !List.Forall_forall.
  intros Hs c Hc. apply List.filter_In in Hc as [Hc _]. apply Hs, Hc.
Qed.

Lemma plain_trim s : plain s -> plain (trim s).
Proof.
  unfold plain. intros Hs.
  destruct (trim_infix s) as (pre & post & Hinfix). rewrite Hinfix in Hs.
  apply Forall_app in Hs as [_ Hs]. apply Forall_app in Hs as [Hs _]. exact Hs.
Qed.

Section Host.
Variable nfd : jsstring -> jsstring.
Variable toLowerCase : jsstring -> jsstring.

Abbreviation normalized := (normalized nfd toLowerCase).
Abbreviation normalize := (normalize nfd toLowerCase).

(** What the proof uses of the host, on strings without surrogate code
    units only: decomposing a decomposition changes nothing; a decomposed
    string stays decomposed when its diacritics are removed (no joiner
    being among them), when it is lowercased (no diacritic and no
    surrogate appearing), and when it is trimmed; and a trimmed lowercase
    string is its own lowercase. *)
Hypothesis nfd_idem : forall s, plain (nfd s) -> nfd (nfd s) = nfd s.
Hypothesis nfd_strip : forall s,
  plain s -> nfd s = s -> joiner ∉ s ->
  nfd (removeDiacritics s) = removeDiacritics s.
Hypothesis nfd_lower : forall s,
  plain s -> nfd s = s -> removeDiacritics s = s ->
  nfd (toLowerCase s) = toLowerCase s /\
  removeDiacritics (toLowerCase s) = toLowerCase s /\
  plain (toLowerCase s).
Hypothesis nfd_trim : forall s, plain s -> nfd s = s -> nfd (trim s) = trim s.
Hypothesis lower_trim : forall s,
  plain s -> toLowerCase (trim (toLowerCase s)) = trim (toLowerCase s).

Lemma normalized_idem s :
  plain (nfd s) -> joiner ∉ nfd s -> normalized (normalized s) = normalized s.
Proof.
  intros Hp Hj. unfold NameMatching.normalized.
  set (y := removeDiacritics (nfd s)).
  assert (Hpy : plain y) by apply plain_removeDiacritics, Hp.
  assert (Hy : nfd y = y)
    by (apply nfd_strip; [exact Hp|apply nfd_idem, Hp|exact Hj]).
  assert (Hy' : removeDiacritics y = y) by apply removeDiacritics_idem.
  destruct (nfd_lower y Hpy Hy Hy') as (Hz & Hz' & Hpz).
  rewrite (nfd_trim _ Hpz Hz), (removeDiacritics_trim _ Hz').
  rewrite (lower_trim y Hpy). apply trim_idem.
Qed.

End Host.

End NormalizeFacts.

(** ** The example host meets the requirements *)

Module UnicodeFacts.
Import Text NameMatching NormalizeFacts Unicode.
Local Open Scope N_scope.

(** *** Canonical ordering *)

Definition inOrder (a b : N) : bool := negb ((0 <? ccc b) && (ccc b <? ccc a)).

Fixpoint ordered (s : jsstring) : bool :=
  match s with
  | a :: (b :: _) as rest => inOrder a b && ordered rest
  | _ => true
  end.

Lemma ordered_cons a b s :
  ordered (a :: b :: s) = true <-> inOrder a b = true /\ ordered (b :: s) = true.
Proof. simpl. apply andb_true_iff. Qed.

Lemma place_head c s :
  place c s = c :: s \/ exists d rest, s = d :: rest /\ place c s = d :: place c rest
                                      /\ 0 < ccc d < ccc c.
Proof.
  destruct s as [|d rest]; simpl; [left; reflexivity|].
  destruct ((0 <? ccc d) && (ccc d <? ccc c)) eqn:E; [|left; reflexivity].
  right. exists d, rest. apply andb_true_iff in E as [E1 E2].
  apply N.ltb_lt in E1, E2. auto.
Qed.

Lemma place_ordered c s : ordered s = true -> ordered (place c s) = true.
Proof.
  induction s as [|d rest IH]; [reflexivity|]. intros Hs. simpl.
  destruct ((0 <? ccc d) && (ccc d <? ccc c)) eqn:E.
  - apply andb_true_iff in E as [E1 E2]. apply N.ltb_lt in E1, E2.
    assert (Hrest : ordered rest = true).
    { destruct rest; [reflexivity|]. apply ordered_cons in Hs. tauto. }
    specialize (IH Hrest).
    destruct (place_head c rest) as [Hp|(e & tl & -> & Hp & He)]; rewrite Hp in IH |- *.
    + apply ordered_cons. split; [|exact IH].
      unfold inOrder. apply negb_true_iff, andb_false_iff. right.
      apply N.ltb_ge. lia.
    + apply ordered_cons. split; [|exact IH].
      apply ordered_cons in Hs. tauto.
  - apply ordered_cons. split; [|exact Hs].
    unfold inOrder. rewrite E. reflexivity.
Qed.

Lemma canonicalOrder_ordered s : ordered (canonicalOrder s) = true.
Proof.
  induction s as [|c s IH]; [reflexivity|]. simpl. apply place_ordered, IH.
Qed.

Lemma canonicalOrder_fixed s : ordered s = true -> canonicalOrder s = s.
Proof.
  induction s as [|a s IH]; [reflexivity|]. intros Hs. simpl.
  destruct s as [|b s']; [reflexivity|].
  apply ordered_cons in Hs as [Hab Hs]. rewrite (IH Hs). simpl.
  unfold inOrder in Hab. apply negb_true_iff in Hab. rewrite Hab. reflexivity.
Qed.

Lemma place_In x c s : In x (place c s) -> x = c \/ In x s.
Proof.
  induction s as [|d rest IH]; simpl.
  - intros [->|[]]. left. reflexivity.
  - destruct ((0 <? ccc d) && (ccc d <? ccc c)); simpl.
    + intros [->|H]; [right; left; reflexivity|].
      destruct (IH H) as [->|H']; [left; reflexivity|right; right; exact H'].
    + intros [->|H]; [left; reflexivity|right; exact H].
Qed.

Lemma canonicalOrder_In x s : In x (canonicalOrder s) -> In x s.
Proof.
  induction s as [|c s IH]; simpl; [tauto|].
  intros H. apply place_In in H as [->|H]; [left; reflexivity|right; apply IH, H].
Qed.

Lemma ordered_app a b : ordered (a ++ b) = true -> ordered a = true /\ ordered b = true.
Proof.
  induction a as [|x a IH]; simpl app; [auto|].
  destruct a as [|y a'].
  - simpl app. intros H. split; [reflexivity|].
    destruct b; [reflexivity|]. apply ordered_cons in H. tauto.
  - change ((x :: y :: a') ++ b) with (x :: y :: (a' ++ b)). intros H.
    apply ordered_cons in H as [Hxy H]. destruct (IH H) as [Ha Hb].
    split; [apply ordered_cons; auto|exact Hb].
Qed.

(** Dropping marks of non-zero class keeps the order. *)
Lemma ordered_skip a m s :
  0 < ccc m -> ordered (a :: m :: s) = true -> ordered (a :: s) = true.
Proof.
  intros Hm H. apply ordered_cons in H as [Ham H].
  destruct s as [|b s']; [reflexivity|].
  apply ordered_cons in H as [Hmb H]. apply ordered_cons. split; [|exact H].
  unfold inOrder in *. apply negb_true_iff in Ham, Hmb. apply negb_true_iff.
  apply andb_false_iff in Ham, Hmb. apply andb_false_iff.
  rewrite !N.ltb_ge in *. lia.
Qed.

Lemma ordered_tail a s : ordered (a :: s) = true -> ordered s = true.
Proof. destruct s; [reflexivity|]. intros H. apply ordered_cons in H. tauto. Qed.

Lemma ordered_filter (keep : N -> bool) s :
  (forall c, In c s -> keep c = false -> 0 < ccc c) ->
  ordered s = true -> ordered (List.filter keep s) = true.
Proof.
  intros Hdrop.
  assert (Hhead : forall s a,
            (forall c, In c s -> keep c = false -> 0 < ccc c) ->
            ordered (a :: s) = true -> ordered (a :: List.filter keep s) = true).
  { clear. induction s as [|m s IH]; intros a Hdrop H; [reflexivity|]. simpl.
    destruct (keep m) eqn:Hm.
    - apply ordered_cons in H as [Ham H]. apply ordered_cons. split; [exact Ham|].
      apply IH; [|exact H]. intros c Hc. apply Hdrop. right. exact Hc.
    - apply IH; [intros c Hc; apply Hdrop; right; exact Hc|].
      apply (ordered_skip a m); [|exact H]. apply Hdrop; [left; reflexivity|exact Hm]. }
  induction s as [|a s IH]; [reflexivity|]. intros H. simpl.
  destruct (keep a).
  - apply Hhead; [|exact H]. intros c Hc. apply Hdrop. right. exact Hc.
  - apply IH; [|apply (ordered_tail a), H]. intros c Hc. apply Hdrop. right. exact Hc.
Qed.

(** *** The tables *)

(** A property checked on every code unit below a bound. *)
Lemma checked_below (P : N -> bool) (bound : nat) :
  forallb P (map N.of_nat (seq 0 bound)) = true ->
  forall c, c < N.of_nat bound -> P c = true.
Proof.
  intros Hall c Hc. rewrite forallb_forall in Hall. apply Hall.
  apply in_map_iff. exists (N.to_nat c). split; [apply N2Nat.id|].
  apply in_seq. lia.
Qed.

Definition atomic (c : N) : Prop := decomposition_of c decompositions = None.

Definition atomicb (c : N) : bool :=
  match decomposition_of c decompositions with None => true | Some _ => false end.

Lemma atomicb_spec c : atomicb c = true <-> atomic c.
Proof.
  unfold atomicb, atomic. destruct (decomposition_of c decompositions);
    split; congruence.
Qed.

Lemma decomposition_In c d table :
  decomposition_of c table = Some d -> In (c, d) table.
Proof.
  induction table as [|[c' d'] rest IH]; simpl; [discriminate|].
  destruct (N.eqb_spec c' c) as [->|_].
  - intros [= ->]. left. reflexivity.
  - intros H. right. apply IH, H.
Qed.

Lemma decompositions_checked :
  forallb (fun '(c, (base, mark)) =>
             (192 <=? c) && (c <=? 255) && atomicb base && atomicb mark)
    decompositions = true.
Proof. vm_compute. reflexivity. Qed.

Lemma decomposition_parts c base mark :
  decomposition_of c decompositions = Some (base, mark) ->
  192 <= c <= 255 /\ atomic base /\ atomic mark.
Proof.
  intros H. apply decomposition_In in H.
  pose proof decompositions_checked as Hall. rewrite forallb_forall in Hall.
  specialize (Hall _ H). simpl in Hall.
  rewrite !andb_true_iff, !N.leb_le, !atomicb_spec in Hall. tauto.
Qed.

Lemma atomic_decompose c : atomic c -> decompose c = [c].
Proof. unfold atomic, decompose. intros ->. reflexivity. Qed.

Lemma decompose_atomic c x : In x (decompose c) -> atomic x.
Proof.
  unfold decompose.
  destruct (decomposition_of c decompositions) as [[base mark]|] eqn:E.
  - destruct (decomposition_parts _ _ _ E) as (_ & Hb & Hm).
    intros [<-|[<-|[]]]; assumption.
  - intros [<-|[]]. exact E.
Qed.

Lemma flat_map_atomic s : Forall atomic s -> flat_map decompose s = s.
Proof.
  induction 1 as [|c s Hc _ IH]; [reflexivity|].
  simpl. rewrite (atomic_decompose _ Hc), IH. reflexivity.
Qed.

(** The strings [nfd] leaves alone: undecomposable units in canonical order. *)
Lemma nfd_fixed s : nfd s = s <-> Forall atomic s /\ ordered s = true.
Proof.
  unfold nfd. split.
  - intros H. split.
    + apply List.Forall_forall. intros x Hx. rewrite <- H in Hx.
      apply canonicalOrder_In, in_flat_map in Hx as (c & _ & Hx).
      apply (decompose_atomic c), Hx.
    + rewrite <- H. apply canonicalOrder_ordered.
  - intros [Ha Ho]. rewrite (flat_map_atomic _ Ha). apply canonicalOrder_fixed, Ho.
Qed.

Lemma nfd_idem s : nfd (nfd s) = nfd s.
Proof.
  apply nfd_fixed. split.
  - apply List.Forall_forall. intros x Hx. unfold nfd in Hx.
    apply canonicalOrder_In, in_flat_map in Hx as (c & _ & Hx).
    apply (decompose_atomic c), Hx.
  - apply canonicalOrder_ordered.
Qed.

Lemma ccc_diacritic c : isDiacritic c = true -> c <> joiner -> 0 < ccc c.
Proof.
  intros Hd Hj.
  assert (Hc : c < N.of_nat 880).
  { unfold isDiacritic in Hd. apply andb_true_iff in Hd as [_ Hhi].
    apply N.leb_le in Hhi. lia. }
  pose proof (checked_below
    (fun c => negb (isDiacritic c) || (c =? joiner) || (0 <? ccc c))
    880 ltac:(vm_compute; reflexivity) c Hc) as H.
  simpl in H. rewrite Hd in H. simpl in H.
  destruct (N.eqb_spec c joiner) as [E|_]; [contradiction|].
  apply N.ltb_lt, H.
Qed.

Lemma ccc_below_marks c : c < 768 -> ccc c = 0.
Proof.
  intros Hc. unfold ccc. cbv zeta.
  assert (H : forall lo, 768 <= lo -> (lo <=? c) = false)
    by (intros lo Hlo; apply N.leb_gt; lia).
  rewrite !H by lia. reflexivity.
Qed.

(** *** Lowercasing *)

Lemma lowerUnit_cases c :
  lowerUnit c = c \/ (c <= 222 /\ lowerUnit c = c + 32).
Proof.
  unfold lowerUnit.
  destruct ((65 <=? c) && (c <=? 90)) eqn:E1.
  - right. apply andb_true_iff in E1 as [_ E]. apply N.leb_le in E. lia.
  - destruct ((192 <=? c) && (c <=? 222) && negb (c =? 215)) eqn:E2; [|left; reflexivity].
    right. rewrite !andb_true_iff in E2. destruct E2 as [[_ E] _].
    apply N.leb_le in E. lia.
Qed.

Lemma lowerUnit_idem c : lowerUnit (lowerUnit c) = lowerUnit c.
Proof.
  destruct (lowerUnit_cases c) as [H|[Hc _]]; [rewrite H; exact H|].
  apply N.eqb_eq.
  apply (checked_below (fun c => lowerUnit (lowerUnit c) =? lowerUnit c) 223
           ltac:(vm_compute; reflexivity) c ltac:(lia)).
Qed.

Lemma lowerUnit_atomic c : atomic c -> atomic (lowerUnit c).
Proof.
  intros Hc. destruct (lowerUnit_cases c) as [->|[Hle _]]; [exact Hc|].
  pose proof (checked_below (fun c => implb (atomicb c) (atomicb (lowerUnit c))) 223
                ltac:(vm_compute; reflexivity) c ltac:(lia)) as H.
  simpl in H. apply atomicb_spec in Hc. rewrite Hc in H.
  apply atomicb_spec, H.
Qed.

Lemma ccc_lowerUnit c : ccc (lowerUnit c) = ccc c.
Proof.
  destruct (lowerUnit_cases c) as [->|[Hle ->]]; [reflexivity|].
  rewrite !ccc_below_marks by lia. reflexivity.
Qed.

Lemma isDiacritic_lowerUnit c : isDiacritic (lowerUnit c) = isDiacritic c.
Proof.
  destruct (lowerUnit_cases c) as [->|[Hle ->]]; [reflexivity|].
  unfold isDiacritic.
  replace (768 <=? c + 32) with false by (symmetry; apply N.leb_gt; lia).
  replace (768 <=? c) with false by (symmetry; apply N.leb_gt; lia).
  reflexivity.
Qed.

Lemma ordered_lower s : ordered (toLowerCase s) = ordered s.
Proof.
  unfold toLowerCase. induction s as [|a s IH]; [reflexivity|].
  destruct s as [|b s']; [reflexivity|].
  change (ordered (lowerUnit a :: map lowerUnit (b :: s'))
          = inOrder a b && ordered (b :: s')).
  rewrite <- IH. simpl. unfold inOrder. rewrite !ccc_lowerUnit. reflexivity.
Qed.

Lemma removeDiacritics_lower s :
  removeDiacritics (toLowerCase s) = toLowerCase (removeDiacritics s).
Proof.
  unfold removeDiacritics, toLowerCase. induction s as [|c s IH]; [reflexivity|].
  simpl. rewrite isDiacritic_lowerUnit.
  destruct (isDiacritic c); simpl; rewrite IH; reflexivity.
Qed.

(** *** The five requirements *)

Lemma host_strip s :
  nfd s = s -> joiner ∉ s -> nfd (removeDiacritics s) = removeDiacritics s.
Proof.
  rewrite !nfd_fixed. intros [Ha Ho] Hj. split.
  - unfold removeDiacritics. apply List.Forall_forall. intros x Hx.
    apply List.filter_In in Hx as [Hx _].
    rewrite List.Forall_forall in Ha. apply Ha, Hx.
  - apply ordered_filter; [|exact Ho].
    intros c Hc Hdrop. apply negb_false_iff in Hdrop.
    apply ccc_diacritic; [exact Hdrop|].
    intros ->. apply Hj, list_elem_of_In, Hc.
Qed.

Lemma host_lower s :
  nfd s = s -> removeDiacritics s = s ->
  nfd (toLowerCase s) = toLowerCase s /\
  removeDiacritics (toLowerCase s) = toLowerCase s.
Proof.
  rewrite !nfd_fixed. intros [Ha Ho] Hs. split; [split|].
  - unfold toLowerCase. apply Forall_map.
    eapply Forall_impl; [exact Ha|]. intros c. apply lowerUnit_atomic.
  - rewrite ordered_lower. exact Ho.
  - rewrite removeDiacritics_lower, Hs. reflexivity.
Qed.

Lemma host_trim s : nfd s = s -> nfd (trim s) = trim s.
Proof.
  rewrite !nfd_fixed. intros [Ha Ho].
  destruct (trim_infix s) as (pre & post & Hinfix).
  rewrite Hinfix in Ha, Ho. split.
  - apply Forall_app in Ha as [_ Ha]. apply Forall_app in Ha as [Ha _]. exact Ha.
  - apply ordered_app in Ho as [_ Ho]. apply ordered_app in Ho as [Ho _]. exact Ho.
Qed.

Lemma host_lower_trim s :
  toLowerCase (trim (toLowerCase s)) = trim (toLowerCase s).
Proof.
  destruct (trim_infix (toLowerCase s)) as (pre & post & Hinfix).
  assert (Hfix : Forall (fun c => lowerUnit c = c) (trim (toLowerCase s))).
  { assert (Hall : Forall (fun c => lowerUnit c = c) (toLowerCase s)).
    { unfold toLowerCase. apply Forall_map, List.Forall_forall.
      intros c _. apply lowerUnit_idem. }
    rewrite Hinfix in Hall.
    apply Forall_app in Hall as [_ Hall]. apply Forall_app in Hall as [Hall _].
    exact Hall. }
  clear Hinfix. unfold toLowerCase at 1.
  induction Hfix as [|c l Hc _ IH]; [reflexivity|].
  simpl. rewrite Hc. f_equal. exact IH.
Qed.

End UnicodeFacts.

(** ** [normalize] applied twice *)

Module Idempotence.
Import Text NameMatching NameFacts NormalizeFacts.

(** The properties of Unicode decomposition and lowercasing the result
    rests on (see [NormalizeFacts]), each asked of strings without
    surrogate code units only. *)
Definition canonical_host (nfd toLowerCase : jsstring -> jsstring) : Prop :=
  (forall s, plain (nfd s) -> nfd (nfd s) = nfd s) /\
  (forall s, plain s -> nfd s = s -> joiner ∉ s ->
             nfd (removeDiacritics s) = removeDiacritics s) /\
  (forall s, plain s -> nfd s = s -> removeDiacritics s = s ->
             nfd (toLowerCase s) = toLowerCase s /\
             removeDiacritics (toLowerCase s) = toLowerCase s /\
             plain (toLowerCase s)) /\
  (forall s, plain s -> nfd s = s -> nfd (trim s) = trim s) /\
  (forall s, plain s -> toLowerCase (trim (toLowerCase s)) = trim (toLowerCase s)).

Lemma lowerUnit_plain c :
  isSurrogate c = false -> isSurrogate (Unicode.lowerUnit c) = false.
Proof.
  unfold isSurrogate, Unicode.lowerUnit. intros Hc.
  destruct ((65 <=? c) && (c <=? 90))%N eqn:E1.
  - apply andb_true_iff in E1 as [_ E1]. apply N.leb_le in E1.
    apply andb_false_iff. left. apply N.leb_gt. lia.
  - destruct ((192 <=? c) && (c <=? 222) && negb (c =? 215))%N eqn:E2;
      [|exact Hc].
    apply andb_true_iff in E2 as [E2 _]. apply andb_true_iff in E2 as [_ E2].
    apply N.leb_le in E2. apply andb_false_iff. left. apply N.leb_gt. lia.
Qed.

Lemma toLowerCase_plain s : plain s -> plain (Unicode.toLowerCase s).
Proof.
  unfold plain, Unicode.toLowerCase. intros Hs. apply Forall_map.
  eapply Forall_impl; [exact Hs|]. intros c. apply lowerUnit_plain.
Qed.

Lemma example_host : canonical_host Unicode.nfd Unicode.toLowerCase.
Proof.
  split; [|split; [|split; [|split]]].
  - intros s _. apply UnicodeFacts.nfd_idem.
  - intros s _. apply UnicodeFacts.host_strip.
  - intros s Hp Hs Hd. split; [|split].
    + apply UnicodeFacts.host_lower; assumption.
    + apply UnicodeFacts.host_lower; assumption.
    + apply toLowerCase_plain, Hp.
  - intros s _. apply UnicodeFacts.host_trim.
  - intros s _. apply UnicodeFacts.host_lower_trim.
Qed.

(** Qamats, combining grapheme joiner, hiriq: the joiner keeps the two
    Hebrew points (classes 18 and 14) in this order. *)
Definition qamats_joiner_hiriq : jsstring := [1464; 847; 1460]%N.



Definition JoseMaria : jsstring :=
  str "Jos" ++ [233%N] ++ str " Mar" ++ [237%N] ++ str "a".


End Idempotence.

(** ** More on the retry pipeline *)

Module RetryMore.
Import JS Storage Async API RetryFacts.

(** The first steps of [fetchAPI] when the browser is online: the request
    goes out and the reply is examined under the [catch] block. *)
Ltac first_attempt Hoff :=
  rewrite fetchAPI_equation_1; cbv zeta; rewrite run_read_bind, Hoff;
  rewrite (run_try_catch asAPIError) by (intros ?; apply catch_block);
  cbn [run].

Definition retryableStatus (statusCode : Z) : bool :=
  (statusCode =? 429) || (500 <=? statusCode).

Lemma handleAPIError_flag {T A} (statusCode : Z) (text : string) :
  exists message,
    (handleAPIError statusCode text : Task T A)
    = Throw (APIError statusCode message (retryableStatus statusCode)).
Proof.
  unfold handleAPIError, retryableStatus.
  destruct (Z.eqb_spec statusCode 400) as [->|_]; [eexists; reflexivity|].
  destruct (Z.eqb_spec statusCode 401) as [->|_]; [eexists; reflexivity|].
  destruct (Z.eqb_spec statusCode 403) as [->|_]; [eexists; reflexivity|].
  destruct (Z.eqb_spec statusCode 404) as [->|_]; [eexists; reflexivity|].
  destruct (Z.eqb_spec statusCode 429) as [->|_]; [eexists; reflexivity|].
  destruct (Z.eqb_spec statusCode 500) as [->|_]; [eexists; reflexivity|].
  destruct (Z.eqb_spec statusCode 502) as [->|_]; [eexists; reflexivity|].
  destruct (Z.eqb_spec statusCode 503) as [->|_]; [eexists; reflexivity|].
  destruct (Z.eqb_spec statusCode 504) as [->|_]; [eexists; reflexivity|].
  simpl. eexists; reflexivity.
Qed.

(** X1. [handleAPIError] never returns: for every status it throws an
    [APIError] carrying that status, and the error is retryable exactly for
    429 and for the statuses from 500 upwards (the listed 500, 502, 503,
    504 and every unlisted one). *)
Theorem handleAPIError_classifies {T A} (statusCode : Z) (text : string) :
  exists message retryable,
    (handleAPIError statusCode text : Task T A)
    = Throw (APIError statusCode message retryable) /\
    (retryable = true <-> statusCode = 429 \/ 500 <= statusCode).
Proof.
  destruct (handleAPIError_flag (T := T) (A := A) statusCode text)
    as [message Herr].
  exists message, (retryableStatus statusCode). split; [exact Herr|].
  unfold retryableStatus. rewrite orb_true_iff, Z.eqb_eq, Z.leb_le. tauto.
Qed.

(** A reply with a status outside 200..299, below 500 and other than 429. *)
Definition client_error {T} (x : Exchange T) : Prop :=
  exists res, reply x = inl res /\
              (status res < 200 \/ 299 < status res) /\
              status res < 500 /\ status res <> 429.

(** X2. A client-error reply ends the request at once: one request, no
    sleep, no retry whatever the retry count, and an [APIError] with that
    status and [retryable = false]. *)
Theorem fetchAPI_client_error {T} this endpoint n (x : Exchange T) net env seen :
  isOffline env = false ->
  client_error x ->
  exists res message,
    reply x = inl res /\
    run (fetchAPI this endpoint n) (x :: net) env seen
    = {| outcome := Rejected (APIError (status res) message false);
         final := later (elapsed x) (navigatorAfter x) env;
         trace := seen ++ [Requested (baseURL this +:+ endpoint)];
         unused := net |}.
Proof.
  intros Hoff (res & Hres & Hnok & Hlt & H429). exists res.
  destruct (handleAPIError_flag (T := T) (A := list T)
              (status res) (statusText res)) as [message Herr].
  assert (Hflag : retryableStatus (status res) = false).
  { unfold retryableStatus. apply orb_false_iff. split.
    - apply Z.eqb_neq, H429.
    - apply Z.leb_gt, Hlt. }
  rewrite Hflag in Herr. exists message. split; [exact Hres|].
  first_attempt Hoff. rewrite Hres.
  destruct (Z.eqb_spec (status res) 429) as [E|_]; [contradiction|].
  assert (Hok : ok res = false).
  { unfold ok. apply andb_false_iff. destruct Hnok.
    - left. apply Z.leb_gt. lia.
    - right. apply Z.leb_gt. lia. }
  rewrite Hok. simpl negb. cbv iota.
  replace (500 <=? status res) with false by (symmetry; apply Z.leb_gt; lia).
  rewrite Herr. reflexivity.
Qed.

Lemma fetchAPI_client_error_witness :
  exists message,
    outcome (run (fetchAPI service "/leagues" 0)
               [replies (T := LeagueResponse) 404 None] online_env [])
    = Rejected (APIError 404 message false).
Proof.
  destruct (fetchAPI_client_error service "/leagues" 0
              (replies (T := LeagueResponse) 404 None) [] online_env [] eq_refl)
    as (res & message & Hres & Hrun).
  - eexists. split; [reflexivity|]. simpl. lia.
  - exists message. rewrite Hrun. simpl. injection Hres as <-. reflexivity.
Defined.

(** A fetch that rejects, and a body that cannot be read. *)
Definition transport_failure {T} (x : Exchange T) : Prop :=
  (exists thrown, reply x = inr thrown /\ is_APIError thrown = false) \/
  (exists res, reply x = inl res /\ ok res = true /\ status res <> 429 /\
               json res = None).

(** X3. A transport failure (the fetch rejects, or the body of an ok reply
    cannot be parsed) is reported as an [APIError] with status 0 and
    [retryable = true], but the pipeline itself does not retry it: there is
    exactly one request and no sleep. *)
Theorem fetchAPI_transport_failure {T} this endpoint n (x : Exchange T) net env seen :
  isOffline env = false ->
  transport_failure x ->
  exists message,
    run (fetchAPI this endpoint n) (x :: net) env seen
    = {| outcome := Rejected (APIError 0 message true);
         final := later (elapsed x) (navigatorAfter x) env;
         trace := seen ++ [Requested (baseURL this +:+ endpoint)];
         unused := net |}.
Proof.
  intros Hoff [(thrown & Hres & Hnot)|(res & Hres & Hok & H429 & Hjson)].
  - destruct thrown; try discriminate; eexists; first_attempt Hoff;
      rewrite Hres; reflexivity.
  - eexists. first_attempt Hoff. rewrite Hres.
    destruct (Z.eqb_spec (status res) 429) as [E|_]; [contradiction|].
    rewrite Hok, Hjson. reflexivity.
Qed.

Lemma fetchAPI_transport_failure_witness :
  exists message,
    run (fetchAPI service "/leagues" 0)
      [{| reply := inr FetchTypeError; elapsed := 3;
          navigatorAfter := Some true |} : Exchange LeagueResponse]
      online_env []
    = {| outcome := Rejected (APIError 0 message true);
         final := later 3 (Some true) online_env;
         trace := [Requested "https://v3.football.api-sports.io/leagues"];
         unused := [] |}.
Proof.
  apply (fetchAPI_transport_failure service "/leagues" 0
           {| reply := inr FetchTypeError; elapsed := 3;
              navigatorAfter := Some true |} [] online_env [] eq_refl).
  left. exists FetchTypeError. split; reflexivity.
Defined.

Lemma run_fetchAPI_ok {T} this endpoint n (x : Exchange T) net env seen res data :
  isOffline env = false ->
  reply x = inl res -> ok res = true -> json res = Some data ->
  run (fetchAPI this endpoint n) (x :: net) env seen
  = {| outcome :=
         match errors data with
         | [] => Fulfilled (response data)
         | _ :: _ =>
             Rejected (APIError 400 "The API returned an error. Please try again."
                         false)
         end;
       final := later (elapsed x) (navigatorAfter x) env;
       trace := seen ++ [Requested (baseURL this +:+ endpoint)];
       unused := net |}.
Proof.
  intros Hoff Hres Hok Hjson. first_attempt Hoff. rewrite Hres.
  destruct (Z.eqb_spec (status res) 429) as [E|_].
  { unfold ok in Hok. rewrite E in Hok. discriminate. }
  rewrite Hok, Hjson. simpl. destruct (errors data); reflexivity.
Qed.

(** X4. An ok reply is settled by the error list of its body: empty, the
    request fulfils with the response array; not empty, it rejects with an
    [APIError] 400 that is not retryable, although the status line said
    success. One request either way, at any retry count. *)
Theorem fetchAPI_ok_reply {T} this endpoint n (x : Exchange T) net env seen res data :
  isOffline env = false ->
  reply x = inl res -> ok res = true -> json res = Some data ->
  let r := run (fetchAPI this endpoint n) (x :: net) env seen in
  (errors data = [] -> outcome r = Fulfilled (response data)) /\
  (errors data <> [] ->
   outcome r = Rejected (APIError 400 "The API returned an error. Please try again."
                           false)) /\
  trace r = seen ++ [Requested (baseURL this +:+ endpoint)] /\
  unused r = net.
Proof.
  intros Hoff Hres Hok Hjson r. subst r.
  rewrite (run_fetchAPI_ok this endpoint n x net env seen res data
             Hoff Hres Hok Hjson).
  cbn [outcome trace unused]. destruct (errors data); repeat split; congruence.
Qed.

Lemma fetchAPI_ok_reply_witness :
  outcome (run (fetchAPI service "/leagues" 0)
             [replies (T := LeagueResponse) 200
                (Some {| errors := ["token"]; response := [] |})]
             online_env [])
  = Rejected (APIError 400 "The API returned an error. Please try again." false).
Proof.
  destruct (fetchAPI_ok_reply (T := LeagueResponse) service "/leagues" 0
              (replies 200 (Some {| errors := ["token"]; response := [] |}))
              [] online_env []
              {| status := 200; statusText := ""; retryAfter := None;
                 json := Some {| errors := ["token"]; response := [] |} |}
              {| errors := ["token"]; response := [] |}
              eq_refl eq_refl eq_refl eq_refl) as (_ & Hbad & _).
  apply Hbad. discriminate.
Defined.

(** A reply the pipeline retries: 429, or a status from 500 upwards. *)
Definition retried {T} (x : Exchange T) : Prop :=
  exists res, reply x = inl res /\ (status res = 429 \/ 500 <= status res).

(** The sleep before the next attempt. *)
Definition delayOf {T} (n : nat) (x : Exchange T) : Z :=
  match reply x with
  | inl res => if status res =? 429 then handleRateLimit res n else backoff n
  | inr _ => 0
  end.

(** The events of a run of failed attempts, starting at retry count [n]. *)
Fixpoint retry_events {T} (url : string) (n : nat) (failed : list (Exchange T))
  : list Event :=
  match failed with
  | [] => []
  | x :: more => Requested url :: Slept (delayOf n x) :: retry_events url (S n) more
  end.

Lemma fetchAPI_retry {T} this endpoint n (x : Exchange T) net env seen :
  (n < MAX_RETRIES)%nat ->
  isOffline env = false ->
  retried x ->
  run (fetchAPI this endpoint n) (x :: net) env seen
  = on_rejection asAPIError
      (run (fetchAPI this endpoint (S n)) net
         (later (delayOf n x) (navigatorAfter x)
            (later (elapsed x) (navigatorAfter x) env))
         (seen ++ [Requested (baseURL this +:+ endpoint); Slept (delayOf n x)])).
Proof.
  intros Hn Hoff (res & Hres & Hstatus). first_attempt Hoff.
  unfold delayOf. rewrite Hres.
  replace (S n) with (n + 1)%nat by lia.
  destruct (Z.eqb_spec (status res) 429) as [E|Hne].
  - destruct (decide (n < MAX_RETRIES)%nat) as [_|Hge]; [|contradiction].
    cbn [run]. rewrite <- app_assoc. reflexivity.
  - assert (Hlo : 500 <= status res) by (destruct Hstatus; [contradiction|assumption]).
    unfold ok. replace (status res <=? 299) with false
      by (symmetry; apply Z.leb_gt; lia).
    rewrite andb_false_r. simpl negb. cbv iota.
    replace (500 <=? status res) with true by (symmetry; apply Z.leb_le; lia).
    destruct (decide (n < MAX_RETRIES)%nat) as [_|Hge]; [|contradiction].
    cbn [run]. rewrite <- app_assoc. reflexivity.
Qed.

Lemma fetchAPI_retries_spent {T} this endpoint n (x : Exchange T) net env seen :
  ~ (n < MAX_RETRIES)%nat ->
  isOffline env = false ->
  retried x ->
  exists res message,
    reply x = inl res /\
    run (fetchAPI this endpoint n) (x :: net) env seen
    = {| outcome := Rejected (APIError (status res) message true);
         final := later (elapsed x) (navigatorAfter x) env;
         trace := seen ++ [Requested (baseURL this +:+ endpoint)];
         unused := net |}.
Proof.
  intros Hn Hoff (res & Hres & Hstatus). exists res.
  destruct (handleAPIError_flag (T := T) (A := list T)
              (status res) (statusText res)) as [message Herr].
  assert (Hflag : retryableStatus (status res) = true).
  { unfold retryableStatus. apply orb_true_iff. destruct Hstatus as [E|Hlo].
    - left. apply Z.eqb_eq, E.
    - right. apply Z.leb_le, Hlo. }
  rewrite Hflag in Herr. exists message. split; [exact Hres|].
  first_attempt Hoff. rewrite Hres.
  destruct (Z.eqb_spec (status res) 429) as [E|Hne].
  - destruct (decide (n < MAX_RETRIES)%nat) as [Hlt|_]; [contradiction|].
    rewrite Herr. reflexivity.
  - assert (Hlo : 500 <= status res) by (destruct Hstatus; [contradiction|assumption]).
    unfold ok. replace (status res <=? 299) with false
      by (symmetry; apply Z.leb_gt; lia).
    rewrite andb_false_r. simpl negb. cbv iota.
    replace (500 <=? status res) with true by (symmetry; apply Z.leb_le; lia).
    destruct (decide (n < MAX_RETRIES)%nat) as [Hlt|_]; [contradiction|].
    rewrite Herr. reflexivity.
Qed.

(** An ok reply whose body has no errors and carries [payload]. *)
Definition succeeds {T} (x : Exchange T) (payload : list T) : Prop :=
  exists res data, reply x = inl res /\ ok res = true /\
                   json res = Some data /\ errors data = [] /\
                   response data = payload.

(** X5. Failed attempts followed by a good reply: when at most three
    retried replies (429 or 5xx, in any mix) come before an ok reply, the
    caller sees no error; the request fulfils with the payload after one
    request per reply, sleeping between them as the retry policy says, and
    the replies that follow are not consumed. *)
Theorem fetchAPI_recovers {T} this endpoint (failed : list (Exchange T)) :
  forall n (x : Exchange T) rest env seen payload,
    (n + length failed <= MAX_RETRIES)%nat ->
    isOffline env = false ->
    Forall retried failed -> Forall stays_online failed ->
    succeeds x payload ->
    let r := run (fetchAPI this endpoint n) (failed ++ x :: rest) env seen in
    outcome r = Fulfilled payload /\
    trace r = seen ++ retry_events (baseURL this +:+ endpoint) n failed
                   ++ [Requested (baseURL this +:+ endpoint)] /\
    unused r = rest.
Proof.
  induction failed as [|y failed IH];
    intros n x rest env seen payload Hn Hoff Hf Hon Hx r.
  - destruct Hx as (res & data & Hres & Hok & Hjson & Herrs & Hpay).
    subst r. simpl app.
    rewrite (run_fetchAPI_ok this endpoint n x rest env seen res data
               Hoff Hres Hok Hjson).
    rewrite Herrs, Hpay. auto.
  - apply Forall_cons in Hf as [Hy Hf]. apply Forall_cons in Hon as [Hony Hon].
    subst r. simpl app.
    rewrite (fetchAPI_retry this endpoint n y) by (auto; simpl in Hn; lia).
    specialize (IH (S n) x rest
                  (later (delayOf n y) (navigatorAfter y)
                     (later (elapsed y) (navigatorAfter y) env))
                  (seen ++ [Requested (baseURL this +:+ endpoint);
                            Slept (delayOf n y)])
                  payload ltac:(simpl in Hn; lia)
                  (stays_online_later y _ _ Hony) Hf Hon Hx).
    cbv zeta in IH. destruct IH as (Ho & Ht & Hu).
    unfold on_rejection. cbn [outcome trace unused].
    rewrite Ho, Ht, Hu. rewrite <- app_assoc. auto.
Qed.

Definition rateLimited (seconds : string) : Exchange LeagueResponse :=
  {| reply := inl {| status := 429; statusText := "Too Many Requests";
                     retryAfter := Some seconds; json := None |};
     elapsed := 20; navigatorAfter := Some true |}.

Lemma fetchAPI_recovers_witness :
  let r := run (fetchAPI service "/leagues" 0)
             [rateLimited "2"; rateLimited "";
              replies 200 (Some {| errors := []; response := [] |})]
             online_env [] in
  outcome r = Fulfilled [] /\
  trace r = [Requested "https://v3.football.api-sports.io/leagues"; Slept 2000;
             Requested "https://v3.football.api-sports.io/leagues"; Slept 2000;
             Requested "https://v3.football.api-sports.io/leagues"].
Proof.
  intros r.
  destruct (fetchAPI_recovers service "/leagues"
              [rateLimited "2"; rateLimited ""] 0
              (replies 200 (Some {| errors := []; response := [] |})) []
              online_env [] []) as (Ho & Ht & _).
  - simpl. unfold MAX_RETRIES. lia.
  - reflexivity.
  - repeat constructor; eexists; (split; [reflexivity|left; reflexivity]).
  - repeat constructor; discriminate.
  - eexists _, _. repeat split; reflexivity.
  - split; [exact Ho|exact Ht].
Defined.

(** X6. When the retries are used up: after [MAX_RETRIES - n] retried
    replies, one more (429 or 5xx) ends the request with an [APIError] of
    that last status and [retryable = true], whatever delays the
    Retry-After headers asked for. *)
Theorem fetchAPI_gives_up {T} this endpoint (failed : list (Exchange T)) :
  forall n (x : Exchange T) rest env seen,
    (n + length failed = MAX_RETRIES)%nat ->
    isOffline env = false ->
    Forall retried failed -> Forall stays_online failed ->
    retried x ->
    let r := run (fetchAPI this endpoint n) (failed ++ x :: rest) env seen in
    (exists res message,
       reply x = inl res /\
       outcome r = Rejected (APIError (status res) message true)) /\
    trace r = seen ++ retry_events (baseURL this +:+ endpoint) n failed
                   ++ [Requested (baseURL this +:+ endpoint)] /\
    unused r = rest.
Proof.
  induction failed as [|y failed IH]; intros n x rest env seen Hn Hoff Hf Hon Hx r.
  - subst r. simpl app. simpl in Hn.
    destruct (fetchAPI_retries_spent this endpoint n x rest env seen
                ltac:(lia) Hoff Hx) as (res & message & Hres & Hrun).
    rewrite Hrun. cbn [outcome trace unused]. eauto 6.
  - apply Forall_cons in Hf as [Hy Hf]. apply Forall_cons in Hon as [Hony Hon].
    subst r. simpl app.
    rewrite (fetchAPI_retry this endpoint n y) by (auto; simpl in Hn; lia).
    specialize (IH (S n) x rest
                  (later (delayOf n y) (navigatorAfter y)
                     (later (elapsed y) (navigatorAfter y) env))
                  (seen ++ [Requested (baseURL this +:+ endpoint);
                            Slept (delayOf n y)])
                  ltac:(simpl in Hn; lia)
                  (stays_online_later y _ _ Hony) Hf Hon Hx).
    cbv zeta in IH. destruct IH as ((res & message & Hres & Ho) & Ht & Hu).
    unfold on_rejection. cbn [outcome trace unused].
    rewrite Ho, Ht, Hu. rewrite <- app_assoc. eauto 6.
Qed.

Lemma fetchAPI_gives_up_witness :
  let r := run (fetchAPI service "/leagues" 0)
             [rateLimited "1"; rateLimited "1"; rateLimited "1"; rateLimited "1"]
             online_env [] in
  trace r = [Requested "https://v3.football.api-sports.io/leagues"; Slept 1000;
             Requested "https://v3.football.api-sports.io/leagues"; Slept 1000;
             Requested "https://v3.football.api-sports.io/leagues"; Slept 1000;
             Requested "https://v3.football.api-sports.io/leagues"].
Proof.
  intros r.
  destruct (fetchAPI_gives_up service "/leagues"
              [rateLimited "1"; rateLimited "1"; rateLimited "1"] 0
              (rateLimited "1") [] online_env []) as (_ & Ht & _).
  - reflexivity.
  - reflexivity.
  - repeat constructor; eexists; (split; [reflexivity|left; reflexivity]).
  - repeat constructor; discriminate.
  - eexists. split; [reflexivity|left; reflexivity].
  - exact Ht.
Defined.

Definition requests (events : list Event) : nat :=
  length (List.filter
            (fun e => match e with Requested _ => true | Slept _ => false end)
            events).

Definition sleeps (events : list Event) : nat :=
  length (List.filter
            (fun e => match e with Slept _ => true | Requested _ => false end)
            events).

Lemma fetchAPI_budget {T} this endpoint (budget n : nat) :
  (MAX_RETRIES - n <= budget)%nat ->
  forall (net : list (Exchange T)) env seen,
  exists added,
    trace (run (fetchAPI this endpoint n) net env seen) = seen ++ added /\
    (requests added <= S budget)%nat /\ (sleeps added <= budget)%nat /\
    Forall (fun e => match e with
                     | Requested url => url = baseURL this +:+ endpoint
                     | Slept _ => True
                     end) added.
Proof.
  revert n. induction budget as [|budget IH]; intros n Hn net env seen.
  all: rewrite fetchAPI_equation_1; cbv zeta; rewrite run_read_bind.
  all: destruct (isOffline env);
    [exists []; rewrite app_nil_r; unfold requests, sleeps;
     repeat split; simpl; try lia; constructor|].
  all: rewrite (run_try_catch asAPIError) by (intros e; apply catch_block).
  all: unfold on_rejection; cbn [trace].
  all: assert (Hone : exists added,
                 seen ++ [Requested (baseURL this +:+ endpoint)] = seen ++ added /\
                 (requests added <= 1)%nat /\ (sleeps added <= 0)%nat /\
                 Forall (fun e => match e with
                                  | Requested url => url = baseURL this +:+ endpoint
                                  | Slept _ => True
                                  end) added)
         by (eexists; split; [reflexivity|];
             unfold requests, sleeps; repeat split; simpl; try lia;
             repeat constructor).
  all: destruct net as [|x net']; cbn [run trace].
  all: try destruct (reply x) as [res|thrown].
  all: try destruct (handleAPIError_flag (T := T) (A := list T)
                       (status res) (statusText res)) as [message He].
  all: try destruct (status res =? 429).
  all: try destruct (negb (ok res)); try destruct (500 <=? status res).
  all: try destruct (decide (n < MAX_RETRIES)%nat) as [Hlt|Hge].
  all: rewrite ?He; cbn [run trace].
  all: try destruct (json res) as [data|].
  all: try destruct (0 <? length (errors data))%nat.
  all: cbn [run trace].
  all: try (destruct Hone as (added & E & Hr & Hs & Hall);
            exists added; repeat split; try assumption; lia).
  all: try (exfalso; unfold MAX_RETRIES in *; lia).
  all: match goal with
       | |- context [run (fetchAPI _ _ ?k) ?nn ?ee (?ss ++ [Slept ?d])] =>
           let Hk := fresh "Hk" in
           assert (Hk : (MAX_RETRIES - k <= budget)%nat) by lia;
           destruct (IH k Hk nn ee (ss ++ [Slept d]))
             as (added & -> & Hr & Hs & Hall);
           exists (Requested (baseURL this +:+ endpoint) :: Slept d :: added);
           rewrite <- !app_assoc; split; [reflexivity|];
           unfold requests, sleeps in *; simpl;
           repeat split; try lia; repeat constructor; exact Hall
       end.
Qed.

(** X7. Whatever the network answers, one call of [fetchAPI] at retry
    count [n] sends at most [MAX_RETRIES - n + 1] requests (four for a
    fresh call), all to its own URL, and sleeps at most [MAX_RETRIES - n]
    times; it only adds to the events already seen. *)
Theorem fetchAPI_bounded {T} this endpoint n (net : list (Exchange T)) env seen :
  exists added,
    trace (run (fetchAPI this endpoint n) net env seen) = seen ++ added /\
    (requests added <= MAX_RETRIES - n + 1)%nat /\
    (sleeps added <= MAX_RETRIES - n)%nat /\
    (forall url, In (Requested url) added -> url = baseURL this +:+ endpoint).
Proof.
  destruct (fetchAPI_budget this endpoint (MAX_RETRIES - n) n (le_n _) net env seen)
    as (added & E & Hr & Hs & Hall).
  exists added. repeat split; try assumption; try lia.
  intros url Hin. exact (proj1 (List.Forall_forall _ _) Hall _ Hin).
Qed.

(** X8. [fetchAPI] reads the clock and the connectivity signal only:
    whatever the network answers and however the call ends, local storage
    and the map of pending requests are as it found them. *)
Theorem fetchAPI_reads_only {T} this endpoint n (net : list (Exchange T)) env seen :
  localStorage (final (run (fetchAPI this endpoint n) net env seen))
  = localStorage env /\
  pendingRequests (final (run (fetchAPI this endpoint n) net env seen))
  = pendingRequests env.
Proof.
  apply (LineupFacts.fetchAPI_keeps_state this endpoint (MAX_RETRIES - n) n). lia.
Qed.

(** Reading back the digits of a decimal numeral. *)
Lemma leading_digits_acc d p :
  leading_digits (NilEmpty.string_of_uint d) (Some (Z.pos p))
  = Some (Z.pos (Pos.of_uint_acc d p)).
Proof.
  revert p. induction d; intros p; simpl; try reflexivity;
    rewrite <- IHd; f_equal; f_equal; lia.
Qed.

Lemma leading_digits_zero d :
  leading_digits (NilEmpty.string_of_uint d) (Some 0)
  = Some (Z.of_N (Pos.of_uint d)).
Proof.
  induction d; simpl; try reflexivity; try exact IHd;
    rewrite <- leading_digits_acc; reflexivity.
Qed.

Lemma leading_digits_numeral d :
  d <> Decimal.Nil ->
  leading_digits (NilEmpty.string_of_uint d) None = Some (Z.of_N (Pos.of_uint d)).
Proof.
  destruct d; intros Hd; try congruence; simpl;
    try apply leading_digits_zero; rewrite <- leading_digits_acc; reflexivity.
Qed.

Lemma parseInt10_toString n : parseInt10 (toString n) = Num (Z.of_N n).
Proof.
  pose proof (GridFacts.to_uint_not_nil n) as Hnil.
  pose proof (DecimalN.Unsigned.of_to n) as Hback.
  pose proof (leading_digits_numeral (N.to_uint n) Hnil) as Hread.
  unfold N.of_uint in Hback. rewrite Hback in Hread.
  unfold toString, NilZero.string_of_uint.
  destruct (N.to_uint n) eqn:E; try congruence;
    unfold parseInt10; simpl skip_spaces; cbv iota beta;
    simpl in Hread |- *; rewrite Hread; reflexivity.
Qed.

(** X9. The delay after a 429, for a retry count the pipeline can reach
    and a number of seconds whose milliseconds a JS number holds exactly: a
    Retry-After header holding the decimal numeral of [seconds] gives
    [seconds * 1000] milliseconds, whatever the retry count; without the
    header, or with an empty one, the delay is the exponential backoff
    [1000 * 2 ^ retryCount]. *)
Theorem handleRateLimit_delay {T} statusCode text (body : option (APIResponse T))
    (seconds : N) (retryCount : nat) :
  Z.of_N seconds * 1000 <= 2 ^ 53 ->
  (retryCount <= MAX_RETRIES)%nat ->
  handleRateLimit {| status := statusCode; statusText := text;
                     retryAfter := Some (toString seconds); json := body |}
    retryCount = Z.of_N seconds * 1000 /\
  handleRateLimit {| status := statusCode; statusText := text;
                     retryAfter := None; json := body |}
    retryCount = 1000 * 2 ^ Z.of_nat retryCount /\
  handleRateLimit {| status := statusCode; statusText := text;
                     retryAfter := Some ""; json := body |}
    retryCount = 1000 * 2 ^ Z.of_nat retryCount.
Proof.
  intros _ _. unfold handleRateLimit. cbn [retryAfter]. repeat split.
  rewrite parseInt10_toString.
  destruct (String.eqb_spec (toString seconds) "") as [E|_]; [|reflexivity].
  destruct (GridFacts.toString_nonempty seconds E).
Qed.

Lemma handleRateLimit_delay_witness :
  handleRateLimit (T := LeagueResponse)
    {| status := 429; statusText := ""; retryAfter := Some "120"; json := None |} 2
  = 120000 /\
  handleRateLimit (T := LeagueResponse)
    {| status := 429; statusText := ""; retryAfter := None; json := None |} 2
  = 4000.
Proof.
  destruct (handleRateLimit_delay (T := LeagueResponse) 429 "" None 120 2)
    as (Hheader & Hnone & _).
  - vm_compute. discriminate.
  - unfold MAX_RETRIES. lia.
  - split; [exact Hheader|exact Hnone].
Defined.

End RetryMore.

(** ** More on the cache in local storage *)

Module CacheFacts.
Import Storage StorageFacts.

Section Cache.
Context {D : Type}.
Implicit Types (ls : LocalStorage D) (e : CacheEntry D).

Lemma prefixed_not_testKey k : String.prefix CACHE_PREFIX k = true -> k <> testKey.
Proof. intros Hk ->. discriminate. Qed.

Lemma clearExpiredCache_items now ls ls1 :
  isAvailable ls = (true, ls1) ->
  items (clearExpiredCache now ls)
  = filter (fun kv => stale now kv.1 kv.2 = false) (delete testKey (items ls)).
Proof.
  intros Hav. unfold clearExpiredCache. rewrite Hav.
  destruct (isAvailable_true _ _ Hav) as (_ & _ & ->). reflexivity.
Qed.

Lemma clearExpiredCache_unavailable now ls ls1 :
  isAvailable ls = (false, ls1) -> clearExpiredCache now ls = ls.
Proof.
  intros Hav. unfold clearExpiredCache. rewrite Hav.
  apply (isAvailable_false _ _ Hav).
Qed.

(** X10. [clearExpiredCache] adds nothing; it keeps every slot outside the
    cache prefix (the saved game among them; the availability probe's own
    key apart) and every cache entry that has not expired; and when the
    storage is available it removes each expired entry and each text under
    the prefix that does not parse. *)
Theorem clearExpiredCache_spec now ls :
  let ls' := clearExpiredCache now ls in
  items ls' ⊆ items ls /\
  (forall k, k <> testKey -> String.prefix CACHE_PREFIX k = false ->
             items ls' !! k = items ls !! k) /\
  (forall k e, k <> testKey -> items ls !! k = Some (EntryJSON e) ->
               now - timestamp e < ttl e ->
               items ls' !! k = Some (EntryJSON e)) /\
  ((isAvailable ls).1 = true ->
   forall k, String.prefix CACHE_PREFIX k = true ->
     (forall e, items ls !! k = Some (EntryJSON e) ->
                ttl e <= now - timestamp e -> items ls' !! k = None) /\
     (forall s, items ls !! k = Some (Text s) -> s <> EmptyString ->
                items ls' !! k = None)).
Proof.
  intros ls'. subst ls'. destruct (isAvailable ls) as [ok ls1] eqn:Hav.
  destruct ok.
  - rewrite (clearExpiredCache_items now ls ls1 Hav).
    split; [|split; [|split]].
    + etrans; [apply map_filter_subseteq|apply delete_subseteq].
    + intros k Hk Hpre. destruct (items ls !! k) as [v|] eqn:Hv.
      * apply map_lookup_filter_Some. rewrite lookup_delete_ne by congruence.
        split; [exact Hv|]. unfold stale. simpl. rewrite Hpre. reflexivity.
      * apply map_lookup_filter_None. left.
        rewrite lookup_delete_ne by congruence. exact Hv.
    + intros k e Hk Hv Hfresh. apply map_lookup_filter_Some.
      rewrite lookup_delete_ne by congruence. split; [exact Hv|].
      unfold stale, expired. simpl.
      replace (ttl e <=? now - timestamp e) with false
        by (symmetry; apply Z.leb_gt; lia).
      apply andb_false_r.
    + intros _ k Hpre. pose proof (prefixed_not_testKey k Hpre) as Hk. split.
      * intros e Hv Hold. apply map_lookup_filter_None. right. intros v.
        rewrite lookup_delete_ne by congruence. rewrite Hv. intros [= <-].
        unfold stale, expired. simpl. rewrite Hpre.
        replace (ttl e <=? now - timestamp e) with true
          by (symmetry; apply Z.leb_le; lia).
        discriminate.
      * intros s Hv Hs. apply map_lookup_filter_None. right. intros v.
        rewrite lookup_delete_ne by congruence. rewrite Hv. intros [= <-].
        unfold stale. simpl. rewrite Hpre. destruct s; [congruence|discriminate].
  - rewrite (clearExpiredCache_unavailable now ls ls1 Hav).
    split; [reflexivity|]. split; [reflexivity|]. split; [auto|].
    simpl. discriminate.
Qed.

Lemma clearAllCache_items ls ls1 :
  isAvailable ls = (true, ls1) ->
  items (clearAllCache ls)
  = filter (fun kv => String.prefix CACHE_PREFIX kv.1 = false)
      (delete testKey (items ls)).
Proof.
  intros Hav. unfold clearAllCache. rewrite Hav.
  destruct (isAvailable_true _ _ Hav) as (_ & _ & ->). reflexivity.
Qed.

(** X11. [clearAllCache] keeps the saved game and every other slot outside
    the cache prefix (the probe's key apart), adds nothing, and leaves no
    cache entry to be found: after it every [getCacheEntry] reports
    absence, for any key and at any time. *)
Theorem clearAllCache_spec ls :
  let ls' := clearAllCache ls in
  items ls' ⊆ items ls /\
  items ls' !! GAME_STATE_KEY = items ls !! GAME_STATE_KEY /\
  (forall k, k <> testKey -> String.prefix CACHE_PREFIX k = false ->
             items ls' !! k = items ls !! k) /\
  (forall key now, (getCacheEntry key now ls').1 = None).
Proof.
  intros ls'. subst ls'.
  assert (Hkeep : isAvailable ls = (true, (isAvailable ls).2) ->
            forall k, k <> testKey -> String.prefix CACHE_PREFIX k = false ->
                      items (clearAllCache ls) !! k = items ls !! k).
  { intros Hav k Hk Hpre. rewrite (clearAllCache_items ls _ Hav).
    destruct (items ls !! k) as [v|] eqn:Hv.
    - apply map_lookup_filter_Some. rewrite lookup_delete_ne by congruence.
      split; [exact Hv|exact Hpre].
    - apply map_lookup_filter_None. left.
      rewrite lookup_delete_ne by congruence. exact Hv. }
  destruct (isAvailable ls) as [ok ls1] eqn:Hav. destruct ok.
  - simpl in Hkeep. split; [|split; [|split]].
    + rewrite (clearAllCache_items ls ls1 Hav).
      etrans; [apply map_filter_subseteq|apply delete_subseteq].
    + apply (Hkeep eq_refl); [discriminate|reflexivity].
    + exact (Hkeep eq_refl).
    + intros key now. unfold getCacheEntry.
      destruct (isAvailable (clearAllCache ls)) as [ok2 ls2] eqn:Hav2.
      destruct ok2; [|reflexivity].
      destruct (isAvailable_true _ _ Hav2) as (Hu & _ & ->).
      unfold getItem. cbn [usable with_items items]. rewrite Hu.
      rewrite lookup_delete_ne by (apply not_eq_sym, cacheKey_not_testKey).
      rewrite (clearAllCache_items ls ls1 Hav).
      replace (filter _ _ !! cacheKey key) with (@None (Item D)); [reflexivity|].
      symmetry. apply map_lookup_filter_None. right. intros v _.
      unfold cacheKey, CACHE_PREFIX. simpl. destruct key; discriminate.
  - assert (Hsame : clearAllCache ls = ls).
    { unfold clearAllCache. rewrite Hav. apply (isAvailable_false _ _ Hav). }
    rewrite Hsame. repeat split; try reflexivity.
    intros key now. unfold getCacheEntry. rewrite Hav. reflexivity.
Qed.

(** The storage contents [saveCacheEntry] can leave behind. *)
Lemma saveCacheEntry_cases key (d : D) t now ls :
  let written := EntryJSON (mkEntry d now t) in
  let probed := delete testKey (items ls) in
  let kept := filter (fun kv => stale now kv.1 kv.2 = false) probed in
  let m := items (saveCacheEntry key d t now ls) in
  m = items ls \/ m = probed \/ m = <[cacheKey key := written]> probed \/
  m = kept \/ m = <[cacheKey key := written]> kept.
Proof.
  intros written probed kept m. subst m. unfold saveCacheEntry.
  destruct (isAvailable ls) as [ok ls1] eqn:Hav. destruct ok.
  - pose proof (isAvailable_again _ _ Hav) as Hav1.
    destruct (isAvailable_true _ _ Hav) as (Hu & _ & Hls1).
    assert (Hitems : items ls1 = probed) by (subst ls1; reflexivity).
    assert (Hu1 : usable ls1 = true) by (subst ls1; exact Hu).
    fold written. unfold setItem. rewrite Hu1.
    destruct (room ls1 (<[cacheKey key := written]> (items ls1))).
    + right. right. left. cbn [items with_items]. rewrite Hitems. reflexivity.
    + assert (Hkept : items (clearExpiredCache now ls1) = kept).
      { rewrite (clearExpiredCache_items now ls1 ls1 Hav1), Hitems.
        unfold kept, probed. rewrite delete_delete_eq. reflexivity. }
      assert (Hu2 : usable (clearExpiredCache now ls1) = true).
      { unfold clearExpiredCache. rewrite Hav1. exact Hu1. }
      rewrite Hu2.
      destruct (room (clearExpiredCache now ls1) _).
      * right. right. right. right. cbn [items with_items]. rewrite Hkept.
        reflexivity.
      * right. right. right. left. exact Hkept.
  - left. rewrite (isAvailable_false _ _ Hav). reflexivity.
Qed.

(** X12. [saveCacheEntry] touches the cache only: whatever the state of
    the storage (unusable, full), every slot outside the cache prefix, the
    saved game among them, is as before (the probe's key apart); no other
    slot gains or changes a value; and the entry's own slot holds the new
    entry or what it held before. An unusable storage is left as it is. *)
Theorem saveCacheEntry_frame key (d : D) t now ls :
  let ls' := saveCacheEntry key d t now ls in
  (usable ls = false -> ls' = ls) /\
  (forall k, k <> testKey -> String.prefix CACHE_PREFIX k = false ->
             items ls' !! k = items ls !! k) /\
  (forall k v, k <> cacheKey key -> items ls' !! k = Some v ->
               items ls !! k = Some v) /\
  (forall v, items ls' !! cacheKey key = Some v ->
             v = EntryJSON (mkEntry d now t) \/ items ls !! cacheKey key = Some v).
Proof.
  intros ls'. subst ls'.
  assert (Hnot : forall k, String.prefix CACHE_PREFIX k = false -> k <> cacheKey key).
  { intros k Hpre ->. unfold cacheKey, CACHE_PREFIX in Hpre. simpl in Hpre.
    destruct key; discriminate. }
  assert (Hfilter : forall k v,
            filter (fun kv : string * Item D => stale now kv.1 kv.2 = false)
              (delete testKey (items ls)) !! k = Some v ->
            items ls !! k = Some v).
  { intros k v Hv. apply map_lookup_filter_Some in Hv as [Hv _].
    apply lookup_delete_Some in Hv as [_ Hv]. exact Hv. }
  assert (Hkeep : forall k, k <> testKey -> String.prefix CACHE_PREFIX k = false ->
            filter (fun kv : string * Item D => stale now kv.1 kv.2 = false)
              (delete testKey (items ls)) !! k = items ls !! k).
  { intros k Hk Hpre. destruct (items ls !! k) as [v|] eqn:Hv.
    - apply map_lookup_filter_Some. rewrite lookup_delete_ne by congruence.
      split; [exact Hv|]. unfold stale. simpl. rewrite Hpre. reflexivity.
    - apply map_lookup_filter_None. left.
      rewrite lookup_delete_ne by congruence. exact Hv. }
  split; [|split; [|split]].
  - intros Hu. unfold saveCacheEntry, isAvailable, setItem. rewrite Hu. reflexivity.
  - intros k Hk Hpre. pose proof (Hnot k Hpre) as Hck.
    destruct (saveCacheEntry_cases key d t now ls) as [E|[E|[E|[E|E]]]];
      rewrite E; rewrite ?lookup_insert_ne by congruence;
      rewrite ?Hkeep by assumption; rewrite ?lookup_delete_ne by congruence;
      reflexivity.
  - intros k v Hk.
    destruct (saveCacheEntry_cases key d t now ls) as [E|[E|[E|[E|E]]]];
      rewrite E; rewrite ?lookup_insert_ne by congruence; intros Hv;
      try (apply Hfilter; exact Hv);
      try (apply lookup_delete_Some in Hv as [_ Hv]); exact Hv.
  - intros v.
    destruct (saveCacheEntry_cases key d t now ls) as [E|[E|[E|[E|E]]]];
      rewrite E; rewrite ?lookup_insert_eq; intros Hv;
      try (left; congruence); right;
      try (apply Hfilter; exact Hv);
      try (apply lookup_delete_Some in Hv as [_ Hv]); exact Hv.
Qed.

(** X13. When the quota is exceeded: if the entry does not fit, the
    expired cache entries are cleared and the write is tried once more; the
    storage then holds the unexpired slots, with the new entry when it fits
    now and without it otherwise. *)
Theorem saveCacheEntry_quota_retry key (d : D) t now ls :
  let written := EntryJSON (mkEntry d now t) in
  let kept := filter (fun kv => stale now kv.1 kv.2 = false)
                (delete testKey (items ls)) in
  usable ls = true ->
  room ls (<[testKey := Text "test"]> (items ls)) = true ->
  room ls (<[cacheKey key := written]> (delete testKey (items ls))) = false ->
  items (saveCacheEntry key d t now ls)
  = if room ls (<[cacheKey key := written]> kept)
    then <[cacheKey key := written]> kept else kept.
Proof.
  intros written kept Hu Hprobe Hfull. unfold saveCacheEntry.
  pose proof (isAvailable_probe ls Hu Hprobe) as Hav.
  pose proof (isAvailable_again _ _ Hav) as Hav1.
  rewrite Hav. fold written. unfold setItem. cbn [usable room items with_items].
  rewrite Hu, Hfull.
  assert (Hkept : items (clearExpiredCache now
                           (with_items ls (delete testKey (items ls)))) = kept).
  { rewrite (clearExpiredCache_items now _ _ Hav1). cbn [items with_items].
    rewrite delete_delete_eq. reflexivity. }
  unfold clearExpiredCache in *. rewrite Hav1 in *.
  cbn [usable room items with_items] in *. rewrite Hu, Hkept.
  destruct (room ls (<[cacheKey key := written]> kept)); reflexivity.
Qed.

End Cache.

(** A storage in which the old and the new league entries do not fit
    together. *)
Definition tightStorage : LocalStorage nat :=
  {| usable := true;
     room := fun m => negb (bool_decide (is_Some (m !! cacheKey "old"))
                            && bool_decide (is_Some (m !! cacheKey "new")));
     items := {[ cacheKey "old" := EntryJSON (mkEntry 1%nat 0 10) ]} |}.

Lemma saveCacheEntry_quota_retry_witness :
  items (saveCacheEntry "new" 2%nat 50 100 tightStorage)
  = {[ cacheKey "new" := EntryJSON (mkEntry 2%nat 100 50) ]}.
Proof.
  rewrite (saveCacheEntry_quota_retry "new" 2%nat 50 100 tightStorage
             eq_refl eq_refl eq_refl).
  vm_compute. reflexivity.
Defined.

End CacheFacts.

(** ** Properties of the cached operations *)

Module OperationFacts.
Import JS Storage Async API RetryFacts LineupFacts.

(** *** The sort *)

Section Sort.
Context {A : Type} (compare : A -> A -> JS.number) (key : A -> Z).
Context (good : A -> Prop).
Hypothesis compare_key :
  forall a b, good a -> good b -> compare a b = Num (key a - key b).

Lemma insert_sorted_Permutation x l :
  Permutation (insert_sorted compare x l) (x :: l).
Proof.
  induction l as [|y rest IH]; cbn [insert_sorted]; [reflexivity|].
  destruct (JS.lt (Num 0) (compare y x)); [reflexivity|].
  rewrite IH. apply perm_swap.
Qed.

Lemma sort_from_Permutation l : forall acc,
  Permutation (foldl (fun sorted x => insert_sorted compare x sorted) acc l)
    (acc ++ l).
Proof.
  induction l as [|x l IH]; intros acc; simpl.
  - rewrite app_nil_r. reflexivity.
  - rewrite IH, insert_sorted_Permutation. simpl.
    apply Permutation_middle.
Qed.

Lemma sort_Permutation l : Permutation (sort compare l) l.
Proof. apply (sort_from_Permutation l []). Qed.

Lemma insert_sorted_sorted x l :
  good x -> Forall good l ->
  StronglySorted (fun a b => key a <= key b) l ->
  StronglySorted (fun a b => key a <= key b) (insert_sorted compare x l).
Proof.
  intros Hx Hl Hs. induction Hs as [|y rest Hs IH Hy]; cbn [insert_sorted].
  - repeat constructor.
  - apply Forall_cons in Hl as [Hgy Hl].
    rewrite (compare_key y x Hgy Hx). cbn [JS.lt].
    destruct (Z.ltb_spec 0 (key y - key x)) as [Hlt|Hge].
    + constructor; [constructor; assumption|].
      constructor; [lia|]. eapply Forall_impl; [exact Hy|].
      simpl. intros b Hb. lia.
    + constructor; [apply IH; exact Hl|].
      rewrite insert_sorted_Permutation. constructor; [lia|exact Hy].
Qed.

Lemma sort_from_sorted l : forall acc,
  Forall good acc -> Forall good l ->
  StronglySorted (fun a b => key a <= key b) acc ->
  StronglySorted (fun a b => key a <= key b)
    (foldl (fun sorted x => insert_sorted compare x sorted) acc l).
Proof.
  induction l as [|x l IH]; intros acc Hacc Hl Hs; simpl; [exact Hs|].
  apply Forall_cons in Hl as [Hx Hl]. apply IH.
  - rewrite insert_sorted_Permutation. constructor; assumption.
  - exact Hl.
  - apply insert_sorted_sorted; assumption.
Qed.

Lemma sort_sorted l :
  Forall good l -> StronglySorted (fun a b => key a <= key b) (sort compare l).
Proof. intros Hl. apply sort_from_sorted; [constructor|exact Hl|constructor]. Qed.

End Sort.

Lemma StronglySorted_weaken {A} (R R' : A -> A -> Prop) (l : list A) :
  (forall a b, R a b -> R' a b) -> StronglySorted R l -> StronglySorted R' l.
Proof.
  intros HR Hs. induction Hs as [|a l Hs IH Ha]; constructor; [exact IH|].
  eapply Forall_impl; [exact Ha|]. exact (HR a).
Qed.

(** *** The shape the four cached operations share *)

Lemma run_cached {T} this key url (rest : list T -> Task T Payload)
    (net : list (Exchange T)) env :
  let lookup := getCacheEntry key (now env) (localStorage env) in
  run (cached ← storageService_getCacheEntry key;
       match cached with
       | Some hit => Return hit
       | None => response ← await (fetchAPI this url 0); rest response
       end) net env []
  = match lookup.1 with
    | Some hit => {| outcome := Fulfilled hit; final := with_storage lookup.2 env;
                     trace := []; unused := net |}
    | None =>
        and_then (run (fetchAPI this url 0) net (with_storage lookup.2 env) [])
          (fun response => run (rest response))
    end.
Proof.
  intros lookup. rewrite run_getCacheEntry_bind. fold lookup.
  destruct lookup.1 as [hit|]; [reflexivity|].
  rewrite run_bind, run_await. reflexivity.
Qed.

(** *** Fixtures *)

Definition fixturesKey (teamId season : N) : string :=
  "fixtures-" +:+ toString teamId +:+ "-" +:+ toString season.

Definition fixturesURL (teamId season : N) : string :=
  "/fixtures?team=" +:+ toString teamId +:+ "&season=" +:+ toString season.

Definition toFixture (item : FixtureResponse) : Fixture :=
  {| fixture_id := fr_id item; fixture_date := fr_date item;
     fixture_homeTeam := fr_home item; fixture_awayTeam := fr_away item;
     fixture_score := toString (fr_goals_home item) +:+ "-"
                      +:+ toString (fr_goals_away item);
     fixture_competition := fr_league item;
     fixture_venue := fr_venue item;
     fixture_status := fr_status item |}.

(** The kick-off time of a fixture whose date parses. *)
Definition kickoff (getTime : string -> JS.number) (f : Fixture) : Z :=
  match getTime (fixture_date f) with Num z => z | NaN => 0 end.

(** X14. On a cache miss with a delivered payload, [getFixtures] fulfils
    with the finished matches only (status "FT"), each payload entry once,
    converted; when every date parses they are in chronological order; and
    that list is what it stores under the fixtures key, for thirty days. *)
Theorem getFixtures_finished_sorted getTime this (teamId season : N)
    (net : list (Exchange FixtureResponse)) env payload :
  let lookup := getCacheEntry (fixturesKey teamId season) (now env)
                  (localStorage env) in
  let fetched := run (fetchAPI this (fixturesURL teamId season) 0) net
                   (with_storage lookup.2 env) [] in
  lookup.1 = None ->
  outcome fetched = Fulfilled payload ->
  exists fixtures,
    let r := run (getFixtures getTime this teamId season) net env [] in
    outcome r = Fulfilled (Fixtures fixtures) /\
    Permutation fixtures
      (map toFixture (filter (fun item => fr_status item = "FT") payload)) /\
    Forall (fun f => fixture_status f = "FT") fixtures /\
    (Forall (fun item => getTime (fr_date item) <> NaN) payload ->
     StronglySorted (fun a b => kickoff getTime a <= kickoff getTime b) fixtures) /\
    localStorage (final r)
    = saveCacheEntry (fixturesKey teamId season) (Fixtures fixtures)
        CACHE_TTL_30_DAYS (now (final fetched)) (localStorage (final fetched)) /\
    trace r = trace fetched.
Proof.
  intros lookup fetched Hmiss Hfetch.
  set (compare := fun a b : Fixture =>
                    JS.sub (getTime (fixture_date a)) (getTime (fixture_date b))).
  set (finished := map toFixture
                     (filter (fun item => fr_status item = "FT") payload)).
  exists (sort compare finished). cbv zeta.
  unfold getFixtures. cbv zeta.
  fold (fixturesKey teamId season) (fixturesURL teamId season).
  rewrite (run_cached this (fixturesKey teamId season) (fixturesURL teamId season)).
  fold lookup. rewrite Hmiss. fold fetched. unfold and_then. rewrite Hfetch.
  assert (Hperm : Permutation (sort compare finished) finished)
    by apply sort_Permutation.
  assert (Hft : Forall (fun f => fixture_status f = "FT") finished).
  { unfold finished. apply Forall_map. apply Forall_forall.
    intros item Hin. apply list_elem_of_filter in Hin as [Hft _]. exact Hft. }
  split; [reflexivity|]. split; [exact Hperm|].
  split; [rewrite Hperm; exact Hft|].
  split; [|split; reflexivity].
  intros Hdates.
  apply (sort_sorted compare (kickoff getTime)
           (fun f => getTime (fixture_date f) <> NaN)).
  - intros a b Ha Hb. unfold compare, kickoff.
    destruct (getTime (fixture_date a)); [|congruence].
    destruct (getTime (fixture_date b)); [|congruence]. reflexivity.
  - unfold finished. apply Forall_map. apply Forall_forall.
    intros item Hin. apply list_elem_of_filter in Hin as [_ Hin].
    rewrite Forall_forall in Hdates. exact (Hdates item Hin).
Qed.

(** Three fixtures of team 33, the second one not finished, the third
    one played before the first. *)
Definition clock (date : string) : JS.number :=
  if String.eqb date "2023-08-12" then Num 1691798400000
  else if String.eqb date "2023-08-19" then Num 1692403200000
  else if String.eqb date "2023-08-05" then Num 1691193600000
  else NaN.

Definition match_ (id : N) (date status : string) : FixtureResponse :=
  {| fr_id := id; fr_date := date; fr_venue := "Ground"; fr_status := status;
     fr_home := {| side_id := 33; side_name := "Home"; side_logo := "" |};
     fr_away := {| side_id := 34; side_name := "Away"; side_logo := "" |};
     fr_goals_home := 2; fr_goals_away := 1; fr_league := "League" |}.

Definition threeMatches : list FixtureResponse :=
  [match_ 10 "2023-08-12" "FT"; match_ 11 "2023-08-19" "NS";
   match_ 12 "2023-08-05" "FT"].

Lemma getFixtures_finished_sorted_witness :
  exists fixtures,
    outcome (run (getFixtures clock service 33 2023)
               [replies 200 (Some {| errors := []; response := threeMatches |})]
               online_env [])
    = Fulfilled (Fixtures fixtures) /\
    map fixture_id fixtures = [12%N; 10%N] /\
    StronglySorted (fun a b => kickoff clock a <= kickoff clock b) fixtures.
Proof.
  destruct (getFixtures_finished_sorted clock service 33 2023
              [replies 200 (Some {| errors := []; response := threeMatches |})]
              online_env threeMatches eq_refl eq_refl)
    as (fixtures & Ho & _ & _ & Hsorted & _).
  exists fixtures. split; [exact Ho|]. split.
  - vm_compute in Ho. injection Ho as <-. reflexivity.
  - apply Hsorted. repeat constructor; vm_compute; discriminate.
Defined.

(** *** Seasons *)

Definition seasonsKey (leagueId : N) : string := "seasons-" +:+ toString leagueId.

Definition seasonsURL (leagueId : N) : string := "/leagues?id=" +:+ toString leagueId.

Definition toSeason (leagueData : LeagueResponse) (season : SeasonInfo) : Season :=
  {| season_year := si_year season;
     season_leagueId := lr_id leagueData;
     season_leagueName := lr_name leagueData;
     season_start := si_start season;
     season_end := si_end season;
     season_hasLineups := si_lineups season |}.

(** X15. On a cache miss with a delivered payload, [getLeagueSeasons]
    looks at the first entry only: without one it fulfils with the empty
    list and stores nothing; with one it fulfils with that league's seasons
    that have lineup coverage, each once, most recent year first, and
    stores that list under the seasons key. *)
Theorem getLeagueSeasons_covered_sorted this (leagueId : N)
    (net : list (Exchange LeagueResponse)) env payload :
  let lookup := getCacheEntry (seasonsKey leagueId) (now env) (localStorage env) in
  let fetched := run (fetchAPI this (seasonsURL leagueId) 0) net
                   (with_storage lookup.2 env) [] in
  let r := run (getLeagueSeasons this leagueId) net env [] in
  lookup.1 = None ->
  outcome fetched = Fulfilled payload ->
  (payload = [] ->
   outcome r = Fulfilled (Seasons []) /\ final r = final fetched) /\
  (forall leagueData others, payload = leagueData :: others ->
   exists seasons,
     outcome r = Fulfilled (Seasons seasons) /\
     Permutation seasons
       (map (toSeason leagueData)
          (filter (fun season => si_lineups season = true) (lr_seasons leagueData))) /\
     Forall (fun season => season_hasLineups season = true) seasons /\
     StronglySorted (fun a b => (season_year b <= season_year a)%N) seasons /\
     localStorage (final r)
     = saveCacheEntry (seasonsKey leagueId) (Seasons seasons) CACHE_TTL_30_DAYS
         (now (final fetched)) (localStorage (final fetched))).
Proof.
  intros lookup fetched r Hmiss Hfetch. subst r.
  unfold getLeagueSeasons. cbv zeta.
  fold (seasonsKey leagueId) (seasonsURL leagueId).
  rewrite (run_cached this (seasonsKey leagueId) (seasonsURL leagueId)).
  fold lookup. rewrite Hmiss. fold fetched. unfold and_then. rewrite Hfetch.
  split.
  - intros ->. split; reflexivity.
  - intros leagueData others ->.
    set (compare := fun a b : Season =>
                      Num (Z.of_N (season_year b) - Z.of_N (season_year a))).
    set (covered := map (toSeason leagueData)
                      (filter (fun season => si_lineups season = true)
                         (lr_seasons leagueData))).
    exists (sort compare covered).
    assert (Hperm : Permutation (sort compare covered) covered)
      by apply sort_Permutation.
    split; [reflexivity|]. split; [exact Hperm|]. split; [|split; [|reflexivity]].
    + rewrite Hperm. unfold covered. apply Forall_map. apply Forall_forall.
      intros season Hin. apply list_elem_of_filter in Hin as [Hcov _]. exact Hcov.
    + assert (Hs : StronglySorted
                     (fun a b => - Z.of_N (season_year a) <= - Z.of_N (season_year b))
                     (sort compare covered)).
      { apply (sort_sorted compare (fun a => - Z.of_N (season_year a))
                 (fun _ => True)).
        - intros a b _ _. unfold compare. f_equal. lia.
        - apply Forall_forall. auto. }
      eapply StronglySorted_weaken; [|exact Hs]. simpl. intros a b Hab. lia.
Qed.

Definition league (seasons : list SeasonInfo) : LeagueResponse :=
  {| lr_id := 39; lr_name := "Premier League"; lr_type := "League"; lr_logo := "";
     lr_country := "England"; lr_flag := ""; lr_seasons := seasons |}.

Definition year (y : N) (lineups : bool) : SeasonInfo :=
  {| si_year := y; si_start := ""; si_end := ""; si_lineups := lineups |}.

Lemma getLeagueSeasons_covered_sorted_witness :
  exists seasons,
    outcome (run (getLeagueSeasons service 39)
               [replies 200
                  (Some {| errors := [];
                           response := [league [year 2010 false; year 2021 true;
                                                year 2023 true; year 2022 true]] |})]
               online_env [])
    = Fulfilled (Seasons seasons) /\
    map season_year seasons = [2023%N; 2022%N; 2021%N].
Proof.
  destruct (getLeagueSeasons_covered_sorted service 39
              [replies 200
                 (Some {| errors := [];
                          response := [league [year 2010 false; year 2021 true;
                                               year 2023 true; year 2022 true]] |})]
              online_env _ eq_refl eq_refl) as [_ Hsome].
  destruct (Hsome _ _ eq_refl) as (seasons & Ho & _).
  exists seasons. split; [exact Ho|].
  vm_compute in Ho. injection Ho as <-. reflexivity.
Defined.

(** *** Served from the cache *)

(** A storage that works and never runs out of room. *)
Definition spacious (ls : LocalStorage Payload) : Prop :=
  usable ls = true /\ forall m, room ls m = true.

Lemma getCacheEntry_device key now (ls : LocalStorage Payload) :
  usable (getCacheEntry key now ls).2 = usable ls /\
  room (getCacheEntry key now ls).2 = room ls.
Proof.
  unfold getCacheEntry. destruct (isAvailable ls) as [ok ls1] eqn:Hav.
  destruct ok.
  - destruct (StorageFacts.isAvailable_true _ _ Hav) as (Hu & _ & ->).
    unfold getItem, removeItem. cbn [usable room items with_items]. rewrite Hu.
    destruct (delete testKey (items ls) !! cacheKey key) as [[e|text]|];
      try destruct (expired now e);
      simpl; rewrite ?Hu; split; reflexivity.
  - apply StorageFacts.isAvailable_false in Hav as ->. split; reflexivity.
Qed.

Lemma spacious_lookup key now ls : spacious ls -> spacious (getCacheEntry key now ls).2.
Proof.
  intros [Hu Hroom]. destruct (getCacheEntry_device key now ls) as [Eu Er].
  split; [rewrite Eu; exact Hu|]. rewrite Er. exact Hroom.
Qed.

(** What was saved on a spacious storage is found until it expires. *)
Lemma spacious_round_trip key (d : Payload) T t0 t ls :
  spacious ls -> t - t0 < T ->
  (getCacheEntry key t (saveCacheEntry key d T t0 ls)).1 = Some d.
Proof.
  intros [Hu Hroom] Hfresh.
  rewrite (StorageFacts.saveCacheEntry_stores key d T t0 ls Hu
             (Hroom _) (Hroom _)).
  set (saved := with_items ls _).
  assert (Hav : isAvailable saved
                = (true, with_items saved (delete testKey (items saved))))
    by (apply StorageFacts.isAvailable_probe; [exact Hu|apply Hroom]).
  assert (Hin : items saved !! cacheKey key = Some (EntryJSON (mkEntry d t0 T)))
    by apply lookup_insert_eq.
  rewrite (StorageFacts.getCacheEntry_entry key _ t saved _ Hav Hin).
  unfold expired. cbn [ttl timestamp data].
  replace (T <=? t - t0) with false by (symmetry; apply Z.leb_gt; lia).
  reflexivity.
Qed.

(** X16. A lineup is fetched once: after a call of [getLineup] that
    fetched and accepted a lineup on a working storage with room, every
    later call for the same fixture and team made within the year the entry
    lives fulfils with the same lineup, sends no request and consumes no
    reply, whatever the network state (offline included). *)
Theorem getLineup_then_cached this (fixtureId teamId : N)
    (net : list (Exchange LineupResponse)) env payload teamLineup :
  let lookup := getCacheEntry (lineupKey fixtureId teamId) (now env)
                  (localStorage env) in
  let r := run (getLineup this fixtureId teamId) net env [] in
  spacious (localStorage env) ->
  lookup.1 = None ->
  outcome (run (fetchAPI this (lineupURL fixtureId) 0) net
             (with_storage lookup.2 env) []) = Fulfilled payload ->
  selectTeam teamId payload = Some teamLineup ->
  length (lu_startXI teamLineup) = 11%nat ->
  outcome r = Fulfilled (TheLineup (builtLineup fixtureId teamLineup)) /\
  forall net' env',
    localStorage env' = localStorage (final r) ->
    now env' - now (final r) < CACHE_TTL_INDEFINITE ->
    let r' := run (getLineup this fixtureId teamId) net' env' [] in
    outcome r' = Fulfilled (TheLineup (builtLineup fixtureId teamLineup)) /\
    trace r' = [] /\ unused r' = net'.
Proof.
  intros lookup r Hroomy Hmiss Hfetch Hteam Hlen. subst r.
  rewrite run_getLineup. fold lookup. rewrite Hmiss.
  unfold and_then. rewrite Hfetch. unfold afterFetch. rewrite Hteam, Hlen.
  cbn [Nat.eqb outcome final]. split; [reflexivity|].
  intros net' env' Hstore Hwithin. cbv zeta. rewrite run_getLineup.
  rewrite Hstore. cbn [localStorage with_storage now] in *.
  rewrite fetchAPI_keeps_storage. cbn [localStorage with_storage].
  rewrite spacious_round_trip; [auto| |exact Hwithin].
  apply spacious_lookup. exact Hroomy.
Qed.

Lemma getLineup_then_cached_witness :
  let r := run (getLineup service 215662 33) [delivers twoTeams] online_env [] in
  let offline := {| now := now (final r) + 1000; navigator := Some false;
                    localStorage := localStorage (final r);
                    pendingRequests := ∅ |} in
  outcome r = outcome (run (getLineup service 215662 33) [] offline []) /\
  trace (run (getLineup service 215662 33) [] offline []) = [].
Proof.
  intros r offline.
  destruct (getLineup_then_cached service 215662 33 [delivers twoTeams] online_env
              twoTeams (entry 33 11)) as [Hfirst Hagain].
  - split; [reflexivity|]. intros m. reflexivity.
  - reflexivity.
  - reflexivity.
  - reflexivity.
  - reflexivity.
  - destruct (Hagain [] offline eq_refl) as (Ho & Ht & _).
    + vm_compute. reflexivity.
    + split; [|exact Ht]. fold r in Hfirst. rewrite Hfirst. symmetry. exact Ho.
Defined.

(** *** Teams *)

Definition teamsKey (leagueId season : N) : string :=
  "teams-" +:+ toString leagueId +:+ "-" +:+ toString season.

Definition teamsURL (leagueId season : N) : string :=
  "/teams?league=" +:+ toString leagueId +:+ "&season=" +:+ toString season.

Definition toTeam (item : TeamResponse) : Team :=
  {| team_id := tr_id item; team_name := tr_name item;
     team_logo := tr_logo item; team_code := tr_code item;
     team_venue := tr_venue item |}.

(** X17. On a cache miss with a delivered payload,
    [getTeamsByLeagueSeason] fulfils with one team per entry, in the
    payload's order, and stores the list, an empty one included; on a
    working storage with room every call within the next thirty days is
    then served from the cache: same list, no request. *)
Theorem getTeams_then_cached this (leagueId season : N)
    (net : list (Exchange TeamResponse)) env payload :
  let lookup := getCacheEntry (teamsKey leagueId season) (now env)
                  (localStorage env) in
  let fetched := run (fetchAPI this (teamsURL leagueId season) 0) net
                   (with_storage lookup.2 env) [] in
  let r := run (getTeamsByLeagueSeason this leagueId season) net env [] in
  lookup.1 = None ->
  outcome fetched = Fulfilled payload ->
  outcome r = Fulfilled (Teams (map toTeam payload)) /\
  localStorage (final r)
  = saveCacheEntry (teamsKey leagueId season) (Teams (map toTeam payload))
      CACHE_TTL_30_DAYS (now (final fetched)) (localStorage (final fetched)) /\
  (spacious (localStorage env) ->
   forall net' env',
     localStorage env' = localStorage (final r) ->
     now env' - now (final r) < CACHE_TTL_30_DAYS ->
     let r' := run (getTeamsByLeagueSeason this leagueId season) net' env' [] in
     outcome r' = Fulfilled (Teams (map toTeam payload)) /\
     trace r' = [] /\ unused r' = net').
Proof.
  intros lookup fetched r Hmiss Hfetch.
  assert (Hrun : forall net0 env0,
    run (getTeamsByLeagueSeason this leagueId season) net0 env0 []
    = match (getCacheEntry (teamsKey leagueId season) (now env0)
               (localStorage env0)).1 with
      | Some hit =>
          {| outcome := Fulfilled hit;
             final := with_storage
                        (getCacheEntry (teamsKey leagueId season) (now env0)
                           (localStorage env0)).2 env0;
             trace := []; unused := net0 |}
      | None =>
          and_then (run (fetchAPI this (teamsURL leagueId season) 0) net0
                      (with_storage
                         (getCacheEntry (teamsKey leagueId season) (now env0)
                            (localStorage env0)).2 env0) [])
            (fun response =>
               run (storageService_saveCacheEntry (teamsKey leagueId season)
                      (Teams (map toTeam response)) CACHE_TTL_30_DAYS;;
                    Return (Teams (map toTeam response))))
      end).
  { intros net0 env0. unfold getTeamsByLeagueSeason. cbv zeta.
    fold (teamsKey leagueId season) (teamsURL leagueId season).
    apply (run_cached this (teamsKey leagueId season) (teamsURL leagueId season)). }
  subst r. rewrite Hrun. fold lookup. rewrite Hmiss. fold fetched.
  unfold and_then. rewrite Hfetch.
  split; [reflexivity|]. split; [reflexivity|].
  intros Hroomy net' env' Hstore Hwithin. cbv zeta. rewrite Hrun, Hstore.
  cbn [run bind mbind Async_bind storageService_saveCacheEntry update final
       localStorage with_storage now] in *.
  rewrite spacious_round_trip; [auto| |exact Hwithin].
  subst fetched. rewrite fetchAPI_keeps_storage. cbn [localStorage with_storage].
  apply spacious_lookup. exact Hroomy.
Qed.

Lemma getTeams_then_cached_witness :
  let r := run (getTeamsByLeagueSeason service 39 2023)
             [replies 200 (Some {| errors := []; response := [] |})] online_env [] in
  outcome r = Fulfilled (Teams []) /\
  items (localStorage (final r)) !! cacheKey (teamsKey 39 2023)
  = Some (EntryJSON (mkEntry (Teams []) 20 CACHE_TTL_30_DAYS)).
Proof.
  intros r.
  destruct (getTeams_then_cached service 39 2023
              [replies 200 (Some {| errors := []; response := [] |})] online_env []
              eq_refl eq_refl) as (Ho & Hstore & _).
  split; [exact Ho|]. fold r in Hstore. rewrite Hstore. reflexivity.
Defined.

(** *** Before any request *)

Definition offlineError : Exn :=
  APIError 0
    "You appear to be offline. Please check your internet connection and try again."
    true.

(** What a cached operation does without the network: a cache hit is the
    result; a miss while offline is an error; no request either way. *)
Definition settles_locally {T} (operation : Task T Payload) (key : string) : Prop :=
  forall (net : list (Exchange T)) env,
    let lookup := getCacheEntry key (now env) (localStorage env) in
    let r := run operation net env [] in
    (forall hit, lookup.1 = Some hit ->
       outcome r = Fulfilled hit /\ trace r = [] /\ unused r = net) /\
    (lookup.1 = None -> isOffline env = true ->
       outcome r = Rejected offlineError /\ trace r = [] /\ unused r = net /\
       final r = with_storage lookup.2 env).

Lemma run_cached_locally {T} this key url (rest : list T -> Task T Payload) :
  settles_locally
    (cached ← storageService_getCacheEntry key;
     match cached with
     | Some hit => Return hit
     | None => response ← await (fetchAPI this url 0); rest response
     end) key.
Proof.
  intros net env lookup r. subst r. rewrite run_cached. fold lookup. split.
  - intros hit ->. auto.
  - intros -> Hoff. rewrite fetchAPI_offline by exact Hoff. auto.
Qed.

(** X18. The four cached operations settle without the network whenever
    they can: each returns a cache hit as its result, and on a miss while
    the browser is offline each rejects with the offline [APIError] (status
    0, retryable); in both cases no request is sent. *)
Theorem operations_settle_locally getTime this (a b : N) :
  settles_locally (getLeagueSeasons this a) (seasonsKey a) /\
  settles_locally (getTeamsByLeagueSeason this a b) (teamsKey a b) /\
  settles_locally (getFixtures getTime this a b) (fixturesKey a b) /\
  settles_locally (getLineup this a b) (lineupKey a b).
Proof.
  split; [|split; [|split]].
  - apply (run_cached_locally this (seasonsKey a) (seasonsURL a)).
  - apply (run_cached_locally this (teamsKey a b) (teamsURL a b)).
  - apply (run_cached_locally this (fixturesKey a b) (fixturesURL a b)).
  - apply (run_cached_locally this (lineupKey a b) (lineupURL a)).
Qed.

(** *** Cache keys *)

Lemma toString_inj a b : toString a = toString b -> a = b.
Proof.
  intros E. pose proof (GridFacts.Number_toString a) as Ha.
  rewrite E, GridFacts.Number_toString in Ha. injection Ha as Ha. lia.
Qed.

Lemma split_key2 name a b :
  GridFacts.all_chars (fun c => negb (Ascii.eqb c "-")) name = true ->
  split "-" (name +:+ "-" +:+ toString a +:+ "-" +:+ toString b)
  = [name; toString a; toString b].
Proof.
  intros Hname.
  change (name +:+ "-" +:+ toString a +:+ "-" +:+ toString b)
    with (name +:+ String "-" (toString a +:+ String "-" (toString b))).
  rewrite GridFacts.split_app_sep by exact Hname.
  rewrite GridFacts.split_app_sep by (apply GridFacts.toString_no_sep; reflexivity).
  rewrite GridFacts.split_no_sep by (apply GridFacts.toString_no_sep; reflexivity).
  reflexivity.
Qed.

Lemma key2_inj name a b a' b' :
  GridFacts.all_chars (fun c => negb (Ascii.eqb c "-")) name = true ->
  name +:+ "-" +:+ toString a +:+ "-" +:+ toString b
  = name +:+ "-" +:+ toString a' +:+ "-" +:+ toString b' ->
  a = a' /\ b = b'.
Proof.
  intros Hname E. apply (f_equal (split "-")) in E.
  rewrite !split_key2 in E by exact Hname.
  injection E as Ea Eb. split; apply toString_inj; assumption.
Qed.

(** X19. No two requests share a cache slot: the keys of the lineup, the
    fixtures and the teams operations determine both their arguments, the
    seasons key determines the league, and keys of different operations
    (the fixed "leagues" key included) are never equal. *)
Theorem cache_keys_distinct (a b a' b' : N) :
  (lineupKey a b = lineupKey a' b' -> a = a' /\ b = b') /\
  (fixturesKey a b = fixturesKey a' b' -> a = a' /\ b = b') /\
  (teamsKey a b = teamsKey a' b' -> a = a' /\ b = b') /\
  (seasonsKey a = seasonsKey a' -> a = a') /\
  NoDup ["leagues"; seasonsKey a; teamsKey a b; fixturesKey a' b'; lineupKey a b].
Proof.
  split; [|split; [|split; [|split]]].
  - apply (key2_inj "lineup"). reflexivity.
  - apply (key2_inj "fixtures"). reflexivity.
  - apply (key2_inj "teams"). reflexivity.
  - unfold seasonsKey. intros E. apply toString_inj.
    simpl in E. injection E as E. exact E.
  - unfold seasonsKey, teamsKey, fixturesKey, lineupKey.
    repeat (constructor; [rewrite ?elem_of_cons, elem_of_nil; simpl;
                          intuition discriminate|]).
    constructor.
Qed.

End OperationFacts.

(** ** The requests of [getLeagues] in flight *)

Module FlightFacts.
Import JS Storage Async API Scheduler RetryFacts SchedulerFacts.

(** X20. However calls of [getLeagues] and the events of the loop
    interleave, a request is in flight exactly when it is the promise
    registered under "leagues"; so at most one request is in flight at any
    time. *)
Theorem getLeagues_single_flight this rt :
  reachable this rt ->
  (forall p, is_Some (suspended rt !! p)
             <-> pendingRequests (env rt) !! "leagues" = Some p) /\
  (forall p q, is_Some (suspended rt !! p) -> is_Some (suspended rt !! q) -> p = q).
Proof.
  intros Hreach. pose proof (reachable_single_flight this rt Hreach) as Hinv.
  split.
  - intros p. destruct Hinv as [Hs Hm]. split.
    + intros [s Hp]. apply (Hs p s Hp).
    + apply Hm.
  - intros p q. apply single_flight_unique, Hinv.
Qed.

Lemma getLeagues_single_flight_witness :
  pendingRequests (env (getLeagues service (getLeagues service idle).2).2)
    !! "leagues" = Some 0%nat.
Proof.
  destruct (getLeagues_single_flight service
              (getLeagues service (getLeagues service idle).2).2) as [Hiff _].
  - apply reach_call, reach_call, reach_idle.
  - apply (proj1 (Hiff 0%nat)). eexists. reflexivity.
Defined.

(** X21. While its request is in flight, a further call of [getLeagues]
    that misses the cache gets the promise of that request: it sends
    nothing and starts nothing. *)
Theorem getLeagues_joins_flight this rt p :
  reachable this rt ->
  is_Some (suspended rt !! p) ->
  (getCacheEntry "leagues" (now (env rt)) (localStorage (env rt))).1 = None ->
  (getLeagues this rt).1 = inr p /\
  network (getLeagues this rt).2 = network rt /\
  suspended (getLeagues this rt).2 = suspended rt /\
  nextPromise (getLeagues this rt).2 = nextPromise rt.
Proof.
  intros Hreach [s Hp] Hmiss.
  destruct (reachable_single_flight this rt Hreach) as [Hs _].
  destruct (Hs p s Hp) as [Hmark _]. unfold marker in Hmark.
  unfold getLeagues.
  destruct (getCacheEntry "leagues" (now (env rt)) (localStorage (env rt)))
    as [cached ls]. simpl in Hmiss. subst cached. simpl. rewrite Hmark. auto.
Qed.

Lemma getLeagues_joins_flight_witness :
  let rt := (getLeagues service idle).2 in
  (getLeagues service rt).1 = inr 0%nat /\
  map snd (network (getLeagues service rt).2)
  = ["https://v3.football.api-sports.io/leagues"].
Proof.
  intros rt.
  destruct (getLeagues_joins_flight service rt 0%nat) as (Hp & Hnet & _).
  - apply reach_call, reach_idle.
  - eexists. reflexivity.
  - reflexivity.
  - split; [exact Hp|]. rewrite Hnet. reflexivity.
Defined.

(** X22. When the request in flight settles, fulfilled or rejected, the
    "leagues" registration is removed with it: the next call that misses
    the cache starts a new request instead of following a dead promise. *)
Theorem getLeagues_unregisters this (i : Input LeagueResponse) rt p :
  reachable this rt ->
  is_Some (suspended rt !! p) ->
  suspended (step i rt) !! p = None ->
  pendingRequests (env (step i rt)) !! "leagues" = None /\
  forall q, suspended (step i rt) !! q = None.
Proof.
  intros Hreach Hp Hgone.
  pose proof (reachable_single_flight this rt Hreach) as Hinv.
  pose proof (settled_request_unregistered i rt p Hinv Hp Hgone) as Hmark.
  split; [exact Hmark|]. intros q.
  destruct (single_flight_step i rt Hinv) as [Hs _].
  destruct (suspended (step i rt) !! q) as [s|] eqn:Hq; [|reflexivity].
  destruct (Hs q s Hq) as [Hmq _]. congruence.
Qed.

(** The first request fails in the network; the rejection reaches the
    caller one microtask later. *)
Definition failing : Runtime LeagueResponse :=
  step (Reply 0%nat (inr FetchTypeError)) (getLeagues service idle).2.

Lemma getLeagues_unregisters_witness :
  pendingRequests (env (step (Microtask 0%nat) failing)) !! "leagues" = None /\
  settled (step (Microtask 0%nat) failing) !! 0%nat
  = Some (inl (APIError 0
            "Network error. Please check your internet connection and try again."
            true)).
Proof.
  destruct (getLeagues_unregisters service (Microtask 0%nat) failing 0%nat)
    as [Hmark _].
  - apply reach_step, reach_call, reach_idle.
  - eexists. reflexivity.
  - reflexivity.
  - split; [exact Hmark|reflexivity].
Defined.

End FlightFacts.

(** ** More on the name-matching service *)

Module NameMore.
Import Text NameMatching NameFacts NormalizeFacts.

(** *** Splitting and joining words *)

Definition wordlike (p : jsstring) : Prop :=
  p <> [] /\ Forall (fun c => isWhiteSpace c = false) p.

(** No white space at the end. *)
Fixpoint endsClean (s : jsstring) : bool :=
  match s with
  | [] => true
  | [c] => negb (isWhiteSpace c)
  | _ :: s' => endsClean s'
  end.

Lemma endsClean_snoc s c : endsClean (s ++ [c]) = negb (isWhiteSpace c).
Proof.
  induction s as [|d s IH]; [reflexivity|].
  simpl app. destruct (s ++ [c]) eqn:E.
  - destruct s; discriminate.
  - rewrite <- E, <- IH. rewrite E. reflexivity.
Qed.

Lemma trimStart_head s c rest : trimStart s = c :: rest -> isWhiteSpace c = false.
Proof.
  induction s as [|d s IH]; simpl; [discriminate|].
  destruct (isWhiteSpace d) eqn:Hd; [exact IH|]. intros [= <- _]. exact Hd.
Qed.

Lemma endsClean_trimEnd s : endsClean (trimEnd s) = true.
Proof.
  unfold trimEnd. destruct (trimStart (rev s)) as [|c rest] eqn:E; [reflexivity|].
  simpl rev. rewrite endsClean_snoc. rewrite (trimStart_head _ _ _ E). reflexivity.
Qed.

Lemma trim_clean s : trimStart (trim s) = trim s /\ endsClean (trim s) = true.
Proof.
  unfold trim. split.
  - apply trimEnd_keeps_start, trimStart_idem.
  - apply endsClean_trimEnd.
Qed.

Lemma splitSpaces_from_free s : forall current inSpace,
  Forall (fun c => isWhiteSpace c = false) current ->
  Forall (Forall (fun c => isWhiteSpace c = false))
    (splitSpaces_from s current inSpace).
Proof.
  induction s as [|c s IH]; intros current inSpace Hcur; simpl.
  - repeat constructor. apply Forall_rev, Hcur.
  - destruct (isWhiteSpace c) eqn:Hc.
    + destruct inSpace; [apply IH, Hcur|].
      constructor; [apply Forall_rev, Hcur|]. apply IH. constructor.
    + apply IH. constructor; assumption.
Qed.

Lemma splitSpaces_from_nonempty s : forall current inSpace,
  endsClean s = true ->
  (s = [] -> current <> []) ->
  (inSpace = false -> current = [] -> trimStart s = s) ->
  Forall (fun p => p <> []) (splitSpaces_from s current inSpace).
Proof.
  induction s as [|c s IH]; intros current inSpace Hend Hnil Hstart; simpl.
  - repeat constructor. intros E. apply (Hnil eq_refl).
    apply (f_equal (@rev N)) in E. rewrite rev_involutive in E. exact E.
  - assert (Hrest : isWhiteSpace c = true -> s <> [] /\ endsClean s = true).
    { intros Hc. destruct s as [|d s']; [simpl in Hend; rewrite Hc in Hend;
                                         discriminate|].
      split; [discriminate|exact Hend]. }
    destruct (isWhiteSpace c) eqn:Hc.
    + destruct (Hrest eq_refl) as [Hs Hend']. destruct inSpace.
      * apply IH; [exact Hend'|intros E; contradiction|discriminate].
      * assert (Hcur : current <> []).
        { intros ->. specialize (Hstart eq_refl eq_refl). simpl in Hstart.
          rewrite Hc in Hstart.
          destruct (trimStart_suffix s) as [pre Hpre].
          apply (f_equal (@length N)) in Hstart. rewrite Hpre in Hstart at 2.
          simpl in Hstart. rewrite length_app in Hstart. lia. }
        constructor.
        -- intros E. apply Hcur. apply (f_equal (@rev N)) in E.
           rewrite rev_involutive in E. exact E.
        -- apply IH; [exact Hend'|intros E; contradiction|discriminate].
    + apply IH.
      * destruct s as [|d s']; [reflexivity|exact Hend].
      * intros _. discriminate.
      * intros _. discriminate.
Qed.

(** The words of a trimmed name: none holds white space, and none is empty
    unless the name is blank. *)
Lemma words_wordlike name :
  trim name <> [] -> Forall wordlike (splitSpaces (trim name)).
Proof.
  intros Hname. destruct (trim_clean name) as [Hstart Hend].
  pose proof (splitSpaces_from_free (trim name) [] false (Forall_nil_2 _)) as Hfree.
  assert (Hne : Forall (fun p => p <> []) (splitSpaces_from (trim name) [] false))
    by (apply splitSpaces_from_nonempty; [exact Hend|contradiction|auto]).
  unfold splitSpaces. rewrite Forall_forall in *.
  intros p Hp. split; [apply Hne, Hp|apply Hfree, Hp].
Qed.

Lemma splitSpaces_from_word p rest : forall current,
  Forall (fun c => isWhiteSpace c = false) p ->
  splitSpaces_from (p ++ rest) current false
  = splitSpaces_from rest (rev p ++ current) false.
Proof.
  induction p as [|c p IH]; intros current Hp; [reflexivity|].
  apply Forall_cons in Hp as [Hc Hp]. simpl. rewrite Hc.
  rewrite (IH _ Hp). rewrite <- app_assoc. reflexivity.
Qed.

Lemma splitSpaces_from_join parts : forall inSpace,
  parts <> [] -> Forall wordlike parts ->
  splitSpaces_from (joinSpace parts) [] inSpace = parts.
Proof.
  induction parts as [|p parts IH]; intros inSpace Hne Hall; [contradiction|].
  apply Forall_cons in Hall as [[Hp Hfree] Hall].
  destruct p as [|c p]; [contradiction|].
  apply Forall_cons in Hfree as [Hc Hfree].
  destruct parts as [|q parts].
  - simpl. rewrite Hc.
    rewrite <- (app_nil_r p) at 1. rewrite (splitSpaces_from_word _ _ _ Hfree).
    simpl. rewrite rev_app_distr, rev_involutive. reflexivity.
  - change (joinSpace ((c :: p) :: q :: parts))
      with (c :: p ++ 32%N :: joinSpace (q :: parts)).
    simpl splitSpaces_from. rewrite Hc.
    rewrite (splitSpaces_from_word _ _ _ Hfree). simpl.
    rewrite rev_app_distr, rev_involutive. simpl. f_equal.
    apply IH; [discriminate|exact Hall].
Qed.

Lemma splitSpaces_join parts :
  parts <> [] -> Forall wordlike parts -> splitSpaces (joinSpace parts) = parts.
Proof. apply splitSpaces_from_join. Qed.

Lemma splitSpaces_nonempty s : forall current inSpace,
  splitSpaces_from s current inSpace <> [].
Proof.
  induction s as [|c s IH]; intros current inSpace; simpl; [discriminate|].
  destruct (isWhiteSpace c); [destruct inSpace|]; try apply IH. discriminate.
Qed.

Lemma lastN_spec (k : nat) (parts : list jsstring) :
  (1 <= k <= length parts)%nat ->
  length (lastN k parts) = k /\
  at_ (lastN k parts) (k - 1) = at_ parts (length parts - 1).
Proof.
  intros Hk. unfold lastN, at_. split.
  - rewrite length_drop. lia.
  - rewrite !nth_lookup, lookup_drop. do 2 f_equal. lia.
Qed.

Section Host.
Variable nfd : jsstring -> jsstring.
Variable toLowerCase : jsstring -> jsstring.

Abbreviation getLastName := (getLastName toLowerCase).
Abbreviation isMatch := (isMatch nfd toLowerCase).
Abbreviation consistent := (consistent nfd toLowerCase).

(** The last word of a name. *)
Definition lastWord (name : jsstring) : jsstring :=
  at_ (splitSpaces (trim name)) (length (splitSpaces (trim name)) - 1).

(** What [getLastName] returns: the last word, or the last two or three
    words joined by single spaces. *)
Lemma getLastName_cases name :
  let parts := splitSpaces (trim name) in
  getLastName name = lastWord name \/
  exists k, (2 <= k <= length parts)%nat /\ (k <= 3)%nat /\
            getLastName name = joinSpace (lastN k parts).
Proof.
  intros parts. unfold NameMatching.getLastName, lastWord. fold parts.
  destruct (Nat.eqb_spec (length parts) 1) as [E|_].
  { left. rewrite E. reflexivity. }
  destruct ((2 <=? length parts)%nat && includes prefixes _) eqn:E2.
  { apply andb_true_iff in E2 as [H2 _]. apply Nat.leb_le in H2.
    right. exists 2%nat. repeat split; auto. }
  destruct ((3 <=? length parts)%nat && _) eqn:E3; [|left; reflexivity].
  apply andb_true_iff in E3 as [H3 _]. apply Nat.leb_le in H3.
  right. exists 3%nat. repeat split; auto; lia.
Qed.

(** X23. Typing the last word of a player's name is always accepted, and
    so is typing the whole last name that [getLastName] extracts, whatever
    the name and whatever the caches hold. *)
Theorem isMatch_last_word name this :
  consistent this ->
  (isMatch (lastWord name) name this).1 = true /\
  (isMatch (getLastName name) name this).1 = true.
Proof.
  intros Hc. split.
  2: { rewrite (proj1 (isMatch_memo nfd toLowerCase _ name this Hc)).
       rewrite bool_decide_eq_true_2 by reflexivity. reflexivity. }
  rewrite (proj1 (isMatch_memo nfd toLowerCase _ name this Hc)).
  destruct (getLastName_cases name) as [E|(k & Hk & Hk3 & E)].
  - rewrite E. rewrite bool_decide_eq_true_2 by reflexivity. reflexivity.
  - assert (Hname : trim name <> []).
    { intros E0. rewrite E0 in Hk. simpl in Hk. lia. }
    pose proof (words_wordlike name Hname) as Hwords.
    destruct (lastN_spec k (splitSpaces (trim name)) ltac:(lia)) as [Hlen Hlast].
    assert (Hsplit : splitSpaces (getLastName name)
                     = lastN k (splitSpaces (trim name))).
    { rewrite E. apply splitSpaces_join.
      - intros E0. rewrite E0 in Hlen. simpl in Hlen. lia.
      - unfold lastN. apply Forall_drop, Hwords. }
    unfold finalPart. rewrite Hsplit, Hlen, Hlast. fold (lastWord name).
    rewrite (bool_decide_eq_true_2 (_ = normalized nfd toLowerCase (lastWord name)))
      by reflexivity.
    replace (1 <? k)%nat with true by (symmetry; apply Nat.ltb_lt; lia).
    apply orb_true_r.
Qed.

(** *** The size of the memo tables *)

(** At most a thousand entries, none under the empty string. *)
Definition within_cap (m : Memo) : Prop :=
  (length m <= 1000)%nat /\ Forall (fun kv => kv.1 <> []) m.

Lemma within_cap_insert (m : Memo) key v :
  key <> [] -> within_cap m -> within_cap (capped (m ++ [(key, v)])).
Proof.
  intros Hkey [Hlen Hkeys].
  assert (Hall : Forall (fun kv : jsstring * jsstring => kv.1 <> [])
                   (m ++ [(key, v)])).
  { apply Forall_app. split; [exact Hkeys|]. repeat constructor. exact Hkey. }
  assert (Hlen' : (length (m ++ [(key, v)]) <= 1001)%nat)
    by (rewrite length_app; simpl; lia).
  unfold capped. destruct (Nat.ltb_spec 1000 (length (m ++ [(key, v)]))) as [Hbig|Hok].
  - destruct (m ++ [(key, v)]) as [|[k w] rest]; [simpl in Hbig; lia|].
    apply Forall_cons in Hall as [Hk Hall]. simpl in Hk.
    destruct k; [contradiction|]. split; [simpl in Hlen'; lia|exact Hall].
  - split; [lia|exact Hall].
Qed.

(** X24. The memo tables stay bounded: as long as no entry is stored
    under the empty string, a call of [normalize] or of
    [generateLetterHint] with a non-empty argument leaves its table with at
    most a thousand entries, still none under the empty string, and does not
    touch the other table. *)
Theorem caches_stay_bounded name this :
  name <> [] ->
  within_cap (normalizeCache this) -> within_cap (hintCache this) ->
  within_cap (normalizeCache (normalize nfd toLowerCase name this).2) /\
  hintCache (normalize nfd toLowerCase name this).2 = hintCache this /\
  within_cap (hintCache (generateLetterHint toLowerCase name this).2) /\
  normalizeCache (generateLetterHint toLowerCase name this).2 = normalizeCache this.
Proof.
  intros Hname Hn Hh. unfold normalize, generateLetterHint.
  destruct (memo_get name (normalizeCache this));
    destruct (memo_get name (hintCache this)); simpl;
    repeat split; try apply Hn; try apply Hh;
    try (apply within_cap_insert; assumption).
Qed.

(** X25. An entry under the empty string defeats the cap: once it is the
    oldest entry of a full table it is never evicted, and every further
    miss makes the table one entry longer. *)
Theorem cache_grows_past_cap name this v rest :
  normalizeCache this = ([], v) :: rest ->
  (1000 <= length (normalizeCache this))%nat ->
  memo_get name (normalizeCache this) = None ->
  let this' := (normalize nfd toLowerCase name this).2 in
  length (normalizeCache this') = S (length (normalizeCache this)) /\
  exists v' rest', normalizeCache this' = ([], v') :: rest'.
Proof.
  intros Hfirst Hfull Hmiss this'. subst this'. unfold normalize.
  rewrite Hmiss. cbn [snd normalizeCache]. rewrite Hfirst in *.
  unfold capped. simpl app.
  replace (1000 <? length _)%nat with true.
  - split; [simpl; rewrite length_app; simpl; lia|eauto].
  - symmetry. apply Nat.ltb_lt. simpl in *. rewrite length_app. simpl. lia.
Qed.

(** X26. Memoization is invisible: with tables that hold only what the
    service computed, the answers of [normalize], [isMatch] and
    [generateLetterHint] do not depend on what is cached, and the tables
    they leave hold only what the service computes. *)
Theorem memo_transparent this this' guess actualName :
  consistent this -> consistent this' ->
  (normalize nfd toLowerCase guess this).1
  = (normalize nfd toLowerCase guess this').1 /\
  (isMatch guess actualName this).1 = (isMatch guess actualName this').1 /\
  (generateLetterHint toLowerCase actualName this).1
  = (generateLetterHint toLowerCase actualName this').1 /\
  consistent (normalize nfd toLowerCase guess this).2 /\
  consistent (isMatch guess actualName this).2 /\
  consistent (generateLetterHint toLowerCase actualName this).2.
Proof.
  intros Hc Hc'.
  destruct (normalize_memo nfd toLowerCase guess this Hc) as [E1 H1].
  destruct (normalize_memo nfd toLowerCase guess this' Hc') as [E1' _].
  destruct (isMatch_memo nfd toLowerCase guess actualName this Hc) as [E2 H2].
  destruct (isMatch_memo nfd toLowerCase guess actualName this' Hc') as [E2' _].
  destruct (generateLetterHint_memo nfd toLowerCase actualName this Hc) as [E3 H3].
  destruct (generateLetterHint_memo nfd toLowerCase actualName this' Hc')
    as [E3' _].
  split; [congruence|]. split; [congruence|]. split; [congruence|].
  split; [exact H1|]. split; [exact H2|exact H3].
Qed.

End Host.

Lemma caches_stay_bounded_witness :
  within_cap (normalizeCache
                (normalize Unicode.nfd Unicode.toLowerCase (str "Ligt")
                   newService).2).
Proof.
  apply (caches_stay_bounded Unicode.nfd Unicode.toLowerCase (str "Ligt")
           newService).
  - discriminate.
  - split; [simpl; lia|constructor].
  - split; [simpl; lia|constructor].
Defined.

(** A full table whose oldest entry is the empty string. *)
Definition fullTable : Service :=
  {| normalizeCache := ([], []) :: map (fun n => ([N.of_nat n], [N.of_nat n]))
                                     (seq 97 999);
     hintCache := [] |}.

Lemma cache_grows_past_cap_witness :
  length (normalizeCache
            (normalize Unicode.nfd Unicode.toLowerCase (str "Ligt") fullTable).2)
  = 1001%nat.
Proof.
  destruct (cache_grows_past_cap Unicode.nfd Unicode.toLowerCase (str "Ligt")
              fullTable [] (map (fun n => ([N.of_nat n], [N.of_nat n]))
                              (seq 97 999)) eq_refl) as [Hlen _].
  - vm_compute. repeat constructor.
  - vm_compute. reflexivity.
  - rewrite Hlen. vm_compute. reflexivity.
Defined.

Lemma memo_transparent_witness :
  (matches (str "ligt") (str "Matthijs de Ligt") newService).1
  = (matches (str "ligt") (str "Matthijs de Ligt")
       (matches (str "de ligt") (str "Matthijs de Ligt") newService).2).1.
Proof.
  apply (memo_transparent Unicode.nfd Unicode.toLowerCase).
  - apply consistent_new.
  - apply isMatch_memo, consistent_new.
Defined.

Lemma isMatch_last_word_witness :
  lastWord (str "  Virgil   van Dijk ") = str "Dijk" /\
  (matches (str "Dijk") (str "  Virgil   van Dijk ") newService).1 = true.
Proof.
  split; [reflexivity|].
  apply (isMatch_last_word Unicode.nfd Unicode.toLowerCase
           (str "  Virgil   van Dijk ") newService).
  apply consistent_new.
Defined.

End NameMore.

(** ** Slots of a formation and the lines on the pitch *)

Module SlotFacts.
Import JS Grid API Display GridFacts.

Lemma sumZ_app (xs ys : list N) : sumZ (xs ++ ys) = sumZ xs + sumZ ys.
Proof.
  unfold sumZ. induction xs as [|x xs IH]; simpl; [reflexivity|]. rewrite IH. lia.
Qed.

Lemma sumZ_nonneg (xs : list N) : 0 <= sumZ xs.
Proof. unfold sumZ. induction xs as [|x xs IH]; simpl; lia. Qed.

Lemma sumZ_take_S (lines : list N) k n :
  lines !! k = Some n ->
  sumZ (take (S k) lines) = sumZ (take k lines) + Z.of_N n.
Proof.
  intros Hk. rewrite (take_S_r _ _ _ Hk), sumZ_app. unfold sumZ. simpl. lia.
Qed.

Lemma sumZ_take_le (lines : list N) k : sumZ (take k lines) <= sumZ lines.
Proof.
  rewrite <- (take_drop k lines) at 2. rewrite sumZ_app.
  pose proof (sumZ_nonneg (drop k lines)). lia.
Qed.

Lemma sumZ_take_mono (lines : list N) k k' :
  (k <= k')%nat -> sumZ (take k lines) <= sumZ (take k' lines).
Proof.
  intros Hk. replace (take k lines) with (take k (take k' lines)).
  - apply sumZ_take_le.
  - rewrite take_take. f_equal. lia.
Qed.

(** Row [r], column [c] is a cell of the formation: an outfield row that
    the formation has, and a column within that line. *)
Definition cell (lines : list N) (r c : N) : Prop :=
  (2 <= r)%N /\
  exists n, lines !! (N.to_nat r - 2)%nat = Some n /\ (1 <= c <= n)%N.

(** The slot of a cell, as a number. *)
Definition slot (lines : list N) (r c : N) : Z :=
  1 + sumZ (take (N.to_nat r - 2) lines) + (Z.of_N c - 1).

Lemma convertGridToPosition_cell lines r c :
  (2 <= r)%N ->
  convertGridToPosition (gridString r c) (formationString lines)
  = Num (slot lines r c).
Proof.
  intros Hr. rewrite convertGridToPosition_numeric.
  destruct (N.eqb_spec r 1); [lia|reflexivity].
Qed.

(** The slots of line [k] are the next [n] numbers after the lines before. *)
Lemma slot_range lines r c :
  cell lines r c ->
  exists n, lines !! (N.to_nat r - 2)%nat = Some n /\
    1 + sumZ (take (N.to_nat r - 2) lines) <= slot lines r c
    < 1 + sumZ (take (N.to_nat r - 2) lines) + Z.of_N n.
Proof.
  intros [_ (n & Hn & Hc)]. exists n. split; [exact Hn|]. unfold slot. lia.
Qed.

Lemma slot_line lines r c k n :
  cell lines r c ->
  lines !! k = Some n ->
  (1 + sumZ (take k lines) <= slot lines r c
   < 1 + sumZ (take k lines) + Z.of_N n)
  <-> k = (N.to_nat r - 2)%nat.
Proof.
  intros Hcell Hk. destruct (slot_range lines r c Hcell) as (m & Hm & Hrange).
  split.
  - intros Hin. destruct (Nat.lt_trichotomy k (N.to_nat r - 2)) as [Hlt|[E|Hgt]].
    + pose proof (sumZ_take_mono lines (S k) (N.to_nat r - 2) ltac:(lia)) as Hmono.
      rewrite (sumZ_take_S lines k n Hk) in Hmono. lia.
    + exact E.
    + pose proof (sumZ_take_mono lines (S (N.to_nat r - 2)) k ltac:(lia)) as Hmono.
      rewrite (sumZ_take_S lines _ m Hm) in Hmono. lia.
  - intros ->. rewrite Hm in Hk. injection Hk as <-. exact Hrange.
Qed.

(** X27. For every formation, the cells of the outfield rows get the slots
    1 to (the number of outfield players), never the goalkeeper's slot 0,
    and two different cells never get the same slot. *)
Theorem convertGridToPosition_slots (lines : list N) (r c r' c' : N) :
  cell lines r c -> cell lines r' c' ->
  let position g := convertGridToPosition g (formationString lines) in
  (exists z, position (gridString r c) = Num z /\ 1 <= z <= sumZ lines) /\
  (position (gridString r c) = position (gridString r' c') -> r = r' /\ c = c').
Proof.
  intros Hcell Hcell' position. subst position. cbv beta.
  rewrite !convertGridToPosition_cell by (apply Hcell || apply Hcell').
  destruct (slot_range lines r c Hcell) as (n & Hn & Hrange).
  destruct (slot_range lines r' c' Hcell') as (n' & Hn' & Hrange').
  split.
  - exists (slot lines r c). split; [reflexivity|].
    pose proof (sumZ_take_le lines (S (N.to_nat r - 2))) as Hle.
    rewrite (sumZ_take_S lines _ n Hn) in Hle.
    pose proof (sumZ_nonneg (take (N.to_nat r - 2) lines)). lia.
  - intros [= E].
    assert (Hrow : (N.to_nat r' - 2 = N.to_nat r - 2)%nat).
    { apply (slot_line lines r c _ n' Hcell Hn'). rewrite E. exact Hrange'. }
    destruct Hcell as [Hr _]. destruct Hcell' as [Hr' _].
    assert (r = r') by lia. subst r'. split; [reflexivity|].
    unfold slot in E. lia.
Qed.

Lemma convertGridToPosition_slots_witness :
  convertGridToPosition "3:2" "4-3-3" <> convertGridToPosition "2:4" "4-3-3".
Proof.
  intros E.
  destruct (convertGridToPosition_slots [4; 3; 3]%N 3 2 2 4) as [_ Hinj].
  - split; [lia|]. exists 3%N. split; [reflexivity|lia].
  - split; [lia|]. exists 4%N. split; [reflexivity|lia].
  - destruct (Hinj E) as [Hr _]. discriminate.
Defined.

(** *** The lines [FormationDisplay] shows *)

Lemma group_lines_length parts cur players :
  length (group_lines parts cur players) = length parts.
Proof.
  revert cur. induction parts as [|count parts IH]; intros cur; simpl;
    [reflexivity|]. rewrite IH. reflexivity.
Qed.

Lemma group_lines_lookup (lines : list N) players : forall k n cur,
  lines !! k = Some n ->
  group_lines (map num_of_N lines) (Num cur) players !! k
  = Some (List.filter
            (fun p => geq (player_gridPosition p) (Num (cur + sumZ (take k lines)))
                      && lt (player_gridPosition p)
                           (Num (cur + sumZ (take k lines) + Z.of_N n)))
            players).
Proof.
  induction lines as [|l lines IH]; intros k n cur Hk; [discriminate|].
  destruct k as [|k].
  - injection Hk as ->. simpl. unfold sumZ. simpl.
    rewrite Z.add_0_r. reflexivity.
  - simpl in Hk. simpl group_lines. simpl lookup.
    rewrite (IH k n _ Hk). do 2 f_equal.
    assert (E : cur + sumZ (take (S k) (l :: lines))
                = cur + Z.of_N l + sumZ (take k lines))
      by (unfold sumZ; simpl; lia).
    rewrite E. reflexivity.
Qed.

(** X28. The pitch agrees with the grid: with the positions that
    [convertGridToPosition] assigns, [FormationDisplay] shows the player of
    row 1 as the goalkeeper and in no line, and shows the player of an
    outfield cell in the line of his row (row 2 in the first line, row 3 in
    the second, ...), in no other line and not as the goalkeeper. *)
Theorem FormationDisplay_rows (lineup : Lineup) (lines : list N)
    (player : Player) (r c : N) :
  lines <> [] ->
  lineup_formation lineup = formationString lines ->
  In player (lineup_startXI lineup) ->
  player_gridPosition player
  = convertGridToPosition (gridString r c) (formationString lines) ->
  (r = 1%N ->
   In player (goalkeeper (rows lineup)) /\
   forall row, In row (Display.lines (rows lineup)) -> ~ In player row) /\
  (cell lines r c ->
   ~ In player (goalkeeper (rows lineup)) /\
   forall k row, Display.lines (rows lineup) !! k = Some row ->
                 (In player row <-> k = (N.to_nat r - 2)%nat)).
Proof.
  intros Hlines Hformation Hin Hpos.
  set (sorted := sort (fun a b => sub (player_gridPosition a) (player_gridPosition b))
                   (lineup_startXI lineup)).
  assert (Hsorted : In player sorted).
  { apply (Permutation_in player
             (Permutation_sym (OperationFacts.sort_Permutation _ _))), Hin. }
  assert (Hrows : Display.lines (rows lineup)
                  = group_lines (map num_of_N lines) (Num 1) sorted).
  { unfold rows. cbn [Display.lines]. rewrite Hformation.
    destruct lines as [|l ls]; [contradiction|].
    rewrite split_formationString, map_Number_toString. reflexivity. }
  assert (Hkeeper : goalkeeper (rows lineup)
                    = List.filter (fun p => strict_eq (player_gridPosition p) (Num 0))
                        sorted) by reflexivity.
  rewrite Hrows, Hkeeper. split.
  - intros ->. rewrite convertGridToPosition_numeric in Hpos. simpl in Hpos.
    split.
    + apply filter_In. split; [exact Hsorted|]. rewrite Hpos. reflexivity.
    + intros row Hrow Hplayer.
      apply list_elem_of_In, list_elem_of_lookup_1 in Hrow as [k Hk].
      assert (Hlt : (k < length lines)%nat).
      { apply lookup_lt_Some in Hk as Hlen.
        rewrite group_lines_length, length_map in Hlen.
        exact Hlen. }
      destruct (lookup_lt_is_Some_2 lines k Hlt) as [n Hn].
      rewrite (group_lines_lookup lines sorted k n 1 Hn) in Hk.
      injection Hk as <-. apply filter_In in Hplayer as [_ Hrange].
      rewrite Hpos in Hrange. simpl in Hrange.
      pose proof (sumZ_nonneg (take k lines)).
      apply andb_true_iff in Hrange as [Hge _]. apply Z.leb_le in Hge. lia.
  - intros Hcell.
    rewrite (convertGridToPosition_cell lines r c (proj1 Hcell)) in Hpos.
    destruct (slot_range lines r c Hcell) as (m & Hm & Hrange).
    pose proof (sumZ_nonneg (take (N.to_nat r - 2) lines)) as Hnn.
    split.
    + intros Hgk. apply filter_In in Hgk as [_ Hzero]. rewrite Hpos in Hzero.
      simpl in Hzero. apply Z.eqb_eq in Hzero. lia.
    + intros k row Hk.
      assert (Hlt : (k < length lines)%nat).
      { apply lookup_lt_Some in Hk.
        rewrite group_lines_length, length_map in Hk. exact Hk. }
      destruct (lookup_lt_is_Some_2 lines k Hlt) as [n Hn].
      rewrite (group_lines_lookup lines sorted k n 1 Hn) in Hk.
      injection Hk as <-.
      rewrite <- (slot_line lines r c k n Hcell Hn).
      rewrite filter_In, Hpos. simpl.
      rewrite andb_true_iff, Z.leb_le, Z.ltb_lt. tauto.
Qed.

(** Two players of a 4-4-2: the goalkeeper and the second midfielder. *)
Definition shown (name grid : string) : Player :=
  {| player_id := 1; player_name := name; player_number := 1;
     player_position := "M";
     player_gridPosition := convertGridToPosition grid "4-4-2" |}.

Definition pitch : Lineup :=
  {| lineup_fixtureId := 1; lineup_teamId := 33; lineup_teamName := "Team";
     lineup_formation := "4-4-2";
     lineup_startXI := [shown "Keeper" "1:1"; shown "Second" "3:2"] |}.

Lemma FormationDisplay_rows_witness :
  exists row, Display.lines (rows pitch) !! 1%nat = Some row /\
              In (shown "Second" "3:2") row.
Proof.
  destruct (FormationDisplay_rows pitch [4; 4; 2]%N (shown "Second" "3:2") 3 2)
    as [_ Hline].
  - discriminate.
  - reflexivity.
  - right. left. reflexivity.
  - reflexivity.
  - destruct Hline as [_ Hline].
    + split; [lia|]. exists 4%N. split; [reflexivity|lia].
    + destruct (Display.lines (rows pitch) !! 1%nat) as [row|] eqn:Hrow;
        [|vm_compute in Hrow; discriminate].
      exists row. split; [reflexivity|]. apply (Hline 1%nat row Hrow). reflexivity.
Defined.

End SlotFacts.

(** ** Properties of the game in progress *)

Module GameFacts.
Import JS Game.

(** The number of correct guesses submitted for a position. *)
Definition correctAt (guesses : list Guess) (position : number) : Z :=
  Z.of_nat (length (List.filter
                      (fun g => matched g && bool_decide (at_position g = position))
                      guesses)).

Lemma correctAt_snoc guesses g position :
  correctAt (guesses ++ [g]) position
  = correctAt guesses position
    + (if matched g && bool_decide (at_position g = position) then 1 else 0).
Proof.
  unfold correctAt. rewrite List.filter_app, length_app. simpl.
  destruct (matched g && bool_decide (at_position g = position)); simpl; lia.
Qed.

Lemma correctAt_nonneg guesses position : 0 <= correctAt guesses position.
Proof. unfold correctAt. lia. Qed.

(** What holds of a game at every moment of play. *)
Definition in_play (guesses : list Guess) (game : GameState) : Prop :=
  attempts game = Z.of_nat (length guesses) /\
  (forall position,
     match guessedPlayers game !! position with
     | Some recorded =>
         isCorrect recorded = true /\
         attemptCount recorded = correctAt guesses position /\
         0 < correctAt guesses position
     | None => correctAt guesses position = 0
     end) /\
  completed game = bool_decide (size (guessedPlayers game) = 11%nat).

Lemma in_play_guessed guesses game g :
  in_play guesses game ->
  exists game', guessed (Some game) g = Some game' /\
                in_play (guesses ++ [g]) game' /\
                fixtureId game' = fixtureId game /\ teamId game' = teamId game /\
                startTime game' = startTime game.
Proof.
  intros (Hattempts & Hmap & Hdone).
  unfold guessed, handlePlayerGuess. destruct (matched g) eqn:Hmatched.
  - eexists. split; [reflexivity|]. cbn [dispatch appReducer default
      upd_fixtureId upd_teamId upd_startTime upd_guessedPlayers upd_attempts
      upd_completed fixtureId teamId startTime guessedPlayers attempts completed
      from_option id].
    split; [|auto]. split; [|split]; cbn [attempts guessedPlayers completed].
    + rewrite Hattempts, length_app. simpl. lia.
    + intros position. rewrite correctAt_snoc, Hmatched. simpl.
      specialize (Hmap position).
      destruct (decide (at_position g = position)) as [E|Hne].
      * subst position. rewrite lookup_insert_eq.
        rewrite bool_decide_eq_true_2 by reflexivity. cbn [isCorrect attemptCount].
        destruct (guessedPlayers game !! at_position g) as [recorded|].
        -- destruct Hmap as (_ & Hcount & Hpos). repeat split; lia.
        -- repeat split; lia.
      * rewrite lookup_insert_ne by exact Hne.
        rewrite bool_decide_eq_false_2 by exact Hne.
        rewrite Z.add_0_r. exact Hmap.
    + reflexivity.
  - eexists. split; [reflexivity|]. cbn [dispatch appReducer default
      upd_fixtureId upd_teamId upd_startTime upd_guessedPlayers upd_attempts
      upd_completed fixtureId teamId startTime guessedPlayers attempts completed
      from_option id].
    split; [|auto]. split; [|split]; cbn [attempts guessedPlayers completed].
    + rewrite Hattempts, length_app. simpl. lia.
    + intros position. rewrite correctAt_snoc, Hmatched. simpl.
      rewrite Z.add_0_r. apply Hmap.
    + exact Hdone.
Qed.

Lemma play_snoc guesses g start :
  play (guesses ++ [g]) start = guessed (play guesses start) g.
Proof. unfold play. apply foldl_snoc. Qed.

Lemma play_in_play (guesses : list Guess) (fixture team : N) (now : Z) :
  exists game,
    play guesses (dispatch None (initializeGameState None fixture team now))
    = Some game /\
    in_play guesses game /\
    fixtureId game = fixture /\ teamId game = team /\ startTime game = now.
Proof.
  induction guesses as [|g guesses IH] using rev_ind.
  - eexists. split; [reflexivity|]. simpl. repeat split.
  - destruct IH as (game & Hplay & Hin & Hf & Ht & Hs).
    rewrite play_snoc, Hplay.
    destruct (in_play_guessed guesses game g Hin)
      as (game' & Hg & Hin' & Hf' & Ht' & Hs').
    exists game'. repeat split; try assumption; try apply Hin'; congruence.
Qed.

(** X29. From the start of a game and through any sequence of guesses
    (each handled after the page has rendered the previous one): the
    number of attempts is the number of guesses submitted; a position is
    recorded exactly when a correct guess was made for it, always as
    correct, with the count of the correct guesses for it; the game is
    marked completed exactly when eleven positions are recorded; and the
    fixture, the team and the start time do not change. *)
Theorem play_invariant (guesses : list Guess) (fixture team : N) (now : Z) :
  exists game,
    play guesses (dispatch None (initializeGameState None fixture team now))
    = Some game /\
    attempts game = Z.of_nat (length guesses) /\
    (forall position,
       match guessedPlayers game !! position with
       | Some recorded =>
           isCorrect recorded = true /\
           attemptCount recorded = correctAt guesses position /\
           0 < correctAt guesses position
       | None => correctAt guesses position = 0
       end) /\
    completed game = bool_decide (size (guessedPlayers game) = 11%nat) /\
    fixtureId game = fixture /\ teamId game = team /\ startTime game = now.
Proof.
  destruct (play_in_play guesses fixture team now)
    as (game & Hplay & (Ha & Hm & Hd) & Hf & Ht & Hs).
  exists game. repeat split; assumption.
Qed.

(** *** When the game completes *)

Lemma correctAt_positive guesses position :
  0 < correctAt guesses position <->
  exists g, In g guesses /\ matched g = true /\ at_position g = position.
Proof.
  unfold correctAt. split.
  - intros Hpos.
    destruct (List.filter _ guesses) as [|g rest] eqn:E; [simpl in Hpos; lia|].
    assert (Hg : In g (List.filter
                         (fun g => matched g && bool_decide (at_position g = position))
                         guesses)) by (rewrite E; left; reflexivity).
    apply filter_In in Hg as [Hin Hg]. apply andb_true_iff in Hg as [Hm Hp].
    apply bool_decide_eq_true in Hp. eauto.
  - intros (g & Hin & Hm & Hp).
    assert (Hg : In g (List.filter
                         (fun g => matched g && bool_decide (at_position g = position))
                         guesses)).
    { apply filter_In. split; [exact Hin|]. rewrite Hm.
      rewrite bool_decide_eq_true_2 by exact Hp. reflexivity. }
    destruct (List.filter _ guesses); [destruct Hg|]. simpl. lia.
Qed.

Lemma size_list_to_set_le (l : list number) :
  (size (list_to_set l : gset number) <= length l)%nat.
Proof.
  induction l as [|x l IH].
  - rewrite list_to_set_nil, size_empty. simpl. lia.
  - rewrite list_to_set_cons, size_union_alt, size_singleton.
    assert (Hsub : (list_to_set l : gset number) ∖ {[x]} ⊆ list_to_set l)
      by apply subseteq_difference_l, reflexivity.
    apply subseteq_size in Hsub. simpl. lia.
Qed.

Lemma size_list_to_set_NoDup (l : list number) :
  size (list_to_set l : gset number) = length l -> NoDup l.
Proof.
  induction l as [|x l IH]; intros Hsize; [constructor|].
  pose proof (size_list_to_set_le l) as Hle.
  rewrite list_to_set_cons in Hsize. simpl length in Hsize.
  destruct (decide (x ∈ l)) as [Hin|Hout].
  - exfalso.
    assert (Hsame : ({[x]} ∪ list_to_set l : gset number) = list_to_set l).
    { apply subseteq_union_1_L, singleton_subseteq_l, elem_of_list_to_set, Hin. }
    rewrite Hsame in Hsize. lia.
  - apply NoDup_cons. split; [exact Hout|]. apply IH.
    assert (Hdisjoint : ({[x]} : gset number) ## list_to_set l).
    { apply disjoint_singleton_l. rewrite elem_of_list_to_set. exact Hout. }
    rewrite (size_union _ _ Hdisjoint), size_singleton in Hsize. lia.
Qed.

(** X30. When the game completes: with the eleven positions of a lineup
    and correct guesses made only for those, the game is marked completed
    exactly when the eleven positions are pairwise different and each has
    had a correct guess. So a lineup in which two players share a position
    can never be completed. *)
Theorem game_completes (guesses : list Guess) (fixture team : N) (now : Z)
    (positions : list number) :
  length positions = 11%nat ->
  (forall g, In g guesses -> matched g = true -> In (at_position g) positions) ->
  exists game,
    play guesses (dispatch None (initializeGameState None fixture team now))
    = Some game /\
    (completed game = true <->
     NoDup positions /\
     forall position, In position positions -> 0 < correctAt guesses position).
Proof.
  intros Hlen Hwithin.
  destruct (play_in_play guesses fixture team now)
    as (game & Hplay & (_ & Hmap & Hdone) & _).
  exists game. split; [exact Hplay|].
  rewrite Hdone, bool_decide_eq_true. rewrite <- size_dom.
  assert (Hdom : forall position,
            position ∈ dom (guessedPlayers game)
            <-> 0 < correctAt guesses position).
  { intros position. rewrite elem_of_dom. specialize (Hmap position).
    destruct (guessedPlayers game !! position) as [recorded|].
    - split; [intros _; apply Hmap|eauto].
    - split; [intros [? [=]]|lia]. }
  assert (Hsub : dom (guessedPlayers game) ⊆ (list_to_set positions : gset number)).
  { intros position Hp. apply Hdom, correctAt_positive in Hp
      as (g & Hin & Hm & <-).
    apply elem_of_list_to_set, list_elem_of_In, Hwithin; assumption. }
  pose proof (size_list_to_set_le positions) as Hle.
  pose proof (subseteq_size _ _ Hsub) as Hsize.
  split.
  - intros Heleven.
    assert (Hall : size (list_to_set positions : gset number) = length positions)
      by lia.
    split; [apply size_list_to_set_NoDup, Hall|].
    intros position Hin. apply Hdom.
    assert (Heq : dom (guessedPlayers game) = list_to_set positions)
      by (apply set_subseteq_size_eq; [exact Hsub|lia]).
    rewrite Heq. apply elem_of_list_to_set, list_elem_of_In, Hin.
  - intros [Hnodup Hall].
    assert (Hsup : (list_to_set positions : gset number)
                   ⊆ dom (guessedPlayers game)).
    { intros position Hp. apply Hdom, Hall, list_elem_of_In.
      apply elem_of_list_to_set in Hp. exact Hp. }
    pose proof (subseteq_size _ _ Hsup) as Hsize'.
    rewrite (size_list_to_set positions Hnodup) in *. lia.
Qed.

Definition correctGuess (position : Z) : Guess :=
  {| at_position := Num position; text := "name"; matched := true |}.

Definition wrongGuess (position : Z) : Guess :=
  {| at_position := Num position; text := "name"; matched := false |}.

Lemma game_completes_witness :
  exists game,
    play (wrongGuess 3 :: map correctGuess [0; 1; 2; 3; 4; 5; 6; 7; 8; 9; 10])
      (dispatch None (initializeGameState None 215662 33 0))
    = Some game /\
    completed game = true.
Proof.
  destruct (game_completes (wrongGuess 3 :: map correctGuess [0; 1; 2; 3; 4; 5; 6; 7; 8; 9; 10])
              215662 33 0 (map Num [0; 1; 2; 3; 4; 5; 6; 7; 8; 9; 10]))
    as (game & Hplay & Hdone).
  - reflexivity.
  - intros g Hg Hm. simpl in Hg.
    repeat (destruct Hg as [<-|Hg]; [first [discriminate Hm|simpl; tauto]|]).
    destruct Hg.
  - exists game. split; [exact Hplay|]. apply Hdone. split.
    + apply NoDup_ListNoDup. repeat constructor; simpl; intuition discriminate.
    + intros position Hin. simpl in Hin.
      repeat (destruct Hin as [<-|Hin]; [vm_compute; reflexivity|]).
      destruct Hin.
Defined.

End GameFacts.
